(** * VRController, vropenni-catcher: orientation, walk speed and lifecycle

    A shallow embedding of [openniutil.h] (namespace [OpenNIUtil]) and of the
    parts of [openniapplication.cpp] that drive it (the calibration callback,
    [requestStop]/[cleanup] and the body of the frame loop of [start]).

    Numbers.  Sensor readings (positions, confidences) are finite numbers and
    are carried as exact rationals.  A C++ [float]/[double] expression that
    can leave the finite numbers (a quotient, or anything computed from one)
    has type [float]: a finite rational, an infinity or NaN, with the IEEE
    rules for the special values.  In module [OpenNIUtil] arithmetic on
    finite values is exact.  Module [Float32] rounds every operation of
    [rotationFrom2Joints] and of [reduceAngle] to binary32, as the
    program runs them; module [Binary] evaluates the same operations
    with the binary formats of the Standard Library, for comparison on
    sample values.  [int] and [int64_t] are [Z];
    an operation whose C++ behaviour is undefined (signed overflow, a
    conversion of a non-finite or too large value to [int]) fails with
    [None].  The mutexes that guard the status flags only protect single
    reads and writes; the flags are modelled as plain record fields. *)

From Stdlib Require Import ZArith QArith Qabs Qminmax Qround Qpower Lia Lqa List Bool.
From Stdlib Require Import SpecFloat Permutation.
From Stdlib Require String.
Import ListNotations.

Local Open Scope Q_scope.

(** ** Extended numbers *)

Inductive float : Type :=
| Fin (q : Q)
| PInf
| NInf
| NaN.

Definition Qlt_bool (a b : Q) : bool := negb (Qle_bool b a).

Definition fopp (a : float) : float :=
  match a with
  | Fin q => Fin (- q)
  | PInf => NInf
  | NInf => PInf
  | NaN => NaN
  end.

Definition fabs (a : float) : float :=
  match a with
  | Fin q => Fin (Qabs q)
  | PInf | NInf => PInf
  | NaN => NaN
  end.

Definition fadd (a b : float) : float :=
  match a, b with
  | NaN, _ | _, NaN => NaN
  | Fin x, Fin y => Fin (x + y)
  | PInf, NInf | NInf, PInf => NaN
  | PInf, _ | _, PInf => PInf
  | NInf, _ | _, NInf => NInf
  end.

Definition fsub (a b : float) : float := fadd a (fopp b).

(** The sign of a finite value; a zero counts as positive: every zero
    divisor of this program is the result of [std::abs] or of an
    integer conversion, hence [+0]. *)
Definition fsign (q : Q) : float := if Qle_bool 0 q then PInf else NInf.

Definition fdiv (a b : float) : float :=
  match a, b with
  | NaN, _ | _, NaN => NaN
  | Fin x, Fin y =>
      if Qeq_bool y 0
      then (if Qeq_bool x 0 then NaN else fsign x)
      else Fin (x / y)
  | Fin _, _ => Fin 0
  | PInf, Fin y => fsign y
  | NInf, Fin y => fopp (fsign y)
  | _, _ => NaN
  end.

Definition feqb (a b : float) : bool :=
  match a, b with
  | Fin x, Fin y => Qeq_bool x y
  | PInf, PInf | NInf, NInf => true
  | _, _ => false
  end.

Definition fltb (a b : float) : bool :=
  match a, b with
  | NaN, _ | _, NaN => false
  | Fin x, Fin y => Qlt_bool x y
  | NInf, NInf | PInf, _ | _, NInf => false
  | _, _ => true
  end.

Definition fleb (a b : float) : bool :=
  match a, b with
  | NaN, _ | _, NaN => false
  | Fin x, Fin y => Qle_bool x y
  | NInf, _ | _, PInf => true
  | _, _ => false
  end.

(** ** Machine integers *)

Definition INT_MIN : Z := (- 2 ^ 31)%Z.
Definition INT_MAX : Z := (2 ^ 31 - 1)%Z.

Definition in_int (z : Z) : bool := ((INT_MIN <=? z) && (z <=? INT_MAX))%Z.

(** The result of an [int] operation: defined only inside the range. *)
Definition int_result (z : Z) : option Z := if in_int z then Some z else None.

(** Truncation toward zero, as a conversion to an integer type does. *)
Definition truncate (q : Q) : Z := Z.quot (Qnum q) (Zpos (Qden q)).

Definition in_int64 (z : Z) : bool := ((- 2 ^ 63 <=? z) && (z <=? 2 ^ 63 - 1))%Z.

(** The result of an [int64_t] operation. *)
Definition int64_result (z : Z) : option Z := if in_int64 z then Some z else None.

(** [static_cast<int>] of a floating value. *)
Definition float_to_int (a : float) : option Z :=
  match a with
  | Fin q => int_result (truncate q)
  | _ => None
  end.

Definition bind {A B : Type} (m : option A) (k : A -> option B) : option B :=
  match m with
  | Some a => k a
  | None => None
  end.

Notation "x <- m ;; k" := (bind m (fun x => k))
  (at level 61, m at next level, right associativity).
Notation "' pat <- m ;; k" := (bind m (fun x => let 'pat := x in k))
  (at level 61, pat pattern, m at next level, right associativity).

(** ** The data model of [openniutil.h] *)

(** The joints of [XnSkeletonJoint] that the program asks for. *)
Inductive XnSkeletonJoint : Type :=
| XN_SKEL_TORSO
| XN_SKEL_LEFT_SHOULDER
| XN_SKEL_LEFT_HIP
| XN_SKEL_LEFT_KNEE
| XN_SKEL_LEFT_FOOT
| XN_SKEL_RIGHT_SHOULDER
| XN_SKEL_RIGHT_HIP
| XN_SKEL_RIGHT_KNEE
| XN_SKEL_RIGHT_FOOT.

Definition XnUserID : Type := Z.
Definition XnConfidence : Type := Q.

Record XnVector3D : Type := mkVector {
  vX : Q;
  vY : Q;
  vZ : Q
}.

Record XnSkeletonJointPosition : Type := mkJointPosition {
  position : XnVector3D;
  fConfidence : XnConfidence
}.

Module OpenNIUtil.

Definition MIN_COMPUTED_WALKSPEED : Z := 40.

Record Joint : Type := mkJoint {
  type : XnSkeletonJoint;
  isActive : bool;
  info : XnSkeletonJointPosition;
  projectivePos : XnVector3D
}.

Record BodyPart : Type := mkBodyPart {
  hip : Joint;
  knee : Joint;
  foot : Joint;
  shoulder : Joint
}.

Record User : Type := mkUser {
  id : XnUserID;
  isTracking : bool;
  timestamp : Z;
  torsoJoint : Joint;
  leftPart : BodyPart;
  rightPart : BodyPart;
  previousLeftPart : BodyPart;
  previousRightPart : BodyPart;
  rotation : Z;
  rotationConfidence : XnConfidence;
  walkSpeed : Z;
  walkSpeedConfidence : XnConfidence;
  numberOfFramesWithoutMove : Z
}.

Record CameraInformations : Type := mkCameraInformations {
  user : User;
  hasSecondView : bool;
  secondUser : User;
  secondRotationProjected : Z;
  averageRotation : Z;
  averageWalkSpeed : Z;
  invalid : bool
}.

(** [Joint joint;]: only [isActive] has an initializer; the other members
    keep whatever the storage [raw] held. *)
Definition newJoint (raw : Joint) : Joint :=
  mkJoint (type raw) false (info raw) (projectivePos raw).

Definition newBodyPart (raw : BodyPart) : BodyPart :=
  mkBodyPart (newJoint (hip raw)) (newJoint (knee raw))
             (newJoint (foot raw)) (newJoint (shoulder raw)).

(** [User user;]: the members with a default initializer get it, the
    others keep the content of the storage [raw]. *)
Definition newUser (raw : User) : User :=
  mkUser (id raw) false (timestamp raw)
         (newJoint (torsoJoint raw))
         (newBodyPart (leftPart raw)) (newBodyPart (rightPart raw))
         (newBodyPart (previousLeftPart raw)) (newBodyPart (previousRightPart raw))
         (-1)%Z (-1) (-1)%Z (-1) 0%Z.

(** [CameraInformations()]: the members with a default initializer get
    it.  The value-initialization zeroes the others; no function of the
    program reads them before they are assigned, and the model leaves
    them as in [raw]. *)
Definition newCameraInformations (raw : CameraInformations) : CameraInformations :=
  mkCameraInformations (newUser (user raw)) false (newUser (secondUser raw))
                       (-1)%Z (-1)%Z (-1)%Z false.

Definition isJointAcceptable (joint : Joint) : bool :=
  isActive joint && Qle_bool 0.6 (fConfidence (info joint)).

(** Return the angle in range [0;360[ *)
Definition reduceAngle (angle : Q) : Q :=
  if Qle_bool 360 angle then angle - 360
  else if Qlt_bool angle 0 then 360 + angle
  else angle.

Definition jX (joint : Joint) : Q := vX (position (info joint)).
Definition jZ (joint : Joint) : Q := vZ (position (info joint)).

(** The functions of the C++ mathematical library that [openniutil.h]
    calls, on finite arguments: [atanDeg x] stands for
    [std::atan(x) * RAD2DEG] and [sqrt] for [std::sqrt]. *)
Section Libm.

Variable atanDeg : Q -> Q.
Variable sqrt : Q -> Q.

(** [std::atan(a) * RAD2DEG] on every value of [a]: the arctangent of an
    infinity is a right angle, and NaN propagates. *)
Definition fatanDeg (a : float) : float :=
  match a with
  | Fin q => Fin (atanDeg q)
  | PInf => Fin 90
  | NInf => Fin (- 90)
  | NaN => NaN
  end.

(** The divisor of the quotient whose arctangent is taken (line 181). *)
Definition angleDivisor (rightJoint leftJoint : Joint) : float :=
  fabs (Fin (jX rightJoint - jX leftJoint)).

(** [angle] (lines 180-181): evaluated before the case analysis. *)
Definition jointsAngle (rightJoint leftJoint : Joint) : float :=
  fatanDeg (fdiv (fabs (Fin (jZ rightJoint - jZ leftJoint)))
                 (angleDivisor rightJoint leftJoint)).

(** The case analysis that resolves the quadrant (lines 183-221). *)
Definition quadrantRotation (rightJoint leftJoint : Joint) : float :=
  let angle := jointsAngle rightJoint leftJoint in
  (* 0 *)
  if Qeq_bool (jZ rightJoint) (jZ leftJoint)
     && Qlt_bool (jX leftJoint) (jX rightJoint)
  then Fin 0
  (* 90 *)
  else if Qeq_bool (jX rightJoint) (jX leftJoint)
          && Qlt_bool (jZ leftJoint) (jZ rightJoint)
  then Fin 90
  (* 180 *)
  else if Qeq_bool (jZ rightJoint) (jZ leftJoint)
          && Qlt_bool (jX rightJoint) (jX leftJoint)
  then Fin 180
  (* 270 *)
  else if Qeq_bool (jX rightJoint) (jX leftJoint)
          && Qlt_bool (jZ rightJoint) (jZ leftJoint)
  then Fin 90
  (* 0 - 180 *)
  else if Qlt_bool (jZ rightJoint) (jZ leftJoint)
  then
    (* 0 - 90 *)
    if Qlt_bool (jX leftJoint) (jX rightJoint)
    then angle
    (* 90 - 180 *)
    else fsub (Fin 180) angle
  (* 180 - 360 *)
  else
    (* 180 - 270 *)
    if Qlt_bool (jX rightJoint) (jX leftJoint)
    then fadd (Fin 180) angle
    (* 270 - 360 *)
    else fsub (Fin 360) angle.

(** Smoothing against the previous rotation (the body of the test of
    line 227, lines 229-258). *)
Definition smoothRotation (frequency : Z) (rotation previousRotation : float) : float :=
  let '(rotation, previousRotation) :=
    if fltb (Fin 180) (fabs (fsub rotation previousRotation))
    then
      if fltb rotation previousRotation
      then (fadd rotation (Fin 360), previousRotation)
      else (rotation, fadd previousRotation (Fin 360))
    else (rotation, previousRotation) in
  let margin := fdiv (Fin 55) (Fin (inject_Z frequency)) in
  let diffRotation := fsub rotation previousRotation in
  let rotation :=
    if fltb margin (fabs diffRotation)
    then
      (* If new rotation is higher *)
      if fltb (Fin 0) diffRotation
      then fadd previousRotation margin
      (* If new rotation is lower *)
      else fsub previousRotation margin
    else rotation in
  if fleb (Fin 360) rotation then fsub rotation (Fin 360) else rotation.

(** [rotationFrom2Joints]: the value returned, and the value stored
    through [resultConfidence] when that pointer is not null. *)
Definition rotationFrom2Joints (frequency : Z) (rightJoint leftJoint : Joint)
    (previousRotation : float) : float * XnConfidence :=
  if isJointAcceptable rightJoint && isJointAcceptable leftJoint
  then
    let rotation := quadrantRotation rightJoint leftJoint in
    let rotation :=
      if negb (feqb previousRotation (Fin (- 1)))
      then smoothRotation frequency rotation previousRotation
      else rotation in
    (rotation,
     (fConfidence (info leftJoint) + 1) * (fConfidence (info rightJoint) + 1))
  else (Fin (- 1), - 1).

(** One round of the averaging loop (lines 292-303): the running sum and
    count after [rotations[i]]. *)
Definition accumulate (acc : option (Z * Z)) (r : Z) : option (Z * Z) :=
  '(rotSum, rotCount) <- acc ;;
  if negb (r =? -1)%Z
  then
    rotSum' <- (if Qlt_bool 180 (inject_Z r)
                then float_to_int (Fin (inject_Z rotSum + (inject_Z r - 360)))
                else int_result (rotSum + r)) ;;
    Some (rotSum', (rotCount + 1)%Z)
  else Some (rotSum, rotCount).

(** "Make an average" (lines 289-308): the rotation stored in the user. *)
Definition averageRotations (rotations : list Z) : option Z :=
  '(rotSum, rotCount) <- fold_left accumulate rotations (Some (0, 0)%Z) ;;
  if negb (rotCount =? 0)%Z
  then float_to_int (Fin (reduceAngle (inject_Z (Z.quot rotSum rotCount))))
  else Some (- 1)%Z.

Definition setRotation (user : User) (rot : Z) (conf : XnConfidence) : User :=
  mkUser (id user) (isTracking user) (timestamp user) (torsoJoint user)
         (leftPart user) (rightPart user)
         (previousLeftPart user) (previousRightPart user)
         rot conf (walkSpeed user) (walkSpeedConfidence user)
         (numberOfFramesWithoutMove user).

(** The four per-pair estimates of [rotationForUser], each converted to
    [int] (lines 276-287). *)
Definition pairRotations (frequency previousRotation : Z) (user : User)
    : option (list Z) :=
  let estimate rightJoint leftJoint :=
    float_to_int
      (fst (rotationFrom2Joints frequency rightJoint leftJoint
                                (Fin (inject_Z previousRotation)))) in
  (* right hip / left hip *)
  r0 <- estimate (hip (rightPart user)) (hip (leftPart user)) ;;
  (* right hip / torso *)
  r1 <- estimate (hip (rightPart user)) (torsoJoint user) ;;
  (* torso / left hip *)
  r2 <- estimate (torsoJoint user) (hip (leftPart user)) ;;
  (* right shoulder / left shoulder *)
  r3 <- estimate (shoulder (rightPart user)) (shoulder (leftPart user)) ;;
  Some [r0; r1; r2; r3].

Definition rotationForUser (frequency previousRotation : Z) (user : User) : option User :=
  rotations <- pairRotations frequency previousRotation user ;;
  rot <- averageRotations rotations ;;
  Some (setRotation user rot
          (snd (rotationFrom2Joints frequency (hip (rightPart user)) (hip (leftPart user))
                                    (Fin (inject_Z previousRotation))))).

Definition setWalkSpeed (user : User) (speed : Z) (conf : XnConfidence)
    (frames : Z) : User :=
  mkUser (id user) (isTracking user) (timestamp user) (torsoJoint user)
         (leftPart user) (rightPart user)
         (previousLeftPart user) (previousRightPart user)
         (rotation user) (rotationConfidence user) speed conf frames.

(** "Smooth the value depending on the last one" (lines 355-367). *)
Definition smoothSpeed (frequency speed previousSpeed : Z) : option Z :=
  if negb (previousSpeed =? -1)%Z
  then
    margin <- float_to_int (fdiv (Fin 100) (Fin (inject_Z frequency))) ;;
    d <- int_result (speed - previousSpeed) ;;
    a <- int_result (Z.abs d) ;;
    if (margin <? a)%Z
    then
      if (speed <? previousSpeed)%Z
      then int_result (previousSpeed - margin)
      else int_result (previousSpeed + margin)
    else Some speed
  else Some speed.

(** [walkSpeedForUser]: the value returned and the content of
    [*resultConfidence] on return; [resultConfidence] is its content on
    entry. *)
Definition walkSpeedForUser (frequency : Z) (user : User)
    (previousTimestamp previousSpeed : Z) (resultConfidence : XnConfidence)
    : option (Z * XnConfidence) :=
  (* Compute the x and z diff for the right and left foot *)
  let '(rdx, rdz, ldx, ldz, cantCompute) :=
    if isJointAcceptable (foot (rightPart user))
       && isJointAcceptable (foot (previousRightPart user))
    then
      let rdx := jX (foot (previousRightPart user)) - jX (foot (rightPart user)) in
      let rdz := jZ (foot (previousRightPart user)) - jZ (foot (rightPart user)) in
      if isJointAcceptable (foot (leftPart user))
         && isJointAcceptable (foot (previousLeftPart user))
      then
        let ldx := jX (foot (previousLeftPart user)) - jX (foot (leftPart user)) in
        let ldz := jZ (foot (previousLeftPart user)) - jZ (foot (leftPart user)) in
        (rdx, rdz, ldx, ldz, false)
      else (rdx, rdz, 0, 0, true)
    else (0, 0, 0, 0, true) in
  if cantCompute
  then Some ((- 1)%Z, resultConfidence)
  else
    let resultConfidence :=
      (fConfidence (info (foot (rightPart user))) + 1)
      * (fConfidence (info (foot (previousRightPart user))) + 1)
      * (fConfidence (info (foot (leftPart user))) + 1)
      * (fConfidence (info (foot (previousLeftPart user))) + 1) in
    let rightDiff := sqrt (rdx * rdx + rdz * rdz) in
    let leftDiff := sqrt (ldx * ldx + ldz * ldz) in
    (* Compute the average of diff (in mm) *)
    let diff := (rightDiff + leftDiff) / 2 in
    (* Compute diff of timestamp *)
    diffTime <- int64_result (timestamp user - previousTimestamp) ;;
    (* Now compute the speed in cm/s *)
    speed <- float_to_int (fdiv (Fin (diff * 0.1)) (Fin (inject_Z diffTime * 0.001))) ;;
    speed <- smoothSpeed frequency speed previousSpeed ;;
    Some (speed, resultConfidence).

End Libm.

(** *** The aggregation as the specification words it *)

(** A value above 180 is replaced by its negative equivalent. *)
Definition negativeEquivalent (value : Z) : Z :=
  if (180 <? value)%Z then (value - 360)%Z else value.

(** The estimates that are not the unknown value -1. *)
Definition knownRotations (rotations : list Z) : list Z :=
  filter (fun r => negb (r =? -1)%Z) rotations.

Definition sumZ (l : list Z) : Z := fold_right Z.add 0%Z l.

(** An integer angle brought back into [0,360) by one turn. *)
Definition normalizeDegrees (a : Z) : Z :=
  if (360 <=? a)%Z then (a - 360)%Z
  else if (a <? 0)%Z then (360 + a)%Z
  else a.

(** The average (an [int] quotient) of the negative equivalents of the
    known estimates, normalized; -1 when no estimate is known. *)
Definition aggregateRotation (rotations : list Z) : Z :=
  match knownRotations rotations with
  | [] => (- 1)%Z
  | known =>
      normalizeDegrees
        (Z.quot (sumZ (map negativeEquivalent known)) (Z.of_nat (length known)))
  end.

(** The wrap-aware difference of two angles of [0,360). *)
Definition angularDistance (a b : Q) : Q :=
  Qmin (Qabs (a - b)) (360 - Qabs (a - b)).

End OpenNIUtil.

(** ** The rotation of an orientation matrix *)

Module Orientation.

Import OpenNIUtil.

(** [reduceAngle] on every value of a [float]: a test on NaN is false. *)
Definition freduceAngle (angle : float) : float :=
  if fleb (Fin 360) angle then fsub angle (Fin 360)
  else if fltb angle (Fin 0) then fadd (Fin 360) angle
  else angle.

(** [acosDeg x] stands for [std::acos(x) * RAD2DEG] and [asin] for
    [std::asin], whose result is in radians. *)
Section Libm.

Variable acosDeg : Q -> float.
Variable asin : Q -> float.
Variable RAD2DEG : Q.

(** Indexes of the 3x3 matrix are:
    ( 0  1  2 )   ( Xx  Yx  Zx )
    ( 3  4  5 ) = ( Xy  Yy  Zy )
    ( 6  7  8 )   ( Xz  Yz  Zz ) *)
Definition orientationMatrixToRotation (orientation : nat -> Q) : float :=
  (* Get component Xx *)
  let xRot := acosDeg (orientation 0%nat) in
  (* Check the Z component of the X axis *)
  let xRot :=
    if Qlt_bool (orientation 6%nat) 0 then fsub (Fin 360) xRot else xRot in
  let xRot := freduceAngle xRot in
  (* Get component Zz *)
  let zRot := asin (orientation 8%nat * RAD2DEG) in
  let zRot := if fltb (Fin 0) zRot then fsub (Fin 360) zRot else fabs zRot in
  let zRot := freduceAngle zRot in
  fdiv (fadd xRot zRot) (Fin 2).

End Libm.

End Orientation.

(** ** The application object of [openniapplication.cpp] *)

Definition XnStatus : Type := Z.
Definition XN_STATUS_OK : XnStatus := 0%Z.

(** [XnCalibrationStatus], as the OpenNI headers declare it. *)
Inductive XnCalibrationStatus : Type :=
| XN_CALIBRATION_STATUS_OK
| XN_CALIBRATION_STATUS_NO_USER
| XN_CALIBRATION_STATUS_ARM
| XN_CALIBRATION_STATUS_LEG
| XN_CALIBRATION_STATUS_HEAD
| XN_CALIBRATION_STATUS_TORSO
| XN_CALIBRATION_STATUS_TOP_FOV
| XN_CALIBRATION_STATUS_SIDE_FOV
| XN_CALIBRATION_STATUS_POSE
| XN_CALIBRATION_STATUS_MANUAL_ABORT
| XN_CALIBRATION_STATUS_MANUAL_RESET
| XN_CALIBRATION_STATUS_TIMEOUT_FAIL.

Module OpenNIApplication.

Import OpenNIUtil.

Inductive LogMessage : Type :=
| CalibrationComplete (userID : XnUserID)
| CalibrationFailed (userID : XnUserID)
| ManualAbort
| NotInitialized
| StartingMainLoop
| StartGeneratingFailed
| Started.

(** What the application does that is visible from outside, in the order
    it happens: the entry into one of its own methods, a call of the
    sensor collaborator, a line of the log. *)
Inductive Event : Type :=
| CallStartCalibration (userID : XnUserID)
| CallStartTracking (userID : XnUserID)
| CallCleanup
| RequestCalibration (userID : XnUserID)
| StartTracking (userID : XnUserID)
| ReleaseDepthGenerator
| ReleaseUserGenerator
| ReleaseContext
| StartGeneratingAll
| WaitAnyUpdateAll
| Message (m : LogMessage).

Record App : Type := mkApp {
  _frequency : Z;
  _init : bool;
  _started : bool;
  _stopped : bool;
  _stopRequested : bool;
  camInfo : CameraInformations;
  events : list Event
}.

Definition emit (app : App) (e : Event) : App :=
  mkApp (_frequency app) (_init app) (_started app) (_stopped app)
        (_stopRequested app) (camInfo app) (events app ++ [e]).

Definition set_stopped (app : App) (b : bool) : App :=
  mkApp (_frequency app) (_init app) (_started app) b
        (_stopRequested app) (camInfo app) (events app).

Definition set_stopRequested (app : App) (b : bool) : App :=
  mkApp (_frequency app) (_init app) (_started app) (_stopped app)
        b (camInfo app) (events app).

Definition set_started (app : App) (b : bool) : App :=
  mkApp (_frequency app) (_init app) b (_stopped app)
        (_stopRequested app) (camInfo app) (events app).

Definition set_camInfo (app : App) (c : CameraInformations) : App :=
  mkApp (_frequency app) (_init app) (_started app) (_stopped app)
        (_stopRequested app) c (events app).

Definition calibrationStatus_eqb (a b : XnCalibrationStatus) : bool :=
  match a, b with
  | XN_CALIBRATION_STATUS_OK, XN_CALIBRATION_STATUS_OK
  | XN_CALIBRATION_STATUS_NO_USER, XN_CALIBRATION_STATUS_NO_USER
  | XN_CALIBRATION_STATUS_ARM, XN_CALIBRATION_STATUS_ARM
  | XN_CALIBRATION_STATUS_LEG, XN_CALIBRATION_STATUS_LEG
  | XN_CALIBRATION_STATUS_HEAD, XN_CALIBRATION_STATUS_HEAD
  | XN_CALIBRATION_STATUS_TORSO, XN_CALIBRATION_STATUS_TORSO
  | XN_CALIBRATION_STATUS_TOP_FOV, XN_CALIBRATION_STATUS_TOP_FOV
  | XN_CALIBRATION_STATUS_SIDE_FOV, XN_CALIBRATION_STATUS_SIDE_FOV
  | XN_CALIBRATION_STATUS_POSE, XN_CALIBRATION_STATUS_POSE
  | XN_CALIBRATION_STATUS_MANUAL_ABORT, XN_CALIBRATION_STATUS_MANUAL_ABORT
  | XN_CALIBRATION_STATUS_MANUAL_RESET, XN_CALIBRATION_STATUS_MANUAL_RESET
  | XN_CALIBRATION_STATUS_TIMEOUT_FAIL, XN_CALIBRATION_STATUS_TIMEOUT_FAIL => true
  | _, _ => false
  end.

(** What the sensor delivers during one iteration of the frame loop. *)
Record Frame : Type := mkFrame {
  usersArray : list XnUserID;
  isTrackingUser : XnUserID -> bool;
  isJointActive : XnSkeletonJoint -> bool;
  skeletonJointPosition : XnUserID -> XnSkeletonJoint -> XnSkeletonJointPosition;
  realWorldToProjective : XnVector3D -> XnVector3D;
  clock : Z;
  rawUser : User;
  rawJoint : XnSkeletonJoint -> Joint
}.

(** What reaches the frame loop: the data of the next frame, or a call of
    [requestStop] from another calling context. *)
Inductive Input : Type :=
| FrameReady (fr : Frame)
| StopRequested.

Inductive Outcome : Type :=
| Continue (app : App) (firstLoop : bool)
| Break (app : App).

Section Collaborators.

Variable atanDeg : Q -> Q.
Variable sqrt : Q -> Q.
(** The status the sensor collaborator answers to a call. *)
Variable sensorAnswer : Event -> XnStatus.

Definition cleanup (app : App) : App :=
  let app := emit app CallCleanup in
  let app := emit app ReleaseDepthGenerator in
  let app := emit app ReleaseUserGenerator in
  let app := emit app ReleaseContext in
  set_stopped app true.

Definition isInitialized (app : App) : bool := _init app.
Definition isStarted (app : App) : bool := _started app.
Definition isStopped (app : App) : bool := _stopped app.

Definition requestStop (app : App) : App :=
  let app := set_stopRequested app true in
  (* Directly call cleanup() method if the application is not yet started *)
  if negb (isStarted app) then cleanup app else app.

Definition startCalibration (app : App) (userID : XnUserID) : App * XnStatus :=
  let app := emit app (CallStartCalibration userID) in
  if _started app
  then (emit app (RequestCalibration userID), sensorAnswer (RequestCalibration userID))
  else (app, 100%Z).

Definition startTracking (app : App) (userID : XnUserID) : App * XnStatus :=
  let app := emit app (CallStartTracking userID) in
  if _started app
  then (emit app (StartTracking userID), sensorAnswer (StartTracking userID))
  else (app, 101%Z).

(** [calibrationEndCallback]: the state of the application behind
    [cookie] when the callback returns; there is none behind a null
    cookie. *)
Definition calibrationEndCallback (cookie : option App) (userID : XnUserID)
    (calibrationStatus : XnCalibrationStatus) : option App :=
  app <- cookie ;;
  (* Check the status *)
  if calibrationStatus_eqb calibrationStatus XN_CALIBRATION_STATUS_OK
  then
    (* Calibration succeeded *)
    let app := emit app (Message (CalibrationComplete userID)) in
    Some (fst (startTracking app userID))
  else
    (* Calibration failed *)
    let app := emit app (Message (CalibrationFailed userID)) in
    if calibrationStatus_eqb calibrationStatus XN_CALIBRATION_STATUS_MANUAL_ABORT
    then Some (emit app (Message ManualAbort))
    else (* Restart the calibration process *)
      Some (fst (startCalibration app userID)).

Definition createJoint (fr : Frame) (jointType : XnSkeletonJoint)
    (userID : XnUserID) : Joint :=
  let joint := newJoint (rawJoint fr jointType) in
  if isJointActive fr jointType
  then
    let info := skeletonJointPosition fr userID jointType in
    mkJoint jointType true info (realWorldToProjective fr (position info))
  else mkJoint jointType false (info joint) (projectivePos joint).

(** "Get the first tracked user" (lines 327-335). *)
Definition firstTrackingID (fr : Frame) : XnUserID :=
  match find (isTrackingUser fr) (usersArray fr) with
  | Some id => id
  | None => 0%Z
  end.

(** "Set the current user" (lines 338-376). *)
Definition currentUser (frequency : Z) (firstLoop : bool) (previousUser : User)
    (fr : Frame) : option User :=
  let user := newUser (rawUser fr) in
  let firstTrackingID := firstTrackingID fr in
  if negb (firstTrackingID =? 0)%Z
  then
    let uid := firstTrackingID in
    let leftPart :=
      mkBodyPart (createJoint fr XN_SKEL_LEFT_HIP uid)
                 (createJoint fr XN_SKEL_LEFT_KNEE uid)
                 (createJoint fr XN_SKEL_LEFT_FOOT uid)
                 (createJoint fr XN_SKEL_LEFT_SHOULDER uid) in
    let rightPart :=
      mkBodyPart (createJoint fr XN_SKEL_RIGHT_HIP uid)
                 (createJoint fr XN_SKEL_RIGHT_KNEE uid)
                 (createJoint fr XN_SKEL_RIGHT_FOOT uid)
                 (createJoint fr XN_SKEL_RIGHT_SHOULDER uid) in
    let user :=
      mkUser uid true (clock fr) (createJoint fr XN_SKEL_TORSO uid)
             leftPart rightPart
             (OpenNIUtil.leftPart previousUser) (OpenNIUtil.rightPart previousUser)
             (rotation user) (rotationConfidence user)
             (walkSpeed user) (walkSpeedConfidence user)
             (numberOfFramesWithoutMove user) in
    user <- rotationForUser atanDeg frequency (rotation previousUser) user ;;
    (* Only compute the walk speed if we are not in the first frame *)
    if negb firstLoop
    then
      ' (speed, confidence) <-
        walkSpeedForUser sqrt frequency user (timestamp previousUser)
                         (walkSpeed previousUser) (walkSpeedConfidence user) ;;
      frames <-
        (if negb (walkSpeed previousUser =? -1)%Z
            && (walkSpeed previousUser <=? MIN_COMPUTED_WALKSPEED)%Z
         then int_result (numberOfFramesWithoutMove previousUser + 1)
         else Some 0%Z) ;;
      Some (setWalkSpeed user speed confidence frames)
    else Some user
  else
    Some (mkUser 0%Z false (timestamp user) (torsoJoint user)
                 (OpenNIUtil.leftPart user) (OpenNIUtil.rightPart user)
                 (previousLeftPart user) (previousRightPart user)
                 (rotation user) (rotationConfidence user)
                 (walkSpeed user) (walkSpeedConfidence user)
                 (numberOfFramesWithoutMove user)).

(** One iteration of the [while(true)] of [start] (lines 304-405).  The
    copy of the depth map and of [camInfo] into the shared memory regions
    reads the state built here and changes none of it; it is left out. *)
Definition loopIteration (app : App) (firstLoop : bool) (fr : Frame)
    : option Outcome :=
  if _stopRequested app
  then Some (Break (cleanup app))
  else
    (* Get the previous user data *)
    let previousUser := user (camInfo app) in
    let app := set_camInfo app (newCameraInformations (camInfo app)) in
    let app := emit app WaitAnyUpdateAll in
    user <- currentUser (_frequency app) firstLoop previousUser fr ;;
    let c := camInfo app in
    let app :=
      set_camInfo app
        (mkCameraInformations user (hasSecondView c) (secondUser c)
           (secondRotationProjected c) (averageRotation c)
           (averageWalkSpeed c) (invalid c)) in
    if firstLoop
    then Some (Continue (emit (set_started app true) (Message Started)) false)
    else Some (Continue app firstLoop).

(** The frame loop over what reaches it; when the inputs are used up the
    loop is still running. *)
Fixpoint frameLoop (app : App) (firstLoop : bool) (inputs : list Input)
    : option Outcome :=
  match inputs with
  | [] => Some (Continue app firstLoop)
  | StopRequested :: rest => frameLoop (requestStop app) firstLoop rest
  | FrameReady fr :: rest =>
      match loopIteration app firstLoop fr with
      | Some (Continue app' firstLoop') => frameLoop app' firstLoop' rest
      | other => other
      end
  end.

Definition outcomeApp (o : Outcome) : App :=
  match o with
  | Continue app _ => app
  | Break app => app
  end.

(** [start]: the application and the status when it returns, or when the
    inputs are used up. *)
Definition start (app : App) (inputs : list Input) : option (App * XnStatus) :=
  if negb (_init app)
  then Some (emit app (Message NotInitialized), 5%Z)
  else
    let app := emit app (Message StartingMainLoop) in
    let app := emit app StartGeneratingAll in
    let status := sensorAnswer StartGeneratingAll in
    if negb (status =? XN_STATUS_OK)%Z
    then Some (emit app (Message StartGeneratingFailed), status)
    else
      o <- frameLoop app true inputs ;;
      Some (outcomeApp o, status).

End Collaborators.

(** *** Observations on the event list *)

Definition isFrameWait (e : Event) : bool :=
  match e with
  | WaitAnyUpdateAll => true
  | _ => false
  end.

(** The number of loop iterations that went as far as waiting for a
    frame. *)
Definition framesEntered (app : App) : nat :=
  length (filter isFrameWait (events app)).

(** An event that stands for tracking: the entry into [startTracking] or
    the request sent to the sensor. *)
Definition isTrackingEvent (e : Event) : bool :=
  match e with
  | CallStartTracking _ | StartTracking _ => true
  | _ => false
  end.

End OpenNIApplication.

(** ** The other callbacks of [openniapplication.cpp] *)

Module OpenNICallbacks.

Import OpenNIUtil OpenNIApplication.

(** The lines that the callbacks write to the log of the process. *)
Inductive LogLine : Type :=
| CannotGetApplication
| NewUser (userID : XnUserID)
| LostUser (userID : XnUserID)
| CalibrationStarted (userID : XnUserID).

Section Callbacks.

Variable sensorAnswer : Event -> XnStatus.

(** [newUserCallback]: the state of the application behind [cookie] on
    return (none behind a null cookie) and the lines logged. *)
Definition newUserCallback (cookie : option App) (userID : XnUserID)
    : option App * list LogLine :=
  match cookie with
  | None => (None, [CannotGetApplication])
  | Some app =>
      (* New user found, start calibration *)
      (Some (fst (startCalibration sensorAnswer app userID)), [NewUser userID])
  end.

Definition lostUserCallback (cookie : option App) (userID : XnUserID)
    : option App * list LogLine :=
  match cookie with
  | None => (None, [CannotGetApplication])
  | Some app => (Some app, [LostUser userID])
  end.

Definition calibrationStartCallback (cookie : option App) (userID : XnUserID)
    : option App * list LogLine :=
  match cookie with
  | None => (None, [CannotGetApplication])
  | Some app => (Some app, [CalibrationStarted userID])
  end.

End Callbacks.

(** The part of the application that the frame loop and the status
    queries read. *)
Definition status (app : App)
    : Z * bool * bool * bool * bool * CameraInformations :=
  (_frequency app, _init app, _started app, _stopped app, _stopRequested app,
   camInfo app).

(** A request for calibration or tracking, or a line of the log: the only
    events a callback produces. *)
Definition isCallbackEvent (e : Event) : bool :=
  match e with
  | CallStartCalibration _ | CallStartTracking _
  | RequestCalibration _ | StartTracking _ | Message _ => true
  | _ => false
  end.

(** A call that reaches the skeleton capability of the sensor. *)
Definition isSensorRequest (e : Event) : bool :=
  match e with
  | RequestCalibration _ | StartTracking _ => true
  | _ => false
  end.

Definition isCleanup (e : Event) : bool :=
  match e with
  | CallCleanup => true
  | _ => false
  end.

(** How many times [cleanup] was entered. *)
Definition cleanups (app : App) : nat := length (filter isCleanup (events app)).

(** What a callback may do to the application behind its cookie: the
    status is kept, the events added are callback events, and none of
    them reaches the sensor while the application is not started. *)
Definition callbackEffect (app : App) (result : option App) : Prop :=
  exists app' added,
    result = Some app'
    /\ status app' = status app
    /\ events app' = events app ++ added
    /\ forallb isCallbackEvent added = true
    /\ (_started app = false -> existsb isSensorRequest added = false).

End OpenNICallbacks.

(** ** The stop request in time *)

Module OpenNITiming.

Import OpenNIUtil OpenNIApplication.

(** One pass of the loop of [start] (lines 302-406) that found the stop
    flag clear: the frame it waits for and works on, and whether another
    thread calls [requestStop] during the pass, that is after the test of
    lines 304-311 and before the next one.  On a started application
    [requestStop] only sets the flag, which the pass does not read again:
    where in the pass the call falls makes no difference, and
    [timedLoop] applies it to the state that the pass leaves.  (On an
    application that is not started yet the call also runs [cleanup] in
    the calling thread, while the first pass is under way; for the first
    pass [timedLoop] stands for a call that falls after line 402.) *)
Record Pass : Type := mkPass {
  passFrame : Frame;
  stopDuringPass : bool
}.

Section Loop.

Variable atanDeg : Q -> Q.
Variable sqrt : Q -> Q.

(** The loop of [start] over the passes that follow.  The stop test is
    made before a frame is waited for and needs none; when the passes are
    used up and no stop is requested the loop is waiting for a frame. *)
Fixpoint timedLoop (app : App) (firstLoop : bool) (passes : list Pass)
    {struct passes} : option Outcome :=
  if _stopRequested app
  then Some (Break (cleanup app))
  else
    match passes with
    | [] => Some (Continue app firstLoop)
    | pass :: rest =>
        match loopIteration atanDeg sqrt app firstLoop (passFrame pass) with
        | Some (Continue app' firstLoop') =>
            timedLoop (if stopDuringPass pass then requestStop app' else app')
                      firstLoop' rest
        | other => other
        end
    end.

End Loop.

End OpenNITiming.

(** ** Initialization and the Kinect motor ([init], [moveToAngle],
    [setLight]) *)

Module OpenNISetup.

Import OpenNIUtil OpenNIApplication.

(** The light types that [openniapplication.cpp] names. *)
Inductive LightType : Type :=
| LED_OFF
| LED_BLINK_GREEN
| LED_BLINK_RED_YELLOW.

Inductive MemoryKey : Type :=
| SHARED_MEM_DEPTH_1
| SHARED_MEM_DEPTH_2
| SHARED_MEM_INFO_1
| SHARED_MEM_INFO_2.

(** A node of the production tree, as far as [init] reads it. *)
Record NodeInfo : Type := mkNodeInfo {
  creationInfo : String.string;
  instanceName : String.string
}.

(** The USB controller of the Kinect; [initialized] is what
    [USBController::initialized()] answers. *)
Record USBController : Type := mkUSBController {
  initialized : bool
}.

Inductive SetupMessage : Type :=
| AlreadyInitialized
| DepthMemoryFailed
| InfoMemoryFailed
| Initializing
| Failed (status : XnStatus)
| CreatingDevice (path : String.string)
| NoSkeletonCapability
| PoseRequired
| DeviceMissing
| NoKinectSupport.

(** The calls that leave the application object, in the order they are
    made, and the lines of the log. *)
Inductive Call : Type :=
| AttachMemory (key : MemoryKey)
| ContextInit
| EnumerateProductionTrees
| CreateProductionTree (node : NodeInfo)
| CreateDepthGenerator (needed : String.string)
| CreateUserGenerator (needed : String.string)
| RegisterUserCallbacks
| RegisterToCalibrationStart
| RegisterToCalibrationComplete
| IsCapabilitySupported
| NeedPoseForCalibration
| SetSkeletonProfile
| NewUSBController (motorPath : String.string)
| KinectMoveToAngle (angle : Z)
| KinectSetLight (type : LightType)
| Log (m : SetupMessage).

(** What the shared memory, the sensor and the USB bus answer to one
    call of [init]. *)
Record Environment : Type := mkEnvironment {
  attach : MemoryKey -> bool;
  contextInit : XnStatus;
  enumerateProductionTrees : XnStatus;
  devicesList : list NodeInfo;
  createProductionTree : NodeInfo -> XnStatus;
  createDepthGenerator : XnStatus;
  createUserGenerator : XnStatus;
  registerUserCallbacks : XnStatus;
  registerToCalibrationStart : XnStatus;
  registerToCalibrationComplete : XnStatus;
  isCapabilitySupported : bool;
  needPoseForCalibration : bool;
  usbInit : String.string -> bool
}.

(** The members of [_sensor] that [init] and the Kinect methods use. *)
Record Sensor : Type := mkSensor {
  cameraPath : String.string;
  motorPath : String.string;
  firstSensor : bool;
  nodeInfo : option NodeInfo;
  kinectUSB : option USBController
}.

(** The application object with the members that [App] leaves out. *)
Record Application : Type := mkApplication {
  app : App;
  _useAKinect : bool;
  _sensor : Sensor;
  calls : list Call
}.

Definition call (a : Application) (c : Call) : Application :=
  mkApplication (app a) (_useAKinect a) (_sensor a) (calls a ++ [c]).

Definition set_nodeInfo (a : Application) (n : NodeInfo) : Application :=
  let s := _sensor a in
  mkApplication (app a) (_useAKinect a)
    (mkSensor (cameraPath s) (motorPath s) (firstSensor s) (Some n) (kinectUSB s))
    (calls a).

Definition set_kinectUSB (a : Application) (u : USBController) : Application :=
  let s := _sensor a in
  mkApplication (app a) (_useAKinect a)
    (mkSensor (cameraPath s) (motorPath s) (firstSensor s) (nodeInfo s) (Some u))
    (calls a).

Definition set_init (a : Application) (b : bool) : Application :=
  let p := app a in
  mkApplication
    (mkApp (_frequency p) b (_started p) (_stopped p) (_stopRequested p)
           (camInfo p) (events p))
    (_useAKinect a) (_sensor a) (calls a).

(** A function body that has returned a value, or goes on with a state. *)
Inductive Flow (A : Type) : Type :=
| Return (a : Application) (status : XnStatus)
| Next (a : Application) (x : A).

Arguments Return {A} a status.
Arguments Next {A} a x.

(** [status = call; CHECK_ERROR(status, what)] followed by [k]. *)
Definition check {A : Type} (a : Application) (c : Call) (status : XnStatus)
    (k : Application -> Flow A) : Flow A :=
  let a := call a c in
  if negb (status =? XN_STATUS_OK)%Z
  then Return (call a (Log (Failed status))) status
  else k a.

(** [moveToAngle] and [setLight] of the application. *)
Definition kinectReady (a : Application) : bool :=
  _useAKinect a
  && match kinectUSB (_sensor a) with
     | Some u => initialized u
     | None => false
     end.

Definition moveToAngle (a : Application) (angle : Z) : Application :=
  if kinectReady a
  then call a (KinectMoveToAngle angle)
  else call a (Log NoKinectSupport).

Definition setLight (a : Application) (type : LightType) : Application :=
  if kinectReady a
  then call a (KinectSetLight type)
  else call a (Log NoKinectSupport).

Section Init.

Variable env : Environment.

(** The body of the loop over the devices for the device that has the
    camera path (lines 208-260); [Next] is the [break]. *)
Definition createDevice (a : Application) (it : NodeInfo) : Flow XnStatus :=
  let a := set_nodeInfo a it in
  let a := call a (Log (CreatingDevice (cameraPath (_sensor a)))) in
  check a (CreateProductionTree it) (createProductionTree env it) (fun a =>
  (* Create the query for the current node *)
  let needed := instanceName it in
  (* Create the depth generator *)
  check a (CreateDepthGenerator needed) (createDepthGenerator env) (fun a =>
  (* Create the user generator *)
  check a (CreateUserGenerator needed) (createUserGenerator env) (fun a =>
  (* Register all users callbacks *)
  check a RegisterUserCallbacks (registerUserCallbacks env) (fun a =>
  check a RegisterToCalibrationStart (registerToCalibrationStart env) (fun a =>
  check a RegisterToCalibrationComplete (registerToCalibrationComplete env) (fun a =>
  let status := registerToCalibrationComplete env in
  (* Check if the user generator support skeleton *)
  let a := call a IsCapabilitySupported in
  if negb (isCapabilitySupported env)
  then Return (call a (Log NoSkeletonCapability)) 20%Z
  else
    (* Check if the user generator need a pose for skeleton detection *)
    let a := call a NeedPoseForCalibration in
    if needPoseForCalibration env
    then Return (call a (Log PoseRequired)) 30%Z
    else
      (* Set the skeleton profile *)
      let a := call a SetSkeletonProfile in
      (* Create the usb controller *)
      let a :=
        if _useAKinect a
        then
          let a := call a (NewUSBController (motorPath (_sensor a))) in
          let usb := mkUSBController (usbInit env (motorPath (_sensor a))) in
          let a := set_kinectUSB a usb in
          (* Move the kinect to the angle 0 at startup *)
          if initialized usb
          then
            let a := call a (KinectMoveToAngle 0) in
            if firstSensor (_sensor a)
            then call a (KinectSetLight LED_BLINK_GREEN)
            else call a (KinectSetLight LED_BLINK_RED_YELLOW)
          else a
        else a in
      Next a status)))))).

(** The loop over the devices (lines 205-261). *)
Fixpoint searchDevice (a : Application) (status : XnStatus)
    (devices : list NodeInfo) : Flow XnStatus :=
  match devices with
  | [] => Next a status
  | it :: rest =>
      (* A sensor was found *)
      if String.eqb (creationInfo it) (cameraPath (_sensor a))
      then createDevice a it
      else searchDevice a status rest
  end.

Definition init (a : Application) : Application * XnStatus :=
  if _init (app a)
  then (call a (Log AlreadyInitialized), 1%Z)
  else
    (* Try to attach to the shared memory *)
    let depthKey :=
      if firstSensor (_sensor a) then SHARED_MEM_DEPTH_1 else SHARED_MEM_DEPTH_2 in
    let a := call a (AttachMemory depthKey) in
    if negb (attach env depthKey)
    then (call a (Log DepthMemoryFailed), 10%Z)
    else
      let infoKey :=
        if firstSensor (_sensor a) then SHARED_MEM_INFO_1 else SHARED_MEM_INFO_2 in
      let a := call a (AttachMemory infoKey) in
      if negb (attach env infoKey)
      then (call a (Log InfoMemoryFailed), 11%Z)
      else
        let a := call a (Log Initializing) in
        let flow :=
          (* Init the context *)
          check a ContextInit (contextInit env) (fun a =>
          (* List all sensors *)
          check a EnumerateProductionTrees (enumerateProductionTrees env) (fun a =>
          (* Check if the specified device in constructor exists *)
          searchDevice a (enumerateProductionTrees env) (devicesList env))) in
        match flow with
        | Return a status => (a, status)
        | Next a status =>
            match nodeInfo (_sensor a) with
            | None => (call a (Log DeviceMissing), 4%Z)
            | Some _ => (set_init a true, status)
            end
        end.

End Init.

(** The methods that a client calls on the object before [start]. *)
Inductive Operation : Type :=
| Init (env : Environment)
| MoveToAngle (angle : Z)
| SetLight (type : LightType).

Definition operate (a : Application) (op : Operation) : Application :=
  match op with
  | Init env => fst (init env a)
  | MoveToAngle angle => moveToAngle a angle
  | SetLight type => setLight a type
  end.

Definition operations (a : Application) (ops : list Operation) : Application :=
  fold_left operate ops a.

Definition isKinectCall (c : Call) : bool :=
  match c with
  | KinectMoveToAngle _ | KinectSetLight _ => true
  | _ => false
  end.

Definition isRegistration (c : Call) : bool :=
  match c with
  | RegisterUserCallbacks | RegisterToCalibrationStart
  | RegisterToCalibrationComplete => true
  | _ => false
  end.

(** The calls of [createDevice] when it gets to the [break]. *)
Definition deviceCalls (env : Environment) (a : Application) (it : NodeInfo)
    : list Call :=
  [Log (CreatingDevice (cameraPath (_sensor a)));
   CreateProductionTree it;
   CreateDepthGenerator (instanceName it);
   CreateUserGenerator (instanceName it);
   RegisterUserCallbacks; RegisterToCalibrationStart; RegisterToCalibrationComplete;
   IsCapabilitySupported; NeedPoseForCalibration; SetSkeletonProfile]
  ++ (if _useAKinect a
      then NewUSBController (motorPath (_sensor a))
           :: (if usbInit env (motorPath (_sensor a))
               then [KinectMoveToAngle 0;
                     KinectSetLight (if firstSensor (_sensor a)
                                     then LED_BLINK_GREEN else LED_BLINK_RED_YELLOW)]
               else [])
      else []).

End OpenNISetup.

(** ** Binary arithmetic, where rounding shows

    [isJointAcceptable] compares a binary32 confidence, widened to
    binary64, with the binary64 literal [0.6].  The two roundings of 0.6
    are written out here to check that the exact threshold of the model
    and the binary one accept the same binary32 values.  The smoothing
    step of the rotation is written out in binary32 as well, to measure
    its margin against the exact quotient 55/f. *)
Module Binary.

Definition of_Z (prec emax z : Z) : spec_float :=
  binary_normalize prec emax z 0 false.

(** The binary32 value nearest to 0.6. *)
Definition float_0_6 : spec_float :=
  SFdiv 24 128 (of_Z 24 128 6) (of_Z 24 128 10).

(** The binary64 literal [0.6]. *)
Definition double_0_6 : spec_float :=
  SFdiv 53 1024 (of_Z 53 1024 6) (of_Z 53 1024 10).

(** The conversion of a binary32 value to binary64 (it is exact). *)
Definition widen (x : spec_float) : spec_float :=
  match x with
  | S754_finite s m e => binary_normalize 53 1024 (cond_Zopp s (Zpos m)) e s
  | other => other
  end.

(** [joint.info.fConfidence >= 0.6] *)
Definition confidenceTest (fConfidence : spec_float) : bool :=
  SFleb double_0_6 (widen fConfidence).

(** An integer as a binary32 value. *)
Definition b32 (z : Z) : spec_float := of_Z 24 128 z.

(** The rational that a finite binary value stands for. *)
Definition value (x : spec_float) : Q :=
  match x with
  | S754_finite s m e => inject_Z (cond_Zopp s (Zpos m)) * 2 ^ e
  | _ => 0
  end.

(** The smoothing step of [rotationFrom2Joints] (lines 229-258) with every
    operation rounded to binary32, as the program runs it. *)
Definition smoothRotation (frequency : Z) (rotation previousRotation : spec_float)
    : spec_float :=
  let '(rotation, previousRotation) :=
    if SFltb (b32 180) (SFabs (SFsub 24 128 rotation previousRotation))
    then
      if SFltb rotation previousRotation
      then (SFadd 24 128 rotation (b32 360), previousRotation)
      else (rotation, SFadd 24 128 previousRotation (b32 360))
    else (rotation, previousRotation) in
  let margin := SFdiv 24 128 (b32 55) (b32 frequency) in
  let diffRotation := SFsub 24 128 rotation previousRotation in
  let rotation :=
    if SFltb margin (SFabs diffRotation)
    then
      if SFltb (b32 0) diffRotation
      then SFadd 24 128 previousRotation margin
      else SFsub 24 128 previousRotation margin
    else rotation in
  if SFleb (b32 360) rotation then SFsub 24 128 rotation (b32 360) else rotation.

(** The margin of [walkSpeedForUser] (line 358): the binary32 quotient,
    converted to [int]. *)
Definition walkMargin (frequency : Z) : Z :=
  truncate (value (SFdiv 24 128 (b32 100) (b32 frequency))).

End Binary.

(** ** Binary32 arithmetic on rationals *)

Module Float32.

Import OpenNIUtil.

(** The integer nearest to [q], the even one of two that are as near. *)
Definition rne (q : Q) : Z :=
  let f := Qfloor q in
  match Qcompare (q - inject_Z f) (1 # 2) with
  | Lt => f
  | Gt => (f + 1)%Z
  | Eq => if Z.even f then f else (f + 1)%Z
  end.

(** The exponent of the last place of the binary32 values around [a], for
    [a >= 0]: the least [k] from [start] on with [a < 2^(k+24)], found in
    [fuel] steps. *)
Fixpoint binade (a : Q) (start : Z) (fuel : nat) : Z :=
  match fuel with
  | O => start
  | S fuel' =>
      if Qlt_bool a (2 ^ (start + 24)) then start
      else binade a (start + 1) fuel'
  end.

(** The exponents of binary32 go from -149 (the least subnormal value) to
    104 (the last place of the values below 2^128). *)
Definition lastPlace (a : Q) : Z := binade a (- 149) 254.

Definition roundAbs (a : Q) : Q :=
  inject_Z (rne (a / 2 ^ lastPlace a)) * 2 ^ lastPlace a.

(** Rounding to the nearest binary32 value, ties to even, before the test
    for overflow. *)
Definition round (q : Q) : Q :=
  if Qlt_bool q 0 then - roundAbs (- q) else roundAbs q.

(** The binary32 result of an operation whose exact result is [q]. *)
Definition fround (q : Q) : float :=
  let r := round q in
  if Qle_bool (2 ^ 128) (Qabs r)
  then (if Qlt_bool q 0 then NInf else PInf)
  else Fin r.

Definition narrow (a : float) : float :=
  match a with
  | Fin q => fround q
  | other => other
  end.

Definition add (a b : float) : float := narrow (fadd a b).
Definition sub (a b : float) : float := narrow (fsub a b).
Definition div (a b : float) : float := narrow (fdiv a b).

(** [(float)frequency] *)
Definition ofInt (z : Z) : float := fround (inject_Z z).

(** A rational that is a binary32 value. *)
Definition representable (q : Q) : Prop := round q == q.

(** A coordinate that the sensor delivers: a binary32 value, small enough
    for the difference of two of them not to overflow. *)
Definition coordinate (q : Q) : Prop := representable q /\ Qabs q <= 2 ^ 126.

Definition positioned (joint : Joint) : Prop :=
  coordinate (jX joint) /\ coordinate (jZ joint).

Definition fmul (a b : float) : float :=
  match a, b with
  | NaN, _ | _, NaN => NaN
  | Fin x, Fin y => Fin (x * y)
  | Fin x, PInf | PInf, Fin x =>
      if Qeq_bool x 0 then NaN else if Qlt_bool x 0 then NInf else PInf
  | Fin x, NInf | NInf, Fin x =>
      if Qeq_bool x 0 then NaN else if Qlt_bool x 0 then PInf else NInf
  | PInf, PInf | NInf, NInf => PInf
  | PInf, NInf | NInf, PInf => NInf
  end.

Definition mul (a b : float) : float := narrow (fmul a b).

(** [reduceAngle] (lines 136-143) on binary32 values. *)
Definition reduceAngle (angle : float) : float :=
  if fleb (Fin 360) angle then sub angle (Fin 360)
  else if fltb angle (Fin 0) then add (Fin 360) angle
  else angle.

Section Libm.

(** [atanDeg x] is the binary32 value that [angle] receives for a finite
    quotient [x]: [std::atan(x) * RAD2DEG], narrowed. *)
Variable atanDeg : Q -> Q.

(** [angle] (lines 180-181): the differences and the quotient are
    binary32 operations. *)
Definition jointsAngle (rightJoint leftJoint : Joint) : float :=
  fatanDeg atanDeg
    (div (fabs (sub (Fin (jZ rightJoint)) (Fin (jZ leftJoint))))
         (fabs (sub (Fin (jX rightJoint)) (Fin (jX leftJoint))))).

(** The case analysis that resolves the quadrant (lines 183-221). *)
Definition quadrantRotation (rightJoint leftJoint : Joint) : float :=
  let angle := jointsAngle rightJoint leftJoint in
  (* 0 *)
  if Qeq_bool (jZ rightJoint) (jZ leftJoint)
     && Qlt_bool (jX leftJoint) (jX rightJoint)
  then Fin 0
  (* 90 *)
  else if Qeq_bool (jX rightJoint) (jX leftJoint)
          && Qlt_bool (jZ leftJoint) (jZ rightJoint)
  then Fin 90
  (* 180 *)
  else if Qeq_bool (jZ rightJoint) (jZ leftJoint)
          && Qlt_bool (jX rightJoint) (jX leftJoint)
  then Fin 180
  (* 270 *)
  else if Qeq_bool (jX rightJoint) (jX leftJoint)
          && Qlt_bool (jZ rightJoint) (jZ leftJoint)
  then Fin 90
  (* 0 - 180 *)
  else if Qlt_bool (jZ rightJoint) (jZ leftJoint)
  then
    (* 0 - 90 *)
    if Qlt_bool (jX leftJoint) (jX rightJoint)
    then angle
    (* 90 - 180 *)
    else sub (Fin 180) angle
  (* 180 - 360 *)
  else
    (* 180 - 270 *)
    if Qlt_bool (jX rightJoint) (jX leftJoint)
    then add (Fin 180) angle
    (* 270 - 360 *)
    else sub (Fin 360) angle.

(** Smoothing against the previous rotation (lines 229-258), every
    operation rounded to binary32. *)
Definition smoothRotation (frequency : Z) (rotation previousRotation : float) : float :=
  let '(rotation, previousRotation) :=
    if fltb (Fin 180) (fabs (sub rotation previousRotation))
    then
      if fltb rotation previousRotation
      then (add rotation (Fin 360), previousRotation)
      else (rotation, add previousRotation (Fin 360))
    else (rotation, previousRotation) in
  let margin := div (Fin 55) (ofInt frequency) in
  let diffRotation := sub rotation previousRotation in
  let rotation :=
    if fltb margin (fabs diffRotation)
    then
      (* If new rotation is higher *)
      if fltb (Fin 0) diffRotation
      then add previousRotation margin
      (* If new rotation is lower *)
      else sub previousRotation margin
    else rotation in
  if fleb (Fin 360) rotation then sub rotation (Fin 360) else rotation.

(** [rotationFrom2Joints] as the program runs it, in binary32: the value
    returned, and the value stored through [resultConfidence] when that
    pointer is not null. *)
Definition rotationFrom2Joints (frequency : Z) (rightJoint leftJoint : Joint)
    (previousRotation : float) : float * float :=
  if isJointAcceptable rightJoint && isJointAcceptable leftJoint
  then
    let rotation := quadrantRotation rightJoint leftJoint in
    let rotation :=
      if negb (feqb previousRotation (Fin (- 1)))
      then smoothRotation frequency rotation previousRotation
      else rotation in
    (rotation,
     mul (add (Fin (fConfidence (info leftJoint))) (Fin 1))
         (add (Fin (fConfidence (info rightJoint))) (Fin 1)))
  else (Fin (- 1), Fin (- 1)).

End Libm.

End Float32.

(** ** Sample data *)

Module Sample.

Import OpenNIUtil.

(** A rational stand-in for [std::atan(x) * RAD2DEG] on [x >= 0]: exact
    at 0 and at 1, increasing, below 90. *)
Definition atanDeg (q : Q) : Q := 90 * q / (1 + q).

(** A stand-in for [std::sqrt]: the integer square root. *)
Definition sqrt (q : Q) : Q := inject_Z (Z.sqrt (truncate q)).

Definition sensorAnswer (e : OpenNIApplication.Event) : XnStatus := XN_STATUS_OK.

(** An active joint at [(x, 0, z)] with the given confidence. *)
Definition jointAt (t : XnSkeletonJoint) (x z : Q) (c : XnConfidence) : Joint :=
  mkJoint t true (mkJointPosition (mkVector x 0 z) c) (mkVector 0 0 0).

Definition inactiveJoint (t : XnSkeletonJoint) : Joint :=
  mkJoint t false (mkJointPosition (mkVector 0 0 0) 0) (mkVector 0 0 0).

Definition bodyPartWith (footJoint : Joint) (side : bool) : BodyPart :=
  if side
  then mkBodyPart (inactiveJoint XN_SKEL_LEFT_HIP) (inactiveJoint XN_SKEL_LEFT_KNEE)
                  footJoint (inactiveJoint XN_SKEL_LEFT_SHOULDER)
  else mkBodyPart (inactiveJoint XN_SKEL_RIGHT_HIP) (inactiveJoint XN_SKEL_RIGHT_KNEE)
                  footJoint (inactiveJoint XN_SKEL_RIGHT_SHOULDER).

(** A user whose feet are given, at the time [t]; nothing else is active. *)
Definition userWithFeet (t : Z) (leftFoot rightFoot previousLeftFoot previousRightFoot : Joint)
    : User :=
  mkUser 1%Z true t (inactiveJoint XN_SKEL_TORSO)
         (bodyPartWith leftFoot true) (bodyPartWith rightFoot false)
         (bodyPartWith previousLeftFoot true) (bodyPartWith previousRightFoot false)
         (-1)%Z (-1) (-1)%Z (-1) 0%Z.

(** The left foot stays at the origin, the right foot moves 300 mm along X
    in 100 ms. *)
Definition walker : User :=
  userWithFeet 1100%Z
    (jointAt XN_SKEL_LEFT_FOOT 0 0 1) (jointAt XN_SKEL_RIGHT_FOOT 500 0 1)
    (jointAt XN_SKEL_LEFT_FOOT 0 0 1) (jointAt XN_SKEL_RIGHT_FOOT 200 0 1).

(** The same steps, seen with a right foot whose confidence is too low. *)
Definition uncertainWalker : User :=
  userWithFeet 1100%Z
    (jointAt XN_SKEL_LEFT_FOOT 0 0 1) (jointAt XN_SKEL_RIGHT_FOOT 500 0 0.5)
    (jointAt XN_SKEL_LEFT_FOOT 0 0 1) (jointAt XN_SKEL_RIGHT_FOOT 200 0 1).

(** A frame in which user 1 is tracked and only the feet are active: the
    left foot at the origin, the right foot at (500, 0). *)
Definition frame : OpenNIApplication.Frame :=
  OpenNIApplication.mkFrame
    [1; 2; 3; 4; 5]%Z
    (fun uid => (uid =? 1)%Z)
    (fun j => match j with
              | XN_SKEL_LEFT_FOOT | XN_SKEL_RIGHT_FOOT => true
              | _ => false
              end)
    (fun _ j => match j with
                | XN_SKEL_RIGHT_FOOT => mkJointPosition (mkVector 500 0 0) 1
                | _ => mkJointPosition (mkVector 0 0 0) 1
                end)
    (fun v => v)
    1100%Z
    uncertainWalker
    inactiveJoint.

(** The user of the previous frame: feet at the origin and at (200, 0),
    a walk speed of [speed] and [frames] frames without move, 100 ms
    before [frame]. *)
Definition previousUser (speed frames : Z) : User :=
  mkUser 1%Z true 1000%Z (inactiveJoint XN_SKEL_TORSO)
         (bodyPartWith (jointAt XN_SKEL_LEFT_FOOT 0 0 1) true)
         (bodyPartWith (jointAt XN_SKEL_RIGHT_FOOT 200 0 1) false)
         (bodyPartWith (inactiveJoint XN_SKEL_LEFT_FOOT) true)
         (bodyPartWith (inactiveJoint XN_SKEL_RIGHT_FOOT) false)
         (-1)%Z (-1) speed 16 frames.

(** An initialized application at 10 frames per second whose last frame
    held [u]. *)
Definition appWith (started : bool) (u : User) : OpenNIApplication.App :=
  OpenNIApplication.mkApp 10%Z true started false false
    (mkCameraInformations u false (newUser u) (-1)%Z (-1)%Z (-1)%Z false)
    [].


(** A frame in which no user is tracked. *)
Definition emptyFrame : OpenNIApplication.Frame :=
  OpenNIApplication.mkFrame
    [7; 0; 0; 3; 0]%Z
    (fun _ => false)
    (fun _ => true)
    (fun _ _ => mkJointPosition (mkVector 1 2 3) 1)
    (fun v => v)
    1200%Z
    walker
    (fun t => jointAt t 9 9 1).

(** The frame that follows [frame] 100 ms later: the right foot has
    moved on to (800, 0). *)
Definition laterFrame : OpenNIApplication.Frame :=
  OpenNIApplication.mkFrame
    [1; 2; 3; 4; 5]%Z
    (fun uid => (uid =? 1)%Z)
    (fun j => match j with
              | XN_SKEL_LEFT_FOOT | XN_SKEL_RIGHT_FOOT => true
              | _ => false
              end)
    (fun _ j => match j with
                | XN_SKEL_RIGHT_FOOT => mkJointPosition (mkVector 800 0 0) 1
                | _ => mkJointPosition (mkVector 0 0 0) 1
                end)
    (fun v => v)
    1200%Z
    uncertainWalker
    inactiveJoint.

(** What reaches the frame loop in a short run: two frames, a request
    to stop, and the frame that would have come next. *)
Definition shortRun : list OpenNIApplication.Input :=
  [OpenNIApplication.FrameReady frame; OpenNIApplication.FrameReady laterFrame;
   OpenNIApplication.StopRequested; OpenNIApplication.FrameReady laterFrame].

(** Three passes of the loop: [requestStop] is called during the second
    one. *)
Definition passes : list OpenNITiming.Pass :=
  [OpenNITiming.mkPass frame false; OpenNITiming.mkPass laterFrame true;
   OpenNITiming.mkPass laterFrame false].

(** An arc cosine in degrees and an arc sine in radians that keep the
    domain and the range of the real ones. *)
Definition acosDeg (q : Q) : float :=
  if Qle_bool (Qabs q) 1 then Fin (90 - 90 * q) else NaN.

Definition asin (q : Q) : float :=
  if Qle_bool (Qabs q) 1 then Fin (q * (3 # 2)) else NaN.

Definition RAD2DEG : Q := 5729578 # 100000.

(** The identity matrix, and a matrix whose Zz component is 0.01. *)
Definition identityMatrix (i : nat) : Q :=
  match i with
  | 0%nat | 4%nat | 8%nat => 1
  | _ => 0
  end.

Definition smallZz (i : nat) : Q :=
  match i with
  | 0%nat => 1 # 2
  | 6%nat => - (1 # 2)
  | 8%nat => 1 # 100
  | _ => 0
  end.

End Sample.

(** Sample devices and environments for [init]. *)
Module SampleSetup.

Import String OpenNIUtil OpenNIApplication OpenNISetup.

Definition kinect : NodeInfo := mkNodeInfo "usb/1-2" "Device1".
Definition webcam : NodeInfo := mkNodeInfo "usb/3-1" "Device2".

(** Everything answers well; the Kinect is the second device. *)
Definition goodEnv : Environment :=
  mkEnvironment (fun _ => true) XN_STATUS_OK XN_STATUS_OK [webcam; kinect]
    (fun _ => XN_STATUS_OK) XN_STATUS_OK XN_STATUS_OK XN_STATUS_OK XN_STATUS_OK
    XN_STATUS_OK true false (fun _ => true).

(** The user generator cannot be created. *)
Definition noUserGeneratorEnv : Environment :=
  mkEnvironment (fun _ => true) XN_STATUS_OK XN_STATUS_OK [webcam; kinect]
    (fun _ => XN_STATUS_OK) XN_STATUS_OK 65565%Z XN_STATUS_OK XN_STATUS_OK
    XN_STATUS_OK true false (fun _ => true).

(** The Kinect is not plugged in. *)
Definition unpluggedEnv : Environment :=
  mkEnvironment (fun _ => true) XN_STATUS_OK XN_STATUS_OK [webcam]
    (fun _ => XN_STATUS_OK) XN_STATUS_OK XN_STATUS_OK XN_STATUS_OK XN_STATUS_OK
    XN_STATUS_OK true false (fun _ => true).

(** An application object as the constructor leaves it, for the first
    sensor at 30 frames per second. *)
Definition fresh (useAKinect : bool) : Application :=
  mkApplication
    (mkApp 30%Z false false false false
       (mkCameraInformations Sample.walker false Sample.walker
          (-1)%Z (-1)%Z (-1)%Z false)
       [])
    useAKinect
    (mkSensor "usb/1-2" "usb/1-3" true None None)
    [].

End SampleSetup.

(** * Properties *)

(** ** Comparisons and conversions *)

Lemma Qlt_bool_true (a b : Q) : Qlt_bool a b = true <-> a < b.
Proof.
  unfold Qlt_bool. rewrite negb_true_iff.
  split; intro H.
  - apply Qnot_le_lt. intro Hle. apply Qle_bool_iff in Hle. congruence.
  - destruct (Qle_bool b a) eqn:E; [|reflexivity].
    apply Qle_bool_iff in E. exfalso. exact (Qlt_not_le _ _ H E).
Qed.

Lemma Qlt_bool_false (a b : Q) : Qlt_bool a b = false <-> b <= a.
Proof.
  unfold Qlt_bool. rewrite negb_false_iff. apply Qle_bool_iff.
Qed.

Lemma Qle_bool_false (a b : Q) : Qle_bool a b = false <-> b < a.
Proof.
  rewrite <- Qlt_bool_true. unfold Qlt_bool.
  destruct (Qle_bool a b); simpl; intuition congruence.
Qed.

Lemma Qeq_bool_false (a b : Q) : Qeq_bool a b = false <-> ~ a == b.
Proof.
  split.
  - apply Qeq_bool_neq.
  - intro H. destruct (Qeq_bool a b) eqn:E; [|reflexivity].
    apply Qeq_bool_iff in E. contradiction.
Qed.

(** Turns the boolean tests on rationals found in the context into
    propositions that [lra] reads. *)
Ltac qprop :=
  repeat match goal with
  | H : Qlt_bool _ _ = true |- _ => apply Qlt_bool_true in H
  | H : Qlt_bool _ _ = false |- _ => apply Qlt_bool_false in H
  | H : Qle_bool _ _ = true |- _ => apply Qle_bool_iff in H
  | H : Qle_bool _ _ = false |- _ => apply Qle_bool_false in H
  | H : Qeq_bool _ _ = true |- _ => apply Qeq_bool_iff in H
  | H : Qeq_bool _ _ = false |- _ => apply Qeq_bool_false in H
  end.

Lemma Qabs_cases (x : Q) : (0 <= x /\ Qabs x == x) \/ (x <= 0 /\ Qabs x == - x).
Proof.
  destruct (Qlt_le_dec x 0) as [H | H].
  - right. split; [lra | apply Qabs_neg; lra].
  - left. split; [exact H | apply Qabs_pos; exact H].
Qed.

Lemma inject_Z_pos (z : Z) : (0 < z)%Z -> 0 < inject_Z z.
Proof.
  intro H. change 0 with (inject_Z 0). rewrite <- Zlt_Qlt. exact H.
Qed.

Lemma truncate_inject_Z (z : Z) : truncate (inject_Z z) = z.
Proof. unfold truncate. simpl. apply Z.quot_1_r. Qed.

Lemma truncate_nonneg (q : Q) : 0 <= q -> (0 <= truncate q)%Z.
Proof.
  intro H. unfold truncate. apply Z.quot_pos; [|lia].
  unfold Qle in H. simpl in H. lia.
Qed.

Lemma truncate_le (q : Q) : 0 <= q -> inject_Z (truncate q) <= q.
Proof.
  intro H. unfold truncate.
  rewrite Z.quot_div_nonneg; [|unfold Qle in H; simpl in H; lia | lia].
  destruct q as [n d]. exact (Qfloor_le (n # d)).
Qed.

Lemma int_result_some (z v : Z) : int_result z = Some v -> v = z /\ in_int z = true.
Proof.
  unfold int_result. destruct (in_int z); intro H; inversion H; auto.
Qed.

Lemma in_int_bounds (z : Z) : in_int z = true <-> (INT_MIN <= z <= INT_MAX)%Z.
Proof.
  unfold in_int. rewrite andb_true_iff, !Z.leb_le. tauto.
Qed.

Lemma int_result_in (z : Z) : (INT_MIN <= z <= INT_MAX)%Z -> int_result z = Some z.
Proof.
  intro H. unfold int_result. apply in_int_bounds in H. rewrite H. reflexivity.
Qed.

(** The two roundings of 0.6 are ordered as the exact test needs: the
    binary32 value nearest to 0.6 passes the binary test and the next
    binary32 value below does not. *)
Lemma binary_threshold :
  Binary.confidenceTest Binary.float_0_6 = true
  /\ Binary.confidenceTest (SFpred 24 128 Binary.float_0_6) = false.
Proof. split; vm_compute; reflexivity. Qed.

Import OpenNIUtil.

(** For the frequencies 1 to 1000 the margin of the walk speed computed
    in binary32 is the one of the exact model. *)
Lemma binary_walk_margin :
  forallb (fun frequency =>
             (Binary.walkMargin frequency =? truncate (100 / inject_Z frequency))%Z)
          (map Z.of_nat (seq 1 1000)) = true.
Proof. vm_compute. reflexivity. Qed.

(** ** The acceptability predicate *)

(** C6.  A joint is acceptable exactly when it is active and its
    confidence is at least 0.6; hence it is accepted at a confidence of
    exactly 0.6 when active, refused at every confidence below 0.6, and
    refused whenever it is not active, whatever its confidence. *)
Theorem isJointAcceptable_spec (joint : Joint) :
  (isJointAcceptable joint = true
   <-> isActive joint = true /\ 0.6 <= fConfidence (info joint))
  /\ (isActive joint = true -> fConfidence (info joint) == 0.6
      -> isJointAcceptable joint = true)
  /\ (fConfidence (info joint) < 0.6 -> isJointAcceptable joint = false)
  /\ (isActive joint = false -> isJointAcceptable joint = false).
Proof.
  assert (Hiff : isJointAcceptable joint = true
                 <-> isActive joint = true /\ 0.6 <= fConfidence (info joint)).
  { unfold isJointAcceptable. rewrite andb_true_iff, Qle_bool_iff. tauto. }
  split; [exact Hiff|].
  split; [|split].
  - intros Ha Hc. apply Hiff. split; [exact Ha|]. rewrite Hc. apply Qle_refl.
  - intro Hc. apply not_true_is_false. intro E.
    apply Hiff in E. destruct E as [_ E]. exact (Qlt_not_le _ _ Hc E).
  - intro Ha. unfold isJointAcceptable. rewrite Ha. reflexivity.
Qed.

(** ** The orientation estimate of a pair of joints *)

Section Orientation.

Variable atanDeg : Q -> Q.

Lemma rotationFrom2Joints_acceptable frequency rightJoint leftJoint previousRotation :
  isJointAcceptable rightJoint = true ->
  isJointAcceptable leftJoint = true ->
  fst (rotationFrom2Joints atanDeg frequency rightJoint leftJoint previousRotation)
  = if negb (feqb previousRotation (Fin (- 1)))
    then smoothRotation frequency (quadrantRotation atanDeg rightJoint leftJoint)
                        previousRotation
    else quadrantRotation atanDeg rightJoint leftJoint.
Proof.
  intros Hr Hl. unfold rotationFrom2Joints. rewrite Hr, Hl. simpl.
  destruct (negb (feqb previousRotation (Fin (- 1)))); reflexivity.
Qed.

Lemma rotationFrom2Joints_unacceptable frequency rightJoint leftJoint previousRotation :
  isJointAcceptable rightJoint && isJointAcceptable leftJoint = false ->
  rotationFrom2Joints atanDeg frequency rightJoint leftJoint previousRotation
  = (Fin (- 1), - 1).
Proof.
  intro H. unfold rotationFrom2Joints. rewrite H. reflexivity.
Qed.

(** C5.  Without a previous rotation (previous rotation -1), two
    acceptable joints with equal Z and right.X > left.X give 0 degrees,
    with equal X and right.Z > left.Z give 90 degrees, and with equal Z
    and right.X < left.X give 180 degrees. *)
Theorem rotationFrom2Joints_axis_aligned frequency rightJoint leftJoint :
  isJointAcceptable rightJoint = true ->
  isJointAcceptable leftJoint = true ->
  let rotation :=
    fst (rotationFrom2Joints atanDeg frequency rightJoint leftJoint (Fin (- 1))) in
  (jZ rightJoint == jZ leftJoint -> jX leftJoint < jX rightJoint
   -> rotation = Fin 0)
  /\ (jX rightJoint == jX leftJoint -> jZ leftJoint < jZ rightJoint
      -> rotation = Fin 90)
  /\ (jZ rightJoint == jZ leftJoint -> jX rightJoint < jX leftJoint
      -> rotation = Fin 180).
Proof.
  intros Hr Hl rotation. subst rotation.
  rewrite (rotationFrom2Joints_acceptable _ _ _ _ Hr Hl).
  change (negb (feqb (Fin (- 1)) (Fin (- 1)))) with false. cbv iota.
  unfold quadrantRotation.
  split; [|split]; intros Heq Hlt.
  - apply Qeq_bool_iff in Heq. apply Qlt_bool_true in Hlt.
    rewrite Heq, Hlt. reflexivity.
  - assert (E1 : Qeq_bool (jZ rightJoint) (jZ leftJoint) = false)
      by (apply Qeq_bool_false; lra).
    apply Qeq_bool_iff in Heq. apply Qlt_bool_true in Hlt.
    rewrite E1, Heq, Hlt. reflexivity.
  - assert (E1 : Qlt_bool (jX leftJoint) (jX rightJoint) = false)
      by (apply Qlt_bool_false; lra).
    assert (E2 : Qeq_bool (jX rightJoint) (jX leftJoint) = false)
      by (apply Qeq_bool_false; lra).
    apply Qeq_bool_iff in Heq. apply Qlt_bool_true in Hlt.
    rewrite E1, E2, Heq, Hlt. reflexivity.
Qed.

End Orientation.

(** ** Smoothing of the orientation *)

Lemma fdiv_fin (a b : Q) : ~ b == 0 -> fdiv (Fin a) (Fin b) = Fin (a / b).
Proof.
  intro H. unfold fdiv. apply Qeq_bool_false in H. rewrite H. reflexivity.
Qed.



Section SmoothedOrientation.

Variable atanDeg : Q -> Q.

(** The arctangent of a non-negative finite quotient, in degrees, is an
    angle between 0 and 90. *)
Hypothesis atanDeg_range : forall q, 0 <= q -> 0 <= atanDeg q <= 90.



End SmoothedOrientation.

Lemma sample_atanDeg_range (q : Q) : 0 <= q -> 0 <= Sample.atanDeg q <= 90.
Proof.
  intro H. unfold Sample.atanDeg. split.
  - apply Qle_shift_div_l; lra.
  - apply Qle_shift_div_r; lra.
Qed.

(** C1 as stated fails, in four ways.  [previousRotation] is a [float]
    that the function never brings into range: at one frame per second,
    with the right joint at (1,0) and the left joint at the origin (raw
    rotation 0), a previous rotation of -90 gives -35, which is not in
    [0,360).  Two acceptable joints at the same X and Z give NaN after a
    previous rotation of 10.  And the margin is a rounded quotient: at 30
    frames per second, with the right joint at (5,7) and the left joint
    at (5,3) (raw rotation 90) and a previous rotation of 0, the binary32
    smoothing step returns 15379115 * 2^-23, which is above 55/30.  And
    the differences of the coordinates can overflow: with the right
    joint at (2^127, 2^127) and the left joint at (-2^127, -2^127) both
    differences are infinite, their quotient is NaN and so is the
    rotation. *)
Lemma rotationFrom2Joints_not_in_range :
  isJointAcceptable (Sample.jointAt XN_SKEL_RIGHT_HIP 1 0 1) = true
  /\ isJointAcceptable (Sample.jointAt XN_SKEL_LEFT_HIP 0 0 1) = true
  /\ feqb (Fin (- 90)) (Fin (- 1)) = false
  /\ fst (rotationFrom2Joints Sample.atanDeg 1
            (Sample.jointAt XN_SKEL_RIGHT_HIP 1 0 1)
            (Sample.jointAt XN_SKEL_LEFT_HIP 0 0 1) (Fin (- 90))) = Fin (- 35)
  /\ ~ 0 <= - 35
  /\ isJointAcceptable (Sample.jointAt XN_SKEL_TORSO 0 0 1) = true
  /\ feqb (Fin 10) (Fin (- 1)) = false
  /\ fst (rotationFrom2Joints Sample.atanDeg 1
            (Sample.jointAt XN_SKEL_TORSO 0 0 1)
            (Sample.jointAt XN_SKEL_LEFT_HIP 0 0 1) (Fin 10)) = NaN
  /\ quadrantRotation Sample.atanDeg
       (Sample.jointAt XN_SKEL_RIGHT_HIP 5 7 1)
       (Sample.jointAt XN_SKEL_LEFT_HIP 5 3 1) = Fin 90
  /\ Binary.smoothRotation 30 (Binary.b32 90) (Binary.b32 0)
     = S754_finite false 15379115 (-23)
  /\ 55 / inject_Z 30
     < Binary.value (S754_finite false 15379115 (-23)) - Binary.value (Binary.b32 0)
  /\ isJointAcceptable (Sample.jointAt XN_SKEL_RIGHT_HIP (2 ^ 127) (2 ^ 127) 1) = true
  /\ isJointAcceptable (Sample.jointAt XN_SKEL_LEFT_HIP (- 2 ^ 127) (- 2 ^ 127) 1) = true
  /\ fst (Float32.rotationFrom2Joints Sample.atanDeg 1
            (Sample.jointAt XN_SKEL_RIGHT_HIP (2 ^ 127) (2 ^ 127) 1)
            (Sample.jointAt XN_SKEL_LEFT_HIP (- 2 ^ 127) (- 2 ^ 127) 1) (Fin 10)) = NaN.
Proof.
  repeat split; try (vm_compute; reflexivity).
  intro H. vm_compute in H. apply H. reflexivity.
Qed.

(** Sample runs of C5: the three axis-aligned pairs. *)
Lemma rotationFrom2Joints_axis_aligned_witness :
  fst (rotationFrom2Joints Sample.atanDeg 30
         (Sample.jointAt XN_SKEL_RIGHT_HIP 2 5 1)
         (Sample.jointAt XN_SKEL_LEFT_HIP 1 5 1) (Fin (- 1))) = Fin 0
  /\ fst (rotationFrom2Joints Sample.atanDeg 30
            (Sample.jointAt XN_SKEL_RIGHT_HIP 1 7 1)
            (Sample.jointAt XN_SKEL_LEFT_HIP 1 5 1) (Fin (- 1))) = Fin 90
  /\ fst (rotationFrom2Joints Sample.atanDeg 30
            (Sample.jointAt XN_SKEL_RIGHT_HIP 0 5 1)
            (Sample.jointAt XN_SKEL_LEFT_HIP 1 5 1) (Fin (- 1))) = Fin 180.
Proof.
  split; [|split].
  - refine (proj1 (rotationFrom2Joints_axis_aligned Sample.atanDeg 30
                     (Sample.jointAt XN_SKEL_RIGHT_HIP 2 5 1)
                     (Sample.jointAt XN_SKEL_LEFT_HIP 1 5 1) _ _) _ _);
      reflexivity.
  - refine (proj1 (proj2 (rotationFrom2Joints_axis_aligned Sample.atanDeg 30
                            (Sample.jointAt XN_SKEL_RIGHT_HIP 1 7 1)
                            (Sample.jointAt XN_SKEL_LEFT_HIP 1 5 1) _ _)) _ _);
      reflexivity.
  - refine (proj2 (proj2 (rotationFrom2Joints_axis_aligned Sample.atanDeg 30
                            (Sample.jointAt XN_SKEL_RIGHT_HIP 0 5 1)
                            (Sample.jointAt XN_SKEL_LEFT_HIP 1 5 1) _ _)) _ _);
      reflexivity.
Defined.

(** ** The quotient of the angle *)

Lemma smoothRotation_nan frequency previousRotation :
  smoothRotation frequency NaN previousRotation = NaN.
Proof.
  unfold smoothRotation. cbn [fsub fadd fabs fltb].
  destruct (fdiv (Fin 55) (Fin (inject_Z frequency))); reflexivity.
Qed.

(** Two acceptable joints with the same X make the divisor zero; when
    their Z is the same too, the angle is the arctangent of 0/0 and the
    function returns NaN, with or without a previous rotation. *)
Lemma rotationFrom2Joints_coincident atanDeg frequency rightJoint leftJoint previousRotation :
  isJointAcceptable rightJoint = true ->
  isJointAcceptable leftJoint = true ->
  jX rightJoint == jX leftJoint ->
  jZ rightJoint == jZ leftJoint ->
  feqb (angleDivisor rightJoint leftJoint) (Fin 0) = true
  /\ fst (rotationFrom2Joints atanDeg frequency rightJoint leftJoint previousRotation)
     = NaN.
Proof.
  intros Hr Hl Hx Hz.
  assert (Hdx : Qabs (jX rightJoint - jX leftJoint) == 0).
  { rewrite Hx. setoid_replace (jX leftJoint - jX leftJoint) with 0 by ring.
    reflexivity. }
  assert (Hdz : Qabs (jZ rightJoint - jZ leftJoint) == 0).
  { rewrite Hz. setoid_replace (jZ leftJoint - jZ leftJoint) with 0 by ring.
    reflexivity. }
  split.
  - unfold angleDivisor. cbn [fabs feqb]. apply Qeq_bool_iff. exact Hdx.
  - rewrite (rotationFrom2Joints_acceptable _ _ _ _ _ Hr Hl).
    assert (Hq : quadrantRotation atanDeg rightJoint leftJoint = NaN).
    { unfold quadrantRotation, jointsAngle, angleDivisor. cbn [fabs fdiv].
      apply Qeq_bool_iff in Hdx, Hdz. rewrite Hdx, Hdz. cbn [fatanDeg].
      assert (E1 : Qlt_bool (jX leftJoint) (jX rightJoint) = false)
        by (apply Qlt_bool_false; lra).
      assert (E2 : Qlt_bool (jX rightJoint) (jX leftJoint) = false)
        by (apply Qlt_bool_false; lra).
      assert (E3 : Qlt_bool (jZ leftJoint) (jZ rightJoint) = false)
        by (apply Qlt_bool_false; lra).
      assert (E4 : Qlt_bool (jZ rightJoint) (jZ leftJoint) = false)
        by (apply Qlt_bool_false; lra).
      rewrite E1, E2, E3, E4, !andb_false_r. reflexivity. }
    rewrite Hq, smoothRotation_nan.
    destruct (negb (feqb previousRotation (Fin (- 1)))); reflexivity.
Qed.

Section QuadrantRange.

Variable atanDeg : Q -> Q.

(** The arctangent of a positive finite quotient, in degrees, is an
    angle strictly between 0 and 90. *)
Hypothesis atanDeg_strict : forall q, 0 < q -> 0 < atanDeg q < 90.

Lemma jointsAngle_strict rightJoint leftJoint :
  ~ jX rightJoint == jX leftJoint ->
  ~ jZ rightJoint == jZ leftJoint ->
  exists a, jointsAngle atanDeg rightJoint leftJoint = Fin a /\ 0 < a < 90.
Proof.
  intros Hx Hz. unfold jointsAngle, angleDivisor. cbn [fabs].
  assert (Hd : 0 < Qabs (jX rightJoint - jX leftJoint)).
  { destruct (Qabs_cases (jX rightJoint - jX leftJoint)) as [[H1 H2] | [H1 H2]];
      rewrite H2; apply Qnot_le_lt; intro; apply Hx; lra. }
  assert (Hn : 0 < Qabs (jZ rightJoint - jZ leftJoint)).
  { destruct (Qabs_cases (jZ rightJoint - jZ leftJoint)) as [[H1 H2] | [H1 H2]];
      rewrite H2; apply Qnot_le_lt; intro; apply Hz; lra. }
  rewrite fdiv_fin by lra.
  cbn [fatanDeg]. eexists. split; [reflexivity|].
  apply atanDeg_strict. apply Qlt_shift_div_l; [exact Hd | lra].
Qed.

(** Apart from the pairs with equal X and equal Z, the case analysis
    assigns a value of [0,360) to every pair of joints: the placeholder
    -1 is never the result. *)
Lemma quadrantRotation_in_range rightJoint leftJoint :
  ~ (jX rightJoint == jX leftJoint /\ jZ rightJoint == jZ leftJoint) ->
  exists r, quadrantRotation atanDeg rightJoint leftJoint = Fin r /\ 0 <= r < 360.
Proof.
  intro Hne. unfold quadrantRotation.
  destruct (Qeq_bool (jZ rightJoint) (jZ leftJoint)) eqn:Ez;
  destruct (Qeq_bool (jX rightJoint) (jX leftJoint)) eqn:Ex;
  destruct (Qlt_bool (jX leftJoint) (jX rightJoint)) eqn:Exgt;
  destruct (Qlt_bool (jX rightJoint) (jX leftJoint)) eqn:Exlt;
  destruct (Qlt_bool (jZ leftJoint) (jZ rightJoint)) eqn:Ezgt;
  destruct (Qlt_bool (jZ rightJoint) (jZ leftJoint)) eqn:Ezlt;
  cbn [andb];
  try (eexists; split; [reflexivity | lra]);
  qprop; try (exfalso; lra); try (exfalso; apply Hne; split; lra);
  destruct (jointsAngle_strict rightJoint leftJoint Ex Ez) as [a [Ha Hr]];
  rewrite Ha; cbn [fsub fadd fopp];
  eexists; (split; [reflexivity | lra]).
Qed.

End QuadrantRange.

(** C10, at its failing inputs.  The divisor of the quotient is zero for
    the acceptable pair (5,3)/(5,7), which has equal X, and for the
    acceptable pair (5,7)/(5,7), which has equal X and equal Z; for the
    latter [rotationFrom2Joints] returns NaN, which is no value of
    [0,360), whatever the arctangent. *)
Theorem rotationFrom2Joints_zero_divisor :
  isJointAcceptable (Sample.jointAt XN_SKEL_RIGHT_HIP 5 7 1) = true
  /\ isJointAcceptable (Sample.jointAt XN_SKEL_RIGHT_HIP 5 3 1) = true
  /\ isJointAcceptable (Sample.jointAt XN_SKEL_TORSO 5 7 0.7) = true
  /\ angleDivisor (Sample.jointAt XN_SKEL_RIGHT_HIP 5 3 1)
                  (Sample.jointAt XN_SKEL_TORSO 5 7 0.7) = Fin 0
  /\ angleDivisor (Sample.jointAt XN_SKEL_RIGHT_HIP 5 7 1)
                  (Sample.jointAt XN_SKEL_TORSO 5 7 0.7) = Fin 0
  /\ (forall atanDeg frequency,
        fst (rotationFrom2Joints atanDeg frequency
               (Sample.jointAt XN_SKEL_RIGHT_HIP 5 7 1)
               (Sample.jointAt XN_SKEL_TORSO 5 7 0.7) (Fin (- 1))) = NaN)
  /\ (forall atanDeg frequency,
        float_to_int
          (fst (rotationFrom2Joints atanDeg frequency
                  (Sample.jointAt XN_SKEL_RIGHT_HIP 5 7 1)
                  (Sample.jointAt XN_SKEL_TORSO 5 7 0.7) (Fin (- 1)))) = None).
Proof.
  repeat (split; [vm_compute; reflexivity|]).
  intros atanDeg frequency. vm_compute. reflexivity.
Qed.

(** ** The aggregation of the four estimates *)

Lemma Qlt_bool_inject_Z (a b : Z) : Qlt_bool (inject_Z a) (inject_Z b) = (a <? b)%Z.
Proof.
  destruct (a <? b)%Z eqn:E.
  - apply Qlt_bool_true. rewrite <- Zlt_Qlt. apply Z.ltb_lt. exact E.
  - apply Qlt_bool_false. rewrite <- Zle_Qle. apply Z.ltb_ge. exact E.
Qed.

Lemma Qle_bool_inject_Z (a b : Z) : Qle_bool (inject_Z a) (inject_Z b) = (a <=? b)%Z.
Proof.
  destruct (a <=? b)%Z eqn:E.
  - apply Qle_bool_iff. rewrite <- Zle_Qle. apply Z.leb_le. exact E.
  - apply Qle_bool_false. rewrite <- Zlt_Qlt. apply Z.leb_gt. exact E.
Qed.

(** [reduceAngle] on an integer angle. *)
Lemma reduceAngle_inject_Z (a : Z) :
  truncate (reduceAngle (inject_Z a)) = normalizeDegrees a.
Proof.
  unfold reduceAngle, normalizeDegrees.
  change 360 with (inject_Z 360). change 0 with (inject_Z 0).
  rewrite Qle_bool_inject_Z, Qlt_bool_inject_Z.
  destruct (360 <=? a)%Z; [|destruct (a <? 0)%Z].
  - unfold Qminus. rewrite <- inject_Z_opp, <- inject_Z_plus.
    apply truncate_inject_Z.
  - rewrite <- inject_Z_plus. apply truncate_inject_Z.
  - apply truncate_inject_Z.
Qed.

(** One round of the loop adds the negative equivalent of a known
    estimate and counts it. *)
Lemma accumulate_some rotSum rotCount r acc :
  accumulate (Some (rotSum, rotCount)) r = Some acc ->
  acc = if (r =? -1)%Z then (rotSum, rotCount)
        else ((rotSum + negativeEquivalent r)%Z, (rotCount + 1)%Z).
Proof.
  unfold accumulate, negativeEquivalent. cbn [bind].
  change 180 with (inject_Z 180). rewrite Qlt_bool_inject_Z.
  destruct (r =? -1)%Z; cbn [negb].
  - intro H. inversion H. reflexivity.
  - destruct (180 <? r)%Z.
    + cbn [float_to_int].
      replace (truncate (inject_Z rotSum + (inject_Z r - 360)))
        with (rotSum + (r - 360))%Z
        by (change 360 with (inject_Z 360); unfold Qminus;
            rewrite <- inject_Z_opp, <- !inject_Z_plus, truncate_inject_Z;
            reflexivity).
      destruct (int_result (rotSum + (r - 360))) eqn:E; cbn [bind]; [|discriminate].
      apply int_result_some in E. destruct E as [-> _].
      intro H. inversion H. reflexivity.
    + destruct (int_result (rotSum + r)) eqn:E; cbn [bind]; [|discriminate].
      apply int_result_some in E. destruct E as [-> _].
      intro H. inversion H. reflexivity.
Qed.

Lemma fold_accumulate_none rotations :
  fold_left accumulate rotations None = None.
Proof. induction rotations; simpl; auto. Qed.

(** The loop computes the sum of the negative equivalents of the known
    estimates and their number. *)
Lemma fold_accumulate rotations : forall rotSum rotCount rotSum' rotCount',
  fold_left accumulate rotations (Some (rotSum, rotCount)) = Some (rotSum', rotCount') ->
  rotSum' = (rotSum + sumZ (map negativeEquivalent (knownRotations rotations)))%Z
  /\ rotCount' = (rotCount + Z.of_nat (length (knownRotations rotations)))%Z.
Proof.
  induction rotations as [|r rest IH]; intros rotSum rotCount rotSum' rotCount' H.
  - simpl in H. inversion H. simpl. lia.
  - cbn [fold_left] in H.
    destruct (accumulate (Some (rotSum, rotCount)) r) as [[s c]|] eqn:E.
    + apply accumulate_some in E.
      apply IH in H. destruct H as [Hs Hc].
      cbn [knownRotations filter]. fold (knownRotations rest).
      destruct (r =? -1)%Z; cbn [negb]; inversion E; subst s c.
      * split; assumption.
      * cbn [map sumZ fold_right length].
        fold (sumZ (map negativeEquivalent (knownRotations rest))).
        split; lia.
    + rewrite fold_accumulate_none in H. discriminate.
Qed.

(** Whenever the averaging code yields a rotation, it is the aggregate
    of the specification. *)
Lemma averageRotations_refines rotations rot :
  averageRotations rotations = Some rot -> rot = aggregateRotation rotations.
Proof.
  unfold averageRotations, aggregateRotation.
  destruct (fold_left accumulate rotations (Some (0, 0)%Z)) as [[rotSum rotCount]|] eqn:E;
    cbn [bind]; [|discriminate].
  apply fold_accumulate in E. destruct E as [Hs Hc]. simpl in Hs, Hc.
  destruct (knownRotations rotations) as [|k known] eqn:Ek.
  - simpl in Hc. subst rotCount. simpl. intro H. inversion H. reflexivity.
  - assert (Hpos : (0 < rotCount)%Z) by (subst rotCount; cbn [length]; lia).
    destruct (rotCount =? 0)%Z eqn:E0; [apply Z.eqb_eq in E0; lia|].
    cbn [negb float_to_int]. rewrite reduceAngle_inject_Z.
    intro H. apply int_result_some in H. destruct H as [-> _].
    subst rotSum rotCount. reflexivity.
Qed.

Lemma INT_MIN_value : INT_MIN = (-2147483648)%Z.
Proof. reflexivity. Qed.

Lemma INT_MAX_value : INT_MAX = 2147483647%Z.
Proof. reflexivity. Qed.

(** Makes the bounds of [int] known to [lia]. *)
Ltac int_bounds := pose proof INT_MIN_value; pose proof INT_MAX_value.

Lemma negativeEquivalent_range r :
  (0 <= r <= 360)%Z -> (-179 <= negativeEquivalent r <= 180)%Z.
Proof.
  intro H. unfold negativeEquivalent.
  destruct (180 <? r)%Z eqn:E; [apply Z.ltb_lt in E | apply Z.ltb_ge in E]; lia.
Qed.

Lemma knownRotations_range rotations :
  Forall (fun r => (-1 <= r <= 360)%Z) rotations ->
  Forall (fun r => (0 <= r <= 360)%Z) (knownRotations rotations).
Proof.
  induction 1 as [|r rest Hr _ IH]; cbn [knownRotations filter].
  - constructor.
  - destruct (r =? -1)%Z eqn:E; cbn [negb]; [exact IH|].
    apply Z.eqb_neq in E. constructor; [lia | exact IH].
Qed.

Lemma sum_negativeEquivalent_range known :
  Forall (fun r => (0 <= r <= 360)%Z) known ->
  (-179 * Z.of_nat (length known)
   <= sumZ (map negativeEquivalent known)
   <= 180 * Z.of_nat (length known))%Z.
Proof.
  induction 1 as [|r rest Hr _ IH]; cbn [map sumZ fold_right length].
  - lia.
  - fold (sumZ (map negativeEquivalent rest)).
    pose proof (negativeEquivalent_range r Hr). lia.
Qed.

Lemma quot_range s n :
  (0 < n)%Z -> (-179 * n <= s <= 180 * n)%Z -> (-179 <= Z.quot s n <= 180)%Z.
Proof.
  intros Hn Hs.
  pose proof (Z.quot_rem' s n) as Hq.
  destruct (Z_le_gt_dec 0 s) as [Hpos | Hneg].
  - pose proof (Z.rem_bound_pos s n Hpos Hn). nia.
  - assert (Hn0 : n <> 0%Z) by lia.
    assert (Hs0 : (s <= 0)%Z) by lia.
    pose proof (Z.rem_nonpos s n Hn0 Hs0).
    pose proof (Z.rem_bound_abs s n Hn0). nia.
Qed.

(** The aggregate of estimates that are unknown or angles of [0,360] is
    unknown or an angle of [0,360). *)
Lemma aggregateRotation_range rotations :
  Forall (fun r => (-1 <= r <= 360)%Z) rotations ->
  aggregateRotation rotations = (-1)%Z
  \/ (0 <= aggregateRotation rotations < 360)%Z.
Proof.
  intro H. unfold aggregateRotation.
  pose proof (knownRotations_range _ H) as Hk.
  destruct (knownRotations rotations) as [|k known]; [left; reflexivity|right].
  pose proof (sum_negativeEquivalent_range _ Hk) as Hs.
  set (n := Z.of_nat (length (k :: known))) in *.
  assert (Hn : (0 < n)%Z) by (subst n; cbn [length]; lia).
  pose proof (quot_range _ _ Hn Hs) as Hq.
  unfold normalizeDegrees.
  destruct (360 <=? _)%Z eqn:E1; [apply Z.leb_le in E1; lia|].
  destruct (_ <? 0)%Z eqn:E2; [apply Z.ltb_lt in E2 | apply Z.ltb_ge in E2]; lia.
Qed.

Lemma accumulate_in_range rotSum rotCount r :
  (-1 <= r <= 360)%Z ->
  (INT_MIN + 360 <= rotSum <= INT_MAX - 360)%Z ->
  accumulate (Some (rotSum, rotCount)) r
  = Some (if (r =? -1)%Z then (rotSum, rotCount)
          else ((rotSum + negativeEquivalent r)%Z, (rotCount + 1)%Z)).
Proof.
  intros Hr Hs. int_bounds. unfold accumulate, negativeEquivalent. cbn [bind].
  change 180 with (inject_Z 180). rewrite Qlt_bool_inject_Z.
  destruct (r =? -1)%Z; cbn [negb]; [reflexivity|].
  destruct (180 <? r)%Z eqn:E; [apply Z.ltb_lt in E | apply Z.ltb_ge in E].
  - cbn [float_to_int].
    replace (truncate (inject_Z rotSum + (inject_Z r - 360)))
      with (rotSum + (r - 360))%Z
      by (change 360 with (inject_Z 360); unfold Qminus;
          rewrite <- inject_Z_opp, <- !inject_Z_plus, truncate_inject_Z;
          reflexivity).
    rewrite int_result_in by lia. reflexivity.
  - rewrite int_result_in by lia. reflexivity.
Qed.

Lemma fold_accumulate_defined rotations : forall rotSum rotCount,
  Forall (fun r => (-1 <= r <= 360)%Z) rotations ->
  (INT_MIN + 360 * Z.of_nat (length rotations) <= rotSum
   <= INT_MAX - 360 * Z.of_nat (length rotations))%Z ->
  exists acc, fold_left accumulate rotations (Some (rotSum, rotCount)) = Some acc.
Proof.
  int_bounds.
  induction rotations as [|r rest IH]; intros rotSum rotCount Hall Hs.
  - eexists. reflexivity.
  - inversion Hall as [|? ? Hr Hrest]; subst.
    cbn [fold_left length] in *.
    rewrite accumulate_in_range by lia.
    pose proof (negativeEquivalent_range r) as Hn.
    destruct (r =? -1)%Z eqn:E.
    + apply IH; [exact Hrest | lia].
    + apply Z.eqb_neq in E. apply IH; [exact Hrest | lia].
Qed.

(** On four estimates that are unknown or angles of [0,360] the averaging
    code yields a rotation. *)
Lemma averageRotations_defined r0 r1 r2 r3 :
  Forall (fun r => (-1 <= r <= 360)%Z) [r0; r1; r2; r3] ->
  averageRotations [r0; r1; r2; r3] = Some (aggregateRotation [r0; r1; r2; r3]).
Proof.
  intro H.
  destruct (fold_accumulate_defined [r0; r1; r2; r3] 0%Z 0%Z H) as [[s c] Hacc].
  { cbn [length]. int_bounds. lia. }
  destruct (averageRotations [r0; r1; r2; r3]) as [rot|] eqn:E.
  - f_equal. apply averageRotations_refines. exact E.
  - exfalso. unfold averageRotations in E. rewrite Hacc in E. cbn [bind] in E.
    pose proof (fold_accumulate _ _ _ _ _ Hacc) as [Hs Hc].
    destruct (c =? 0)%Z eqn:E0; cbn [negb] in E; [discriminate|].
    cbn [float_to_int] in E. rewrite reduceAngle_inject_Z in E.
    assert (Hagg : normalizeDegrees (Z.quot s c) = aggregateRotation [r0; r1; r2; r3]).
    { unfold aggregateRotation.
      destruct (knownRotations [r0; r1; r2; r3]) as [|k known] eqn:Ek.
      - simpl in Hc. subst c. discriminate.
      - subst s c. reflexivity. }
    rewrite Hagg in E.
    destruct (aggregateRotation_range _ H) as [Hm | Hr];
      rewrite int_result_in in E; try discriminate;
      int_bounds; lia.
Qed.

(** ** The rotation that is published *)


Section PublishedRotation.

Variable atanDeg : Q -> Q.
Hypothesis atanDeg_range : forall q, 0 <= q -> 0 <= atanDeg q <= 90.



End PublishedRotation.



(** ** The walk speed *)

Lemma walk_margin (frequency : Z) :
  (0 < frequency)%Z ->
  exists margin,
    float_to_int (fdiv (Fin 100) (Fin (inject_Z frequency))) = Some margin
    /\ (0 <= margin <= 100)%Z
    /\ inject_Z margin <= 100 / inject_Z frequency.
Proof.
  intro Hf.
  pose proof (inject_Z_pos _ Hf) as Hpos.
  assert (Hone : 1 <= inject_Z frequency).
  { change 1 with (inject_Z 1). rewrite <- Zle_Qle. lia. }
  rewrite fdiv_fin by lra. cbn [float_to_int].
  assert (Hq0 : 0 <= 100 / inject_Z frequency)
    by (apply Qle_shift_div_l; lra).
  assert (Hq1 : 100 / inject_Z frequency <= 100)
    by (apply Qle_shift_div_r; lra).
  pose proof (truncate_nonneg _ Hq0) as H0.
  pose proof (truncate_le _ Hq0) as H1.
  assert (H2 : (truncate (100 / inject_Z frequency) <= 100)%Z).
  { rewrite Zle_Qle. change (inject_Z 100) with 100. lra. }
  exists (truncate (100 / inject_Z frequency)).
  split; [|split; [lia | exact H1]].
  apply int_result_in. int_bounds. lia.
Qed.

(** The smoothed speed stays within the margin of the previous speed. *)
Lemma smoothSpeed_bound frequency speed previousSpeed result :
  (0 < frequency)%Z ->
  previousSpeed <> (-1)%Z ->
  smoothSpeed frequency speed previousSpeed = Some result ->
  inject_Z (Z.abs (result - previousSpeed)) <= 100 / inject_Z frequency.
Proof.
  intros Hf Hprev H.
  destruct (walk_margin frequency Hf) as [margin [Hm [Hrange Hle]]].
  unfold smoothSpeed in H. rewrite Hm in H.
  apply Z.eqb_neq in Hprev. rewrite Hprev in H. cbn [negb bind] in H.
  destruct (int_result (speed - previousSpeed)) as [d|] eqn:Ed;
    cbn [bind] in H; [|discriminate].
  apply int_result_some in Ed. destruct Ed as [-> _].
  destruct (int_result (Z.abs (speed - previousSpeed))) as [a|] eqn:Ea;
    cbn [bind] in H; [|discriminate].
  apply int_result_some in Ea. destruct Ea as [-> _].
  assert (Hz : (Z.abs (result - previousSpeed) <= margin)%Z).
  { destruct (margin <? Z.abs (speed - previousSpeed))%Z eqn:Ec.
    - destruct (speed <? previousSpeed)%Z;
        apply int_result_some in H; destruct H as [-> _]; lia.
    - apply Z.ltb_ge in Ec. inversion H; subst result. exact Ec. }
  rewrite Zle_Qle in Hz. lra.
Qed.

(** With a frequency above 0 and speeds that are not negative, the
    smoothing yields a speed. *)
Lemma smoothSpeed_defined frequency speed previousSpeed :
  (0 < frequency)%Z ->
  (0 <= speed <= INT_MAX)%Z ->
  (0 <= previousSpeed <= INT_MAX)%Z ->
  exists result, smoothSpeed frequency speed previousSpeed = Some result.
Proof.
  intros Hf Hs Hp. int_bounds.
  destruct (walk_margin frequency Hf) as [margin [Hm [Hrange _]]].
  unfold smoothSpeed. rewrite Hm.
  destruct (negb (previousSpeed =? -1)%Z); [|eexists; reflexivity].
  cbn [bind].
  rewrite (int_result_in (speed - previousSpeed)) by lia. cbn [bind].
  rewrite (int_result_in (Z.abs (speed - previousSpeed))) by lia. cbn [bind].
  destruct (margin <? Z.abs (speed - previousSpeed))%Z eqn:Ec;
    [|eexists; reflexivity].
  apply Z.ltb_lt in Ec.
  destruct (speed <? previousSpeed)%Z eqn:El;
    [apply Z.ltb_lt in El | apply Z.ltb_ge in El];
    rewrite int_result_in by lia; eexists; reflexivity.
Qed.

Section WalkSpeed.

Variable sqrt : Q -> Q.

(** C4.  When one of the four foot joints (current left, current right,
    previous left, previous right) is not acceptable, [walkSpeedForUser]
    returns -1 and leaves the confidence slot as it was. *)
Theorem walkSpeedForUser_unacceptable frequency user previousTimestamp previousSpeed
    resultConfidence :
  isJointAcceptable (foot (leftPart user)) = false
  \/ isJointAcceptable (foot (rightPart user)) = false
  \/ isJointAcceptable (foot (previousLeftPart user)) = false
  \/ isJointAcceptable (foot (previousRightPart user)) = false ->
  walkSpeedForUser sqrt frequency user previousTimestamp previousSpeed resultConfidence
  = Some ((- 1)%Z, resultConfidence).
Proof.
  intro H. unfold walkSpeedForUser.
  destruct (isJointAcceptable (foot (rightPart user)));
    destruct (isJointAcceptable (foot (previousRightPart user)));
    destruct (isJointAcceptable (foot (leftPart user)));
    destruct (isJointAcceptable (foot (previousLeftPart user)));
    cbn [andb]; try reflexivity.
  destruct H as [H | [H | [H | H]]]; discriminate.
Qed.

(** C2.  For a frequency f > 0 and a previous speed other than -1, a
    speed that [walkSpeedForUser] computes (all four foot joints being
    acceptable) differs from the previous speed by at most 100/f. *)
Theorem walkSpeedForUser_smoothed frequency user previousTimestamp previousSpeed
    resultConfidence speed confidence :
  (0 < frequency)%Z ->
  previousSpeed <> (- 1)%Z ->
  isJointAcceptable (foot (leftPart user)) = true ->
  isJointAcceptable (foot (rightPart user)) = true ->
  isJointAcceptable (foot (previousLeftPart user)) = true ->
  isJointAcceptable (foot (previousRightPart user)) = true ->
  walkSpeedForUser sqrt frequency user previousTimestamp previousSpeed resultConfidence
  = Some (speed, confidence) ->
  inject_Z (Z.abs (speed - previousSpeed)) <= 100 / inject_Z frequency.
Proof.
  intros Hf Hprev Hl Hr Hpl Hpr H.
  unfold walkSpeedForUser in H. rewrite Hl, Hr, Hpl, Hpr in H. cbn [andb] in H.
  destruct (int64_result (timestamp user - previousTimestamp)) as [diffTime|];
    cbn [bind] in H; [|discriminate].
  destruct (float_to_int _) as [raw|]; cbn [bind] in H; [|discriminate].
  destruct (smoothSpeed frequency raw previousSpeed) as [v|] eqn:Ev;
    cbn [bind] in H; [|discriminate].
  inversion H; subst v confidence.
  exact (smoothSpeed_bound _ _ _ _ Hf Hprev Ev).
Qed.

End WalkSpeed.

(** A sample run of C4: the right foot has confidence 0.5. *)
Lemma walkSpeedForUser_unacceptable_witness :
  walkSpeedForUser Sample.sqrt 10 Sample.uncertainWalker 1000 100 (7 # 2)
  = Some ((- 1)%Z, 7 # 2).
Proof.
  apply walkSpeedForUser_unacceptable.
  right. left. reflexivity.
Defined.

(** A sample run of C2: a raw speed of 150 cm/s after a speed of 100 cm/s
    at 10 frames per second is published as 110 cm/s. *)
Lemma walkSpeedForUser_smoothed_witness :
  walkSpeedForUser Sample.sqrt 10 Sample.walker 1000 100 (- 1) = Some (110%Z, 16)
  /\ inject_Z (Z.abs (110 - 100)) <= 100 / inject_Z 10.
Proof.
  split; [reflexivity|].
  apply (walkSpeedForUser_smoothed Sample.sqrt 10 Sample.walker 1000 100 (- 1) 110 16);
    [lia | discriminate | reflexivity ..].
Defined.

(** ** The frame loop and the lifecycle *)

Import OpenNIApplication.

Lemma rotationForUser_frames atanDeg frequency previousRotation user user' :
  rotationForUser atanDeg frequency previousRotation user = Some user' ->
  numberOfFramesWithoutMove user' = numberOfFramesWithoutMove user.
Proof.
  unfold rotationForUser. intro H.
  destruct (pairRotations atanDeg frequency previousRotation user) as [rotations|];
    cbn [bind] in H; [|discriminate].
  destruct (averageRotations rotations) as [rot|]; cbn [bind] in H; [|discriminate].
  inversion H. reflexivity.
Qed.

Section FrameLoop.

Variable atanDeg : Q -> Q.
Variable sqrt : Q -> Q.

(** The counter of the user assembled for a frame. *)
Lemma currentUser_frames frequency firstLoop previousUser fr current :
  currentUser atanDeg sqrt frequency firstLoop previousUser fr = Some current ->
  numberOfFramesWithoutMove current
  = if negb firstLoop && negb (firstTrackingID fr =? 0)%Z
    then
      if negb (walkSpeed previousUser =? -1)%Z
         && (walkSpeed previousUser <=? MIN_COMPUTED_WALKSPEED)%Z
      then (numberOfFramesWithoutMove previousUser + 1)%Z
      else 0%Z
    else 0%Z.
Proof.
  unfold currentUser. intro H.
  destruct (negb (firstTrackingID fr =? 0)%Z).
  - match type of H with
    | (bind (rotationForUser ?a ?f ?p ?u) _ = _) =>
        destruct (rotationForUser a f p u) as [rotated|] eqn:Erot
    end; cbn [bind] in H; [|discriminate].
    apply rotationForUser_frames in Erot. cbn in Erot.
    destruct firstLoop; cbn [negb andb] in *.
    + inversion H; subst current. exact Erot.
    + destruct (walkSpeedForUser _ _ _ _ _ _) as [[speed confidence]|];
        cbn [bind] in H; [|discriminate].
      destruct (negb (walkSpeed previousUser =? -1)%Z
                && (walkSpeed previousUser <=? MIN_COMPUTED_WALKSPEED)%Z).
      * destruct (int_result (numberOfFramesWithoutMove previousUser + 1)) as [frames|] eqn:E;
          cbn [bind] in H; [|discriminate].
        apply int_result_some in E. destruct E as [-> _].
        inversion H. reflexivity.
      * cbn [bind] in H. inversion H. reflexivity.
  - rewrite andb_false_r. inversion H. reflexivity.
Qed.

(** C7.  In a loop iteration after the first one in which a user is
    tracked, the counter of frames without move becomes the counter of
    the previous frame plus 1 when the walk speed of the previous frame
    is not -1 and is at most the threshold 40, and becomes 0 otherwise.
    In the first iteration the counter keeps its initial value 0.  After
    any iteration the loop is past its first one. *)
Theorem loopIteration_framesWithoutMove app firstLoop fr app' firstLoop' :
  loopIteration atanDeg sqrt app firstLoop fr = Some (Continue app' firstLoop') ->
  let previousUser := user (camInfo app) in
  let current := user (camInfo app') in
  MIN_COMPUTED_WALKSPEED = 40%Z
  /\ firstLoop' = false
  /\ (firstLoop = true -> numberOfFramesWithoutMove current = 0%Z)
  /\ (firstLoop = false -> firstTrackingID fr <> 0%Z ->
      (walkSpeed previousUser <> (- 1)%Z
       /\ (walkSpeed previousUser <= MIN_COMPUTED_WALKSPEED)%Z ->
       numberOfFramesWithoutMove current
       = (numberOfFramesWithoutMove previousUser + 1)%Z)
      /\ (~ (walkSpeed previousUser <> (- 1)%Z
             /\ (walkSpeed previousUser <= MIN_COMPUTED_WALKSPEED)%Z) ->
          numberOfFramesWithoutMove current = 0%Z)).
Proof.
  intros H previousUser current.
  unfold loopIteration in H.
  destruct (_stopRequested app); [discriminate|].
  cbn [_frequency emit set_camInfo camInfo] in H.
  destruct (currentUser atanDeg sqrt (_frequency app) firstLoop (user (camInfo app)) fr)
    as [u|] eqn:Eu; cbn [bind] in H; [|discriminate].
  apply currentUser_frames in Eu. fold previousUser in Eu.
  assert (Hcur : current = u /\ firstLoop' = false).
  { subst current. destruct firstLoop; inversion H; subst; split; reflexivity. }
  destruct Hcur as [-> Hfl].
  split; [reflexivity|]. split; [exact Hfl|]. split.
  - intros ->. exact Eu.
  - intros -> Hid. apply Z.eqb_neq in Hid. rewrite Hid in Eu. cbn [negb andb] in Eu.
    split.
    + intros [Hs Hle]. apply Z.eqb_neq in Hs. apply Z.leb_le in Hle.
      rewrite Hs, Hle in Eu. exact Eu.
    + intro Hn.
      destruct (walkSpeed previousUser =? -1)%Z eqn:Es; [exact Eu|].
      destruct (walkSpeed previousUser <=? MIN_COMPUTED_WALKSPEED)%Z eqn:El;
        [|exact Eu].
      exfalso. apply Hn. apply Z.eqb_neq in Es. apply Z.leb_le in El. tauto.
Qed.

End FrameLoop.

(** A sample run of C7: the second iteration, after a frame with a walk
    speed of 30 and 3 frames without move. *)
Lemma loopIteration_framesWithoutMove_witness :
  exists app',
    loopIteration Sample.atanDeg Sample.sqrt
      (Sample.appWith true (Sample.previousUser 30 3)) false Sample.frame
    = Some (Continue app' false)
    /\ numberOfFramesWithoutMove (user (camInfo app')) = 4%Z.
Proof.
  eexists. split; [vm_compute; reflexivity|].
  refine (proj1 (proj2 (proj2 (proj2
    (loopIteration_framesWithoutMove Sample.atanDeg Sample.sqrt
       (Sample.appWith true (Sample.previousUser 30 3)) false Sample.frame _ false _)))
    eq_refl _) _).
  - vm_compute. reflexivity.
  - vm_compute. discriminate.
  - split; vm_compute; discriminate.
Defined.

Lemma framesEntered_emit app e :
  framesEntered (emit app e)
  = (framesEntered app + if isFrameWait e then 1 else 0)%nat.
Proof.
  unfold framesEntered, emit. cbn [events].
  rewrite filter_app, length_app. cbn [filter].
  destruct (isFrameWait e); reflexivity.
Qed.

Lemma cleanup_spec app :
  events (cleanup app)
  = events app ++ [CallCleanup; ReleaseDepthGenerator; ReleaseUserGenerator; ReleaseContext]
  /\ _stopped (cleanup app) = true
  /\ _started (cleanup app) = _started app
  /\ _stopRequested (cleanup app) = _stopRequested app
  /\ _init (cleanup app) = _init app.
Proof.
  unfold cleanup, emit, set_stopped. cbn.
  rewrite <- !app_assoc. cbn [List.app]. repeat split; reflexivity.
Qed.

Lemma framesEntered_cleanup app : framesEntered (cleanup app) = framesEntered app.
Proof.
  unfold framesEntered. destruct (cleanup_spec app) as [-> _].
  rewrite filter_app. cbn. rewrite app_nil_r. reflexivity.
Qed.

Section Lifecycle.

Variable atanDeg : Q -> Q.
Variable sqrt : Q -> Q.
Variable sensorAnswer : Event -> XnStatus.

(** Once a stop is requested on an application that is not started, the
    frame loop ends without waiting for any frame, whatever reaches it. *)
Lemma frameLoop_stop_requested inputs : forall app firstLoop,
  _stopRequested app = true ->
  _started app = false ->
  exists o,
    frameLoop atanDeg sqrt app firstLoop inputs = Some o
    /\ framesEntered (outcomeApp o) = framesEntered app.
Proof.
  induction inputs as [|input rest IH]; intros app firstLoop Hreq Hst.
  - eexists. split; reflexivity.
  - destruct input as [fr|]; cbn [frameLoop].
    + unfold loopIteration. rewrite Hreq.
      eexists. split; [reflexivity|]. cbn [outcomeApp].
      apply framesEntered_cleanup.
    + assert (Hstop : requestStop app = cleanup (set_stopRequested app true)).
      { unfold requestStop, isStarted. cbn. rewrite Hst. reflexivity. }
      destruct (IH (requestStop app) firstLoop) as [o [Ho Hn]].
      * rewrite Hstop. destruct (cleanup_spec (set_stopRequested app true))
          as [_ [_ [_ [-> _]]]]. reflexivity.
      * rewrite Hstop. destruct (cleanup_spec (set_stopRequested app true))
          as [_ [_ [-> _]]]. exact Hst.
      * exists o. split; [exact Ho|]. rewrite Hn, Hstop.
        rewrite framesEntered_cleanup. reflexivity.
Qed.

(** C8.  When [requestStop] is called on an application that is not
    started, the call itself runs [cleanup]: on return the three release
    calls are made and [isStopped] answers true, and no iteration of the
    frame loop has waited for a frame; nor does one in a later [start]. *)
Theorem requestStop_before_start app :
  isStarted app = false ->
  let app' := requestStop app in
  isStopped app' = true
  /\ events app'
     = events app
       ++ [CallCleanup; ReleaseDepthGenerator; ReleaseUserGenerator; ReleaseContext]
  /\ _stopRequested app' = true
  /\ isStarted app' = false
  /\ framesEntered app' = framesEntered app
  /\ forall inputs, exists app'' status,
       start atanDeg sqrt sensorAnswer app' inputs = Some (app'', status)
       /\ framesEntered app'' = framesEntered app.
Proof.
  intros Hst app'.
  assert (Happ : app' = cleanup (set_stopRequested app true)).
  { subst app'. unfold requestStop. unfold isStarted in *. cbn. rewrite Hst.
    reflexivity. }
  destruct (cleanup_spec (set_stopRequested app true))
    as [Hev [Hstopped [Hstarted [Hreq Hinit]]]].
  rewrite <- Happ in *. cbn in Hev, Hstarted, Hreq, Hinit.
  assert (Hframes : framesEntered app' = framesEntered app).
  { rewrite Happ, framesEntered_cleanup. reflexivity. }
  unfold isStopped, isStarted in *.
  repeat (split; [congruence|]).
  intro inputs. unfold start.
  destruct (_init app'); cbn [negb].
  - destruct (negb (sensorAnswer StartGeneratingAll =? XN_STATUS_OK)%Z).
    + eexists. eexists. split; [reflexivity|].
      rewrite !framesEntered_emit. cbn. lia.
    + destruct (frameLoop_stop_requested inputs
                  (emit (emit app' (Message StartingMainLoop)) StartGeneratingAll) true)
        as [o [Ho Hn]]; [cbn; congruence ..|].
      rewrite Ho. cbn [bind]. eexists. eexists. split; [reflexivity|].
      rewrite Hn, !framesEntered_emit. cbn. lia.
  - eexists. eexists. split; [reflexivity|].
    rewrite framesEntered_emit. cbn. lia.
Qed.

(** C9.  The calibration-complete callback extends the event list of the
    application behind the cookie.  With a status that is not success no
    tracking event is added: on a manual abort only the two log lines
    are, and on any other failure [startCalibration] is entered for the
    same user (a request the sensor receives when the application is
    started).  [startTracking] is entered only on success, for the user
    of the callback. *)
Theorem calibrationEndCallback_spec app userID calibrationStatus :
  exists app' added,
    calibrationEndCallback sensorAnswer (Some app) userID calibrationStatus = Some app'
    /\ events app' = events app ++ added
    /\ (calibrationStatus <> XN_CALIBRATION_STATUS_OK ->
        forallb (fun e => negb (isTrackingEvent e)) added = true)
    /\ (calibrationStatus = XN_CALIBRATION_STATUS_MANUAL_ABORT ->
        added = [Message (CalibrationFailed userID); Message ManualAbort])
    /\ (calibrationStatus <> XN_CALIBRATION_STATUS_OK ->
        calibrationStatus <> XN_CALIBRATION_STATUS_MANUAL_ABORT ->
        added = [Message (CalibrationFailed userID); CallStartCalibration userID]
                ++ (if _started app then [RequestCalibration userID] else []))
    /\ (calibrationStatus = XN_CALIBRATION_STATUS_OK ->
        added = [Message (CalibrationComplete userID); CallStartTracking userID]
                ++ (if _started app then [StartTracking userID] else []))
    /\ (forall uid, In (CallStartTracking uid) added \/ In (StartTracking uid) added ->
        calibrationStatus = XN_CALIBRATION_STATUS_OK /\ uid = userID).
Proof.
  unfold calibrationEndCallback, startCalibration, startTracking. cbn [bind].
  destruct calibrationStatus; cbn [calibrationStatus_eqb emit _started];
    destruct (_started app); cbn [fst];
    (eexists; eexists; split; [reflexivity|]);
    unfold emit; cbn [events]; rewrite <- ?app_assoc; cbn [List.app];
    (split; [reflexivity|]);
    repeat split; try reflexivity; try congruence;
    try match goal with
        | H : In _ _ \/ In _ _ |- _ => cbn in H; intuition congruence
        end.
Qed.

End Lifecycle.

(** A sample run of C8: a stop requested on an initialized application
    that has not started. *)
Lemma requestStop_before_start_witness :
  isStopped (requestStop (Sample.appWith false (Sample.previousUser 0 0))) = true
  /\ framesEntered (requestStop (Sample.appWith false (Sample.previousUser 0 0))) = 0%nat.
Proof.
  pose proof (requestStop_before_start Sample.atanDeg Sample.sqrt Sample.sensorAnswer
                (Sample.appWith false (Sample.previousUser 0 0)) eq_refl) as H.
  split.
  - exact (proj1 H).
  - exact (proj1 (proj2 (proj2 (proj2 (proj2 H))))).
Defined.

(** * Further properties of [openniutil.h] *)

(** ** The estimate of a pair and its confidence *)

Section PairEstimate.

Variable atanDeg : Q -> Q.
Hypothesis atanDeg_range : forall q, 0 <= q -> 0 <= atanDeg q <= 90.


End PairEstimate.


Lemma acceptable_confidence joint :
  isJointAcceptable joint = true -> 0.6 <= fConfidence (info joint).
Proof.
  unfold isJointAcceptable. intro H. apply andb_true_iff in H.
  destruct H as [_ H]. apply Qle_bool_iff in H. exact H.
Qed.

(** X3.  The range that the declaration of [rotationConfidence] announces
    ("should be in range 2.56 - 4"): for two acceptable joints whose
    confidences are at most 1, the confidence that [rotationFrom2Joints]
    stores is between 2.56 and 4. *)
Theorem rotationFrom2Joints_confidence_range atanDeg frequency rightJoint leftJoint
    previousRotation :
  isJointAcceptable rightJoint = true ->
  isJointAcceptable leftJoint = true ->
  fConfidence (info rightJoint) <= 1 ->
  fConfidence (info leftJoint) <= 1 ->
  2.56 <= snd (rotationFrom2Joints atanDeg frequency rightJoint leftJoint previousRotation)
       <= 4.
Proof.
  intros Hr Hl Hr1 Hl1.
  pose proof (acceptable_confidence _ Hr) as Hr0.
  pose proof (acceptable_confidence _ Hl) as Hl0.
  unfold rotationFrom2Joints. rewrite Hr, Hl. cbn [andb snd].
  generalize dependent (fConfidence (info rightJoint)).
  generalize dependent (fConfidence (info leftJoint)).
  intros l Hl1 Hl0 r Hr1 Hr0. nra.
Qed.

(** A sample run of X3: confidences 1 and 0.7 give 3.4. *)
Lemma rotationFrom2Joints_confidence_range_witness :
  snd (rotationFrom2Joints Sample.atanDeg 30
         (Sample.jointAt XN_SKEL_RIGHT_HIP 1 1 1)
         (Sample.jointAt XN_SKEL_LEFT_HIP 0 0 0.7) (Fin 350)) = 3.4
  /\ 2.56 <= snd (rotationFrom2Joints Sample.atanDeg 30
                    (Sample.jointAt XN_SKEL_RIGHT_HIP 1 1 1)
                    (Sample.jointAt XN_SKEL_LEFT_HIP 0 0 0.7) (Fin 350)) <= 4.
Proof.
  split; [reflexivity|].
  apply rotationFrom2Joints_confidence_range; try reflexivity.
  - apply Qle_refl.
  - discriminate.
Defined.

(** ** The smoothing of the walk speed *)

Lemma truncate_floor (q : Q) : 0 <= q -> truncate q = Qfloor q.
Proof.
  intro H. unfold truncate. destruct q as [n d]. cbn [Qnum Qden Qfloor].
  apply Z.quot_div_nonneg; [unfold Qle in H; simpl in H; lia | lia].
Qed.

(** The margin of the walk speed is the integer quotient 100 / f. *)
Lemma walk_margin_value (frequency : Z) :
  (0 < frequency)%Z ->
  float_to_int (fdiv (Fin 100) (Fin (inject_Z frequency))) = Some (100 / frequency)%Z.
Proof.
  intro Hf.
  destruct (walk_margin frequency Hf) as [margin [Hm _]].
  rewrite Hm. f_equal.
  pose proof (inject_Z_pos _ Hf) as Hpos.
  rewrite fdiv_fin in Hm by lra. cbn [float_to_int] in Hm.
  apply int_result_some in Hm. destruct Hm as [-> _].
  rewrite truncate_floor by (apply Qle_shift_div_l; lra).
  change 100 with (inject_Z 100). symmetry. apply Zdiv_Qdiv.
Qed.

(** One step of the smoothing: the speed moves from the previous one
    toward the raw one, by the margin at most. *)
Lemma smoothSpeed_step frequency speed previousSpeed result :
  (0 < frequency)%Z ->
  previousSpeed <> (- 1)%Z ->
  smoothSpeed frequency speed previousSpeed = Some result ->
  (Z.min speed previousSpeed <= result <= Z.max speed previousSpeed)%Z
  /\ ((Z.abs (speed - previousSpeed) <= 100 / frequency)%Z -> result = speed)
  /\ ((100 / frequency < Z.abs (speed - previousSpeed))%Z ->
      Z.abs (result - previousSpeed) = (100 / frequency)%Z).
Proof.
  intros Hf Hprev H.
  assert (Hm0 : (0 <= 100 / frequency)%Z) by (apply Z.div_pos; lia).
  unfold smoothSpeed in H. rewrite (walk_margin_value _ Hf) in H.
  apply Z.eqb_neq in Hprev. rewrite Hprev in H. cbn [negb bind] in H.
  destruct (int_result (speed - previousSpeed)) as [d|] eqn:Ed;
    cbn [bind] in H; [|discriminate].
  apply int_result_some in Ed. destruct Ed as [-> _].
  destruct (int_result (Z.abs (speed - previousSpeed))) as [a|] eqn:Ea;
    cbn [bind] in H; [|discriminate].
  apply int_result_some in Ea. destruct Ea as [-> _].
  destruct (100 / frequency <? Z.abs (speed - previousSpeed))%Z eqn:Ec.
  - apply Z.ltb_lt in Ec.
    destruct (speed <? previousSpeed)%Z eqn:El;
      [apply Z.ltb_lt in El | apply Z.ltb_ge in El];
      apply int_result_some in H; destruct H as [-> _]; lia.
  - apply Z.ltb_ge in Ec. inversion H; subst result. lia.
Qed.

(** X6.  The smoothing of the walk speed never overshoots.  For a
    frequency f above 0 and a previous speed other than -1, the smoothed
    speed lies between the previous and the raw speed; it is the raw
    speed when that is within 100/f (integer quotient) of the previous
    one, and otherwise it is exactly 100/f away from the previous one. *)
Theorem smoothSpeed_no_overshoot frequency speed previousSpeed result :
  (0 < frequency)%Z ->
  previousSpeed <> (- 1)%Z ->
  smoothSpeed frequency speed previousSpeed = Some result ->
  (Z.min speed previousSpeed <= result <= Z.max speed previousSpeed)%Z
  /\ ((Z.abs (speed - previousSpeed) <= 100 / frequency)%Z -> result = speed)
  /\ ((100 / frequency < Z.abs (speed - previousSpeed))%Z ->
      Z.abs (result - previousSpeed) = (100 / frequency)%Z).
Proof. exact (smoothSpeed_step frequency speed previousSpeed result). Qed.

(** A sample run of X6: 150 after 100 at 10 frames per second gives 110;
    105 after 100 is kept. *)
Lemma smoothSpeed_no_overshoot_witness :
  smoothSpeed 10 150 100 = Some 110%Z
  /\ smoothSpeed 10 105 100 = Some 105%Z
  /\ (Z.min 150 100 <= 110 <= Z.max 150 100)%Z.
Proof.
  split; [reflexivity|]. split; [reflexivity|].
  refine (proj1 (smoothSpeed_no_overshoot 10 150 100 110 _ _ _)).
  - lia.
  - discriminate.
  - reflexivity.
Defined.

(** X7.  For speeds that are not negative the smoothing has no undefined
    step: with a frequency above 0 no [int] operation overflows and a
    speed is returned. *)
Theorem smoothSpeed_no_overflow frequency speed previousSpeed :
  (0 < frequency)%Z ->
  (0 <= speed <= INT_MAX)%Z ->
  (0 <= previousSpeed <= INT_MAX)%Z ->
  exists result,
    smoothSpeed frequency speed previousSpeed = Some result
    /\ (0 <= result <= INT_MAX)%Z.
Proof.
  intros Hf Hs Hp.
  destruct (smoothSpeed_defined frequency speed previousSpeed Hf Hs Hp) as [v Hv].
  exists v. split; [exact Hv|].
  assert (Hprev : previousSpeed <> (- 1)%Z) by lia.
  pose proof (smoothSpeed_step _ _ _ _ Hf Hprev Hv) as [Hb _]. lia.
Qed.

(** A sample run of X7: the largest [int] after 0. *)
Lemma smoothSpeed_no_overflow_witness :
  exists result,
    smoothSpeed 30 INT_MAX 0 = Some result /\ (0 <= result <= INT_MAX)%Z.
Proof.
  apply smoothSpeed_no_overflow.
  - lia.
  - split; [discriminate | apply Z.le_refl].
  - split; [apply Z.le_refl | discriminate].
Defined.

Section WalkSpeedEdges.

Variable sqrt : Q -> Q.

(** X8.  Two inputs for which [walkSpeedForUser] has no defined result
    although all four feet are acceptable: a frame with the timestamp of
    the previous one (the speed is a quotient by zero, which has no
    [int] value), and a frequency of 0 together with a previous speed
    (the margin 100/0 has no [int] value). *)
Theorem walkSpeedForUser_undefined frequency user previousTimestamp previousSpeed
    resultConfidence :
  isJointAcceptable (foot (leftPart user)) = true ->
  isJointAcceptable (foot (rightPart user)) = true ->
  isJointAcceptable (foot (previousLeftPart user)) = true ->
  isJointAcceptable (foot (previousRightPart user)) = true ->
  timestamp user = previousTimestamp
  \/ (frequency = 0%Z /\ previousSpeed <> (- 1)%Z) ->
  walkSpeedForUser sqrt frequency user previousTimestamp previousSpeed resultConfidence
  = None.
Proof.
  intros Hl Hr Hpl Hpr Hedge.
  unfold walkSpeedForUser. rewrite Hl, Hr, Hpl, Hpr. cbn [andb].
  destruct Hedge as [Ht | [Hf Hp]].
  - rewrite Ht, Z.sub_diag. cbn [int64_result in_int64 bind].
    change (inject_Z 0 * 0.001) with (0 * 0.001).
    unfold fdiv. change (Qeq_bool (0 * 0.001) 0) with true. cbv iota.
    destruct (Qeq_bool _ 0); [reflexivity|].
    unfold fsign. destruct (Qle_bool 0 _); reflexivity.
  - destruct (int64_result (timestamp user - previousTimestamp)) as [diffTime|];
      cbn [bind]; [|reflexivity].
    destruct (float_to_int _) as [raw|]; cbn [bind]; [|reflexivity].
    unfold smoothSpeed. subst frequency.
    apply Z.eqb_neq in Hp. rewrite Hp. reflexivity.
Qed.

(** The square root is not negative. *)
Hypothesis sqrt_nonneg : forall q, 0 <= sqrt q.

(** X9.  A computed walk speed is never negative, so that -1 only ever
    means "unknown": when the four feet are acceptable, time has moved
    on, the frequency is above 0 and the previous speed is -1 or not
    negative, the speed returned is at least 0. *)
Theorem walkSpeedForUser_nonneg frequency user previousTimestamp previousSpeed
    resultConfidence speed confidence :
  (0 < frequency)%Z ->
  (previousTimestamp < timestamp user)%Z ->
  (- 1 <= previousSpeed)%Z ->
  isJointAcceptable (foot (leftPart user)) = true ->
  isJointAcceptable (foot (rightPart user)) = true ->
  isJointAcceptable (foot (previousLeftPart user)) = true ->
  isJointAcceptable (foot (previousRightPart user)) = true ->
  walkSpeedForUser sqrt frequency user previousTimestamp previousSpeed resultConfidence
  = Some (speed, confidence) ->
  (0 <= speed)%Z.
Proof.
  intros Hf Ht Hprev Hl Hr Hpl Hpr H.
  unfold walkSpeedForUser in H. rewrite Hl, Hr, Hpl, Hpr in H. cbn [andb] in H.
  destruct (int64_result (timestamp user - previousTimestamp)) as [diffTime|] eqn:Ed;
    cbn [bind] in H; [|discriminate].
  assert (Hdt : diffTime = (timestamp user - previousTimestamp)%Z).
  { unfold int64_result in Ed. destruct (in_int64 _); inversion Ed. reflexivity. }
  assert (Hpos : 0 < inject_Z diffTime) by (apply inject_Z_pos; lia).
  rewrite fdiv_fin in H by lra. cbn [float_to_int] in H.
  match type of H with
  | context [truncate ?q] =>
      assert (Hq : 0 <= q);
      [| pose proof (truncate_nonneg q Hq) as Hraw;
         destruct (int_result (truncate q)) as [raw|] eqn:Eraw;
         cbn [bind] in H; [|discriminate];
         apply int_result_some in Eraw; destruct Eraw as [Eraw _];
         rewrite <- Eraw in Hraw; clear Eraw ]
  end.
  { apply Qle_shift_div_l; [lra|].
    match goal with
    | |- context [(sqrt ?a + sqrt ?b) / 2] =>
        pose proof (sqrt_nonneg a); pose proof (sqrt_nonneg b);
        assert (0 <= (sqrt a + sqrt b) / 2) by (apply Qle_shift_div_l; lra);
        generalize dependent ((sqrt a + sqrt b) / 2); intros
    end. lra. }
  destruct (smoothSpeed frequency raw previousSpeed) as [v|] eqn:Ev;
    cbn [bind] in H; [|discriminate].
  inversion H; subst v confidence.
  destruct (Z.eq_dec previousSpeed (- 1)) as [-> | Hne].
  - unfold smoothSpeed in Ev. cbn in Ev. inversion Ev. lia.
  - pose proof (smoothSpeed_step _ _ _ _ Hf Hne Ev) as [Hb _]. lia.
Qed.

(** X10.  The range that the declaration of [walkSpeedConfidence]
    announces ("should be in range 6.5536 - 16"): when a speed is
    computed from four acceptable feet whose confidences are at most 1,
    the confidence stored is between 6.5536 and 16. *)
Theorem walkSpeedForUser_confidence_range frequency user previousTimestamp previousSpeed
    resultConfidence speed confidence :
  isJointAcceptable (foot (leftPart user)) = true ->
  isJointAcceptable (foot (rightPart user)) = true ->
  isJointAcceptable (foot (previousLeftPart user)) = true ->
  isJointAcceptable (foot (previousRightPart user)) = true ->
  fConfidence (info (foot (leftPart user))) <= 1 ->
  fConfidence (info (foot (rightPart user))) <= 1 ->
  fConfidence (info (foot (previousLeftPart user))) <= 1 ->
  fConfidence (info (foot (previousRightPart user))) <= 1 ->
  walkSpeedForUser sqrt frequency user previousTimestamp previousSpeed resultConfidence
  = Some (speed, confidence) ->
  6.5536 <= confidence <= 16.
Proof.
  intros Hl Hr Hpl Hpr Hl1 Hr1 Hpl1 Hpr1 H.
  pose proof (acceptable_confidence _ Hl) as Hl0.
  pose proof (acceptable_confidence _ Hr) as Hr0.
  pose proof (acceptable_confidence _ Hpl) as Hpl0.
  pose proof (acceptable_confidence _ Hpr) as Hpr0.
  unfold walkSpeedForUser in H. rewrite Hl, Hr, Hpl, Hpr in H. cbn [andb] in H.
  destruct (int64_result _) as [diffTime|]; cbn [bind] in H; [|discriminate].
  destruct (float_to_int _) as [raw|]; cbn [bind] in H; [|discriminate].
  destruct (smoothSpeed _ _ _) as [v|]; cbn [bind] in H; [|discriminate].
  inversion H; subst v confidence. clear H.
  generalize dependent (fConfidence (info (foot (leftPart user)))).
  generalize dependent (fConfidence (info (foot (rightPart user)))).
  generalize dependent (fConfidence (info (foot (previousLeftPart user)))).
  generalize dependent (fConfidence (info (foot (previousRightPart user)))).
  intros a Ha1 Ha0 b Hb1 Hb0 c Hc1 Hc0 d Hd1 Hd0.
  assert (H1 : 2.56 <= (c + 1) * (a + 1) <= 4) by nra.
  assert (H2 : 2.56 <= (d + 1) * (b + 1) <= 4) by nra.
  setoid_replace ((c + 1) * (a + 1) * (d + 1) * (b + 1))
    with (((c + 1) * (a + 1)) * ((d + 1) * (b + 1))) by ring.
  generalize dependent ((c + 1) * (a + 1)).
  generalize dependent ((d + 1) * (b + 1)).
  intros. nra.
Qed.

End WalkSpeedEdges.

Lemma sample_sqrt_nonneg (q : Q) : 0 <= Sample.sqrt q.
Proof.
  unfold Sample.sqrt. change 0 with (inject_Z 0). rewrite <- Zle_Qle.
  apply Z.sqrt_nonneg.
Qed.

(** Sample runs of X8: the frame of the walker with the timestamp of the
    previous one, and with a frequency of 0. *)
Lemma walkSpeedForUser_undefined_witness :
  walkSpeedForUser Sample.sqrt 10 Sample.walker 1100 100 (- 1) = None
  /\ walkSpeedForUser Sample.sqrt 0 Sample.walker 1000 100 (- 1) = None.
Proof.
  split.
  - apply walkSpeedForUser_undefined; try reflexivity. left. reflexivity.
  - apply walkSpeedForUser_undefined; try reflexivity.
    right. split; [reflexivity | discriminate].
Defined.

(** A sample run of X9: the walker after a speed of 100. *)
Lemma walkSpeedForUser_nonneg_witness :
  walkSpeedForUser Sample.sqrt 10 Sample.walker 1000 100 (- 1) = Some (110%Z, 16)
  /\ (0 <= 110)%Z.
Proof.
  split; [reflexivity|].
  apply (walkSpeedForUser_nonneg Sample.sqrt sample_sqrt_nonneg
           10 Sample.walker 1000 100 (- 1) 110 16);
    [lia | reflexivity | discriminate | reflexivity ..].
Defined.

(** A sample run of X10: four feet of confidence 1. *)
Lemma walkSpeedForUser_confidence_range_witness :
  walkSpeedForUser Sample.sqrt 10 Sample.walker 1000 100 (- 1) = Some (110%Z, 16)
  /\ 6.5536 <= 16 <= 16.
Proof.
  split; [reflexivity|].
  apply (walkSpeedForUser_confidence_range Sample.sqrt
           10 Sample.walker 1000 100 (- 1) 110 16);
    try reflexivity; apply Qle_refl.
Defined.

(** ** The aggregation: round trip and order *)

Lemma normalize_negativeEquivalent v :
  (0 <= v < 360)%Z -> normalizeDegrees (negativeEquivalent v) = v.
Proof.
  intro H. unfold normalizeDegrees, negativeEquivalent.
  destruct (180 <? v)%Z eqn:E; [apply Z.ltb_lt in E | apply Z.ltb_ge in E].
  - destruct (360 <=? v - 360)%Z eqn:E1; [apply Z.leb_le in E1; lia|].
    destruct (v - 360 <? 0)%Z eqn:E2; [lia | apply Z.ltb_ge in E2; lia].
  - destruct (360 <=? v)%Z eqn:E1; [apply Z.leb_le in E1; lia|].
    destruct (v <? 0)%Z eqn:E2; [apply Z.ltb_lt in E2; lia | reflexivity].
Qed.

(** The aggregate in terms of the sum and the number of the known
    estimates. *)
Lemma aggregateRotation_sum_count rotations :
  aggregateRotation rotations
  = if (Z.of_nat (length (knownRotations rotations)) =? 0)%Z
    then (- 1)%Z
    else normalizeDegrees
           (Z.quot (sumZ (map negativeEquivalent (knownRotations rotations)))
                   (Z.of_nat (length (knownRotations rotations)))).
Proof.
  unfold aggregateRotation.
  destruct (knownRotations rotations) as [|k known]; [reflexivity|].
  destruct (Z.of_nat (length (k :: known)) =? 0)%Z eqn:E; [|reflexivity].
  apply Z.eqb_eq in E. cbn [length] in E. lia.
Qed.

(** When every known estimate is [v], the sum is a multiple of its
    negative equivalent. *)
Lemma known_all_equal v rotations :
  v <> (- 1)%Z ->
  Forall (fun r => r = (- 1)%Z \/ r = v) rotations ->
  sumZ (map negativeEquivalent (knownRotations rotations))
  = (negativeEquivalent v * Z.of_nat (length (knownRotations rotations)))%Z
  /\ (Exists (fun r => r = v) rotations ->
      (0 < Z.of_nat (length (knownRotations rotations)))%Z).
Proof.
  intros Hv. induction 1 as [|r rest Hr _ [IHs IHe]].
  - split; [cbn; lia | intro H; inversion H].
  - cbn [knownRotations filter]. fold (knownRotations rest).
    destruct Hr as [-> | ->].
    + change (negb (-1 =? -1)%Z) with false. cbv iota.
      split; [exact IHs|]. intro H. inversion H; subst; [contradiction | auto].
    + apply Z.eqb_neq in Hv. rewrite Hv. cbn [negb map sumZ fold_right length].
      fold (sumZ (map negativeEquivalent (knownRotations rest))).
      split; [rewrite IHs; lia | intros _; lia].
Qed.

(** X11.  The aggregation gives back an estimate on which the pairs
    agree: when the estimates that are not -1 all have the same value v
    of [0,360), and there is one, the rotation stored is v. *)
Theorem averageRotations_agreeing r0 r1 r2 r3 v :
  (0 <= v < 360)%Z ->
  Forall (fun r => r = (- 1)%Z \/ r = v) [r0; r1; r2; r3] ->
  Exists (fun r => r = v) [r0; r1; r2; r3] ->
  averageRotations [r0; r1; r2; r3] = Some v.
Proof.
  intros Hv Hall Hex.
  assert (Hb : Forall (fun r => (-1 <= r <= 360)%Z) [r0; r1; r2; r3]).
  { eapply Forall_impl; [|exact Hall]. cbv beta. intros r [-> | ->]; lia. }
  rewrite (averageRotations_defined _ _ _ _ Hb). f_equal.
  rewrite aggregateRotation_sum_count.
  assert (Hne : v <> (- 1)%Z) by lia.
  destruct (known_all_equal v _ Hne Hall) as [Hs Hn].
  specialize (Hn Hex). rewrite Hs.
  destruct (Z.of_nat (length (knownRotations [r0; r1; r2; r3])) =? 0)%Z eqn:E;
    [apply Z.eqb_eq in E; lia|].
  rewrite Z.quot_mul by lia.
  apply normalize_negativeEquivalent. exact Hv.
Qed.

(** A sample run of X11: two pairs agree on 350, two are unknown. *)
Lemma averageRotations_agreeing_witness :
  averageRotations [350; -1; 350; -1]%Z = Some 350%Z.
Proof.
  apply averageRotations_agreeing.
  - lia.
  - repeat (apply Forall_cons; [auto|]). apply Forall_nil.
  - apply Exists_cons_hd. reflexivity.
Defined.

Lemma known_permutation rotations rotations' :
  Permutation rotations rotations' ->
  sumZ (map negativeEquivalent (knownRotations rotations))
  = sumZ (map negativeEquivalent (knownRotations rotations'))
  /\ length (knownRotations rotations) = length (knownRotations rotations').
Proof.
  induction 1 as [|x l l' _ [IHs IHn] | x y l | l l' l'' _ [IHs1 IHn1] _ [IHs2 IHn2]].
  - split; reflexivity.
  - cbn [knownRotations filter]. fold (knownRotations l) (knownRotations l').
    destruct (negb (x =? -1)%Z); cbn [map sumZ fold_right length];
      [|split; assumption].
    fold (sumZ (map negativeEquivalent (knownRotations l))).
    fold (sumZ (map negativeEquivalent (knownRotations l'))).
    split; [rewrite IHs | rewrite IHn]; reflexivity.
  - cbn [knownRotations filter]. fold (knownRotations l).
    destruct (negb (x =? -1)%Z); destruct (negb (y =? -1)%Z);
      cbn [map sumZ fold_right length];
      fold (sumZ (map negativeEquivalent (knownRotations l)));
      split; try reflexivity; lia.
  - split; [rewrite IHs1; exact IHs2 | rewrite IHn1; exact IHn2].
Qed.

(** X12.  The rotation stored does not depend on the order of the four
    estimates: two arrangements of estimates that are -1 or angles of
    [0,360] have the same aggregate. *)
Theorem averageRotations_permutation r0 r1 r2 r3 s0 s1 s2 s3 :
  Forall (fun r => (-1 <= r <= 360)%Z) [r0; r1; r2; r3] ->
  Permutation [r0; r1; r2; r3] [s0; s1; s2; s3] ->
  averageRotations [r0; r1; r2; r3] = averageRotations [s0; s1; s2; s3].
Proof.
  intros Hr Hperm.
  assert (Hs : Forall (fun r => (-1 <= r <= 360)%Z) [s0; s1; s2; s3])
    by (eapply Permutation_Forall; eassumption).
  rewrite (averageRotations_defined _ _ _ _ Hr), (averageRotations_defined _ _ _ _ Hs).
  f_equal. rewrite !aggregateRotation_sum_count.
  destruct (known_permutation _ _ Hperm) as [-> ->]. reflexivity.
Qed.

(** A sample run of X12: the example of the specification, rearranged. *)
Lemma averageRotations_permutation_witness :
  averageRotations [10; 350; -1; -1]%Z = averageRotations [-1; 350; -1; 10]%Z.
Proof.
  apply averageRotations_permutation.
  - repeat (apply Forall_cons; [lia|]). apply Forall_nil.
  - apply Permutation_trans with [350; 10; -1; -1]%Z; [apply perm_swap|].
    apply Permutation_trans with [350; -1; 10; -1]%Z;
      [apply perm_skip; apply perm_swap|].
    apply Permutation_trans with [-1; 350; 10; -1]%Z; [apply perm_swap|].
    apply perm_skip. apply perm_skip. apply perm_swap.
Defined.

(** ** [rotationForUser] on a whole user *)

(** X14.  When every one of the four pairs has a joint that is not
    acceptable, [rotationForUser] stores the rotation -1 with the
    confidence -1 and changes nothing else. *)
Theorem rotationForUser_unknown atanDeg frequency previousRotation user :
  isJointAcceptable (hip (rightPart user)) && isJointAcceptable (hip (leftPart user))
  = false ->
  isJointAcceptable (hip (rightPart user)) && isJointAcceptable (torsoJoint user)
  = false ->
  isJointAcceptable (torsoJoint user) && isJointAcceptable (hip (leftPart user))
  = false ->
  isJointAcceptable (shoulder (rightPart user))
  && isJointAcceptable (shoulder (leftPart user)) = false ->
  rotationForUser atanDeg frequency previousRotation user
  = Some (setRotation user (- 1) (- 1)).
Proof.
  intros H0 H1 H2 H3. unfold rotationForUser, pairRotations.
  rewrite !rotationFrom2Joints_unacceptable by assumption.
  reflexivity.
Qed.

(** A sample run of X14: the walker, whose hips, torso and shoulders are
    not active. *)
Lemma rotationForUser_unknown_witness :
  rotationForUser Sample.atanDeg 10 350 Sample.walker
  = Some (setRotation Sample.walker (- 1) (- 1)).
Proof.
  apply rotationForUser_unknown; reflexivity.
Defined.


(** * Further properties of [openniapplication.cpp] *)

Import OpenNICallbacks OpenNITiming.

(** ** Reading the joints and the tracked user *)

(** A joint read from the sensor has the type asked for and the
    activity the sensor reports, and whether it is acceptable depends on
    the sensor alone: it is acceptable exactly when the sensor reports it
    active with a confidence of at least 0.6.  What the storage of the
    local variable held before plays no part. *)
Lemma createJoint_acceptable fr jointType userID :
  type (createJoint fr jointType userID) = jointType
  /\ isActive (createJoint fr jointType userID) = isJointActive fr jointType
  /\ isJointAcceptable (createJoint fr jointType userID)
     = isJointActive fr jointType
       && Qle_bool 0.6 (fConfidence (skeletonJointPosition fr userID jointType))
  /\ (isJointActive fr jointType = true ->
      info (createJoint fr jointType userID)
      = skeletonJointPosition fr userID jointType
      /\ projectivePos (createJoint fr jointType userID)
         = realWorldToProjective fr
             (position (skeletonJointPosition fr userID jointType))).
Proof.
  unfold createJoint, isJointAcceptable.
  destruct (isJointActive fr jointType); cbn; repeat split; try reflexivity;
    discriminate.
Qed.

(** [firstTrackingID] is the first identifier of the array that
    the sensor reports as tracked, and 0 when there is none: a result
    other than 0 is tracked and every identifier before it is not; when
    no identifier is tracked the result is 0. *)
Lemma firstTrackingID_first fr :
  (firstTrackingID fr <> 0%Z ->
   isTrackingUser fr (firstTrackingID fr) = true
   /\ exists before after,
        usersArray fr = before ++ firstTrackingID fr :: after
        /\ Forall (fun uid => isTrackingUser fr uid = false) before)
  /\ (Forall (fun uid => isTrackingUser fr uid = false) (usersArray fr) ->
      firstTrackingID fr = 0%Z).
Proof.
  unfold firstTrackingID.
  generalize (usersArray fr) as users. intro users.
  induction users as [|uid rest [IHfound IHnone]]; cbn [find].
  - split; [intro H; contradiction H; reflexivity | reflexivity].
  - destruct (isTrackingUser fr uid) eqn:E.
    + split.
      * intros _. split; [exact E|]. exists [], rest. split; [reflexivity | constructor].
      * intro H. inversion H; subst. congruence.
    + split.
      * intro Hne. destruct (IHfound Hne) as [Ht [before [after [Heq Hall]]]].
        split; [exact Ht|].
        exists (uid :: before), after. split; [cbn [List.app]; f_equal; exact Heq|].
        constructor; assumption.
      * intro H. inversion H; subst. apply IHnone. assumption.
Qed.

Section Frames.

Variable atanDeg : Q -> Q.
Variable sqrt : Q -> Q.
Variable sensorAnswer : Event -> XnStatus.

(** A frame without a tracked user always yields a user, whatever
    the frequency, the previous user and the storage hold: its id is 0,
    it is not tracking, its rotation and its walk speed are -1 with
    confidence -1, its counter is 0 and none of its joints is active. *)
Lemma currentUser_untracked frequency firstLoop previousUser fr :
  firstTrackingID fr = 0%Z ->
  exists current,
    currentUser atanDeg sqrt frequency firstLoop previousUser fr = Some current
    /\ id current = 0%Z
    /\ isTracking current = false
    /\ rotation current = (- 1)%Z
    /\ rotationConfidence current == - 1
    /\ walkSpeed current = (- 1)%Z
    /\ walkSpeedConfidence current == - 1
    /\ numberOfFramesWithoutMove current = 0%Z
    /\ isActive (torsoJoint current) = false
    /\ isActive (foot (leftPart current)) = false
    /\ isActive (foot (rightPart current)) = false
    /\ isActive (hip (leftPart current)) = false
    /\ isActive (hip (rightPart current)) = false.
Proof.
  intro H. unfold currentUser. rewrite H. cbn [Z.eqb negb].
  eexists. split; [reflexivity|]. cbn. repeat split; reflexivity.
Qed.

Lemma rotationForUser_keeps frequency previousRotation user user' :
  rotationForUser atanDeg frequency previousRotation user = Some user' ->
  exists rot conf, user' = setRotation user rot conf.
Proof.
  unfold rotationForUser. intro H.
  destruct (pairRotations atanDeg frequency previousRotation user) as [rotations|];
    cbn [bind] in H; [|discriminate].
  destruct (averageRotations rotations) as [rot|]; cbn [bind] in H; [|discriminate].
  inversion H. eexists. eexists. reflexivity.
Qed.

(** X15.  In a frame with a tracked user the user assembled carries the
    identifier of the first tracked user and the time of the frame; its
    torso and its two body parts (hip, knee, foot and shoulder of each
    side) are the joints read from the sensor for that identifier, and
    its previous body parts are the current ones of the user of the
    previous frame. *)
Theorem currentUser_tracked frequency firstLoop previousUser fr current :
  firstTrackingID fr <> 0%Z ->
  currentUser atanDeg sqrt frequency firstLoop previousUser fr = Some current ->
  id current = firstTrackingID fr
  /\ isTracking current = true
  /\ timestamp current = clock fr
  /\ previousLeftPart current = leftPart previousUser
  /\ previousRightPart current = rightPart previousUser
  /\ torsoJoint current = createJoint fr XN_SKEL_TORSO (firstTrackingID fr)
  /\ leftPart current
     = mkBodyPart (createJoint fr XN_SKEL_LEFT_HIP (firstTrackingID fr))
                  (createJoint fr XN_SKEL_LEFT_KNEE (firstTrackingID fr))
                  (createJoint fr XN_SKEL_LEFT_FOOT (firstTrackingID fr))
                  (createJoint fr XN_SKEL_LEFT_SHOULDER (firstTrackingID fr))
  /\ rightPart current
     = mkBodyPart (createJoint fr XN_SKEL_RIGHT_HIP (firstTrackingID fr))
                  (createJoint fr XN_SKEL_RIGHT_KNEE (firstTrackingID fr))
                  (createJoint fr XN_SKEL_RIGHT_FOOT (firstTrackingID fr))
                  (createJoint fr XN_SKEL_RIGHT_SHOULDER (firstTrackingID fr)).
Proof.
  intros Hid H. unfold currentUser in H.
  apply Z.eqb_neq in Hid. rewrite Hid in H. cbn [negb] in H.
  match type of H with
  | (bind (rotationForUser ?a ?f ?p ?u) _ = _) =>
      destruct (rotationForUser a f p u) as [rotated|] eqn:Erot
  end; cbn [bind] in H; [|discriminate].
  apply rotationForUser_keeps in Erot. destruct Erot as [rot [conf ->]].
  destruct firstLoop; cbn [negb] in H.
  - inversion H; subst current. cbn. repeat split; reflexivity.
  - destruct (walkSpeedForUser _ _ _ _ _ _) as [[speed confidence]|];
      cbn [bind] in H; [|discriminate].
    match type of H with
    | (bind ?m _ = _) => destruct m as [frames|]
    end; cbn [bind] in H; [|discriminate].
    inversion H; subst current. cbn. repeat split; reflexivity.
Qed.

(** In the first iteration the walk speed is not computed: the
    user assembled has the walk speed -1 with the confidence -1,
    tracked or not. *)
Lemma currentUser_first_frame frequency previousUser fr current :
  currentUser atanDeg sqrt frequency true previousUser fr = Some current ->
  walkSpeed current = (- 1)%Z /\ walkSpeedConfidence current == - 1.
Proof.
  unfold currentUser. intro H.
  destruct (negb (firstTrackingID fr =? 0)%Z).
  - match type of H with
    | (bind (rotationForUser ?a ?f ?p ?u) _ = _) =>
        destruct (rotationForUser a f p u) as [rotated|] eqn:Erot
    end; cbn [bind] in H; [|discriminate].
    apply rotationForUser_keeps in Erot. destruct Erot as [rot [conf ->]].
    cbn [negb] in H. inversion H; subst current. cbn. split; reflexivity.
  - inversion H; subst current. cbn. split; reflexivity.
Qed.

(** The walk speed of a frame whose previous user has a foot that is not
    acceptable. *)
Lemma currentUser_previous_foot frequency firstLoop previousUser fr current :
  isJointAcceptable (foot (leftPart previousUser)) = false
  \/ isJointAcceptable (foot (rightPart previousUser)) = false ->
  currentUser atanDeg sqrt frequency firstLoop previousUser fr = Some current ->
  walkSpeed current = (- 1)%Z.
Proof.
  intros Hfoot H. unfold currentUser in H.
  destruct (negb (firstTrackingID fr =? 0)%Z).
  - match type of H with
    | (bind (rotationForUser ?a ?f ?p ?u) _ = _) =>
        destruct (rotationForUser a f p u) as [rotated|] eqn:Erot
    end; cbn [bind] in H; [|discriminate].
    apply rotationForUser_keeps in Erot. destruct Erot as [rot [conf ->]].
    destruct firstLoop; cbn [negb] in H.
    + inversion H; subst current. reflexivity.
    + unfold walkSpeedForUser in H.
      cbn [setRotation previousLeftPart previousRightPart leftPart rightPart] in H.
      destruct (isJointAcceptable (foot (leftPart previousUser))) eqn:El;
        destruct (isJointAcceptable (foot (rightPart previousUser))) eqn:Er;
        try (destruct Hfoot; discriminate);
        rewrite ?andb_false_r in H; cbn [andb] in H;
        repeat match type of H with
               | context [if ?b then _ else _] => destruct b; cbn [andb] in H
               end;
        cbn [bind] in H;
        try discriminate;
        repeat match type of H with
               | (bind ?m _ = _) => destruct m; cbn [bind] in H; [|discriminate]
               end;
        inversion H; subst current; reflexivity.
  - inversion H; subst current. reflexivity.
Qed.

(** X16.  The walk speed needs two tracked frames in a row: in the
    iteration that follows a frame without a tracked user the walk speed
    is -1 and the counter of frames without move is 0. *)
Theorem loopIteration_after_untracked app firstLoop fr app1 firstLoop1 fr2 app2
    firstLoop2 :
  loopIteration atanDeg sqrt app firstLoop fr = Some (Continue app1 firstLoop1) ->
  firstTrackingID fr = 0%Z ->
  loopIteration atanDeg sqrt app1 firstLoop1 fr2 = Some (Continue app2 firstLoop2) ->
  walkSpeed (user (camInfo app2)) = (- 1)%Z
  /\ numberOfFramesWithoutMove (user (camInfo app2)) = 0%Z.
Proof.
  intros H1 Hid H2.
  assert (Hprev : isJointAcceptable (foot (leftPart (user (camInfo app1)))) = false
                  /\ walkSpeed (user (camInfo app1)) = (- 1)%Z).
  { unfold loopIteration in H1.
    destruct (_stopRequested app); [discriminate|].
    cbn [_frequency emit set_camInfo camInfo] in H1.
    destruct (currentUser_untracked (_frequency app) firstLoop (user (camInfo app)) fr Hid)
      as [u [Hu [_ [_ [_ [_ [Hw [_ [_ [_ [Hf _]]]]]]]]]]].
    rewrite Hu in H1. cbn [bind] in H1.
    assert (Hcur : user (camInfo app1) = u)
      by (destruct firstLoop; inversion H1; reflexivity).
    rewrite Hcur. split; [|exact Hw].
    unfold isJointAcceptable. rewrite Hf. reflexivity. }
  destruct Hprev as [Hfoot Hspeed].
  unfold loopIteration in H2.
  destruct (_stopRequested app1); [discriminate|].
  cbn [_frequency emit set_camInfo camInfo] in H2.
  destruct (currentUser atanDeg sqrt (_frequency app1) firstLoop1 (user (camInfo app1)) fr2)
    as [u2|] eqn:Eu; cbn [bind] in H2; [|discriminate].
  assert (Hcur : user (camInfo app2) = u2)
    by (destruct firstLoop1; inversion H2; reflexivity).
  rewrite Hcur. split.
  - eapply currentUser_previous_foot; [left; exact Hfoot | exact Eu].
  - apply currentUser_frames in Eu. rewrite Eu, Hspeed.
    destruct (negb firstLoop1 && negb (firstTrackingID fr2 =? 0)%Z); reflexivity.
Qed.

End Frames.

(** A sample run of X15: user 1 is the first tracked user of the sample
    frame. *)
Lemma currentUser_tracked_witness :
  exists current,
    currentUser Sample.atanDeg Sample.sqrt 10 false (Sample.previousUser 30 3)
                Sample.frame = Some current
    /\ id current = 1%Z
    /\ previousRightPart current = rightPart (Sample.previousUser 30 3)
    /\ knee (leftPart current)
       = createJoint Sample.frame XN_SKEL_LEFT_KNEE (firstTrackingID Sample.frame).
Proof.
  eexists. split; [vm_compute; reflexivity|].
  match goal with
  | |- id ?u = _ /\ _ =>
      pose proof (currentUser_tracked Sample.atanDeg Sample.sqrt 10 false
                    (Sample.previousUser 30 3) Sample.frame u) as H
  end.
  destruct H as [H1 [_ [_ [_ [H5 [_ [H7 _]]]]]]].
  - vm_compute. discriminate.
  - vm_compute. reflexivity.
  - split; [exact H1|]. split; [exact H5|]. rewrite H7. reflexivity.
Defined.

(** A sample run of X16: a frame without a tracked user, then the sample
    frame. *)
Lemma loopIteration_after_untracked_witness :
  exists app1 app2,
    loopIteration Sample.atanDeg Sample.sqrt
      (Sample.appWith true (Sample.previousUser 30 3)) false Sample.emptyFrame
    = Some (Continue app1 false)
    /\ loopIteration Sample.atanDeg Sample.sqrt app1 false Sample.frame
       = Some (Continue app2 false)
    /\ walkSpeed (user (camInfo app2)) = (- 1)%Z
    /\ numberOfFramesWithoutMove (user (camInfo app2)) = 0%Z.
Proof.
  eexists. eexists.
  split; [vm_compute; reflexivity|].
  split; [vm_compute; reflexivity|].
  eapply (loopIteration_after_untracked Sample.atanDeg Sample.sqrt
            (Sample.appWith true (Sample.previousUser 30 3)) false Sample.emptyFrame
            _ false Sample.frame _ false).
  - vm_compute. reflexivity.
  - reflexivity.
  - vm_compute. reflexivity.
Defined.

(** ** The frame loop as a whole *)

Lemma events_cleanup app :
  events (cleanup app)
  = events app ++ [CallCleanup; ReleaseDepthGenerator; ReleaseUserGenerator; ReleaseContext].
Proof. exact (proj1 (cleanup_spec app)). Qed.

Lemma status_cleanup app :
  _frequency (cleanup app) = _frequency app
  /\ _init (cleanup app) = _init app
  /\ _started (cleanup app) = _started app
  /\ _stopped (cleanup app) = true
  /\ _stopRequested (cleanup app) = _stopRequested app
  /\ camInfo (cleanup app) = camInfo app.
Proof. repeat split; reflexivity. Qed.

Lemma requestStop_status app :
  _frequency (requestStop app) = _frequency app
  /\ _init (requestStop app) = _init app
  /\ _started (requestStop app) = _started app
  /\ (_stopped app = true -> _stopped (requestStop app) = true)
  /\ _stopRequested (requestStop app) = true
  /\ camInfo (requestStop app) = camInfo app
  /\ framesEntered (requestStop app) = framesEntered app.
Proof.
  destruct app as [f i st sp rq c ev].
  unfold requestStop, isStarted, set_stopRequested. cbn [_started].
  destruct st; cbn [negb]; repeat split; auto.
  match goal with
  | |- framesEntered (cleanup ?a) = _ => rewrite (framesEntered_cleanup a)
  end. reflexivity.
Qed.

Lemma cleanups_emit app e :
  cleanups (emit app e) = (cleanups app + if isCleanup e then 1 else 0)%nat.
Proof.
  unfold cleanups, emit. cbn [events].
  rewrite filter_app, length_app. cbn [filter].
  destruct (isCleanup e); reflexivity.
Qed.

Lemma cleanups_cleanup app : cleanups (cleanup app) = S (cleanups app).
Proof.
  unfold cleanups. rewrite events_cleanup, filter_app, length_app. cbn. lia.
Qed.

Section Loop.

Variable atanDeg : Q -> Q.
Variable sqrt : Q -> Q.
Variable sensorAnswer : Event -> XnStatus.

(** What an iteration that goes on has done. *)
Lemma loopIteration_continue app firstLoop fr app' firstLoop' :
  loopIteration atanDeg sqrt app firstLoop fr = Some (Continue app' firstLoop') ->
  _stopRequested app = false
  /\ currentUser atanDeg sqrt (_frequency app) firstLoop (user (camInfo app)) fr
     = Some (user (camInfo app'))
  /\ events app'
     = events app ++ WaitAnyUpdateAll :: (if firstLoop then [Message Started] else [])
  /\ _frequency app' = _frequency app
  /\ _init app' = _init app
  /\ _started app' = (firstLoop || _started app)
  /\ _stopped app' = _stopped app
  /\ _stopRequested app' = false
  /\ firstLoop' = false.
Proof.
  unfold loopIteration. intro H.
  destruct (_stopRequested app) eqn:Ereq; [discriminate|].
  cbn [_frequency emit set_camInfo camInfo] in H.
  destruct (currentUser atanDeg sqrt (_frequency app) firstLoop (user (camInfo app)) fr)
    as [u|]; cbn [bind] in H; [|discriminate].
  destruct firstLoop; inversion H; subst; cbn;
    rewrite <- ?app_assoc; repeat split; auto.
Qed.

Lemma loopIteration_break app firstLoop fr app' :
  loopIteration atanDeg sqrt app firstLoop fr = Some (Break app') ->
  _stopRequested app = true /\ app' = cleanup app.
Proof.
  unfold loopIteration. intro H.
  destruct (_stopRequested app) eqn:Ereq.
  - inversion H. split; reflexivity.
  - cbn [_frequency emit set_camInfo camInfo] in H.
    destruct (currentUser _ _ _ _ _ _); cbn [bind] in H; [|discriminate].
    destruct firstLoop; discriminate.
Qed.

Lemma framesEntered_continue app firstLoop fr app' firstLoop' :
  loopIteration atanDeg sqrt app firstLoop fr = Some (Continue app' firstLoop') ->
  framesEntered app' = S (framesEntered app).
Proof.
  intro H. apply loopIteration_continue in H.
  destruct H as [_ [_ [Hev _]]].
  unfold framesEntered. rewrite Hev, filter_app, length_app.
  destruct firstLoop; cbn; lia.
Qed.

Lemma frameLoop_frames_mono inputs : forall app firstLoop o,
  frameLoop atanDeg sqrt app firstLoop inputs = Some o ->
  (framesEntered app <= framesEntered (outcomeApp o))%nat.
Proof.
  induction inputs as [|input rest IH]; intros app firstLoop o H.
  - cbn in H. inversion H. cbn. lia.
  - destruct input as [fr|]; cbn [frameLoop] in H.
    + destruct (loopIteration atanDeg sqrt app firstLoop fr) as [[app' fl'|app']|] eqn:E;
        [| |discriminate].
      * apply framesEntered_continue in E. apply IH in H. lia.
      * inversion H; subst o. cbn [outcomeApp].
        apply loopIteration_break in E. destruct E as [_ ->].
        rewrite framesEntered_cleanup. lia.
    + apply IH in H.
      destruct (requestStop_status app) as [_ [_ [_ [_ [_ [_ Hfr]]]]]]. lia.
Qed.

(** X17.  The counter of frames without move counts frames: over any run
    of the frame loop that starts with a counter that is not negative,
    the counter stays non-negative and grows by at most the number of
    frames the loop waited for, so it cannot overflow before 2^31
    frames. *)
Theorem frameLoop_counter inputs : forall app firstLoop o,
  frameLoop atanDeg sqrt app firstLoop inputs = Some o ->
  (0 <= numberOfFramesWithoutMove (user (camInfo app)))%Z ->
  (0 <= numberOfFramesWithoutMove (user (camInfo (outcomeApp o)))
   <= numberOfFramesWithoutMove (user (camInfo app))
      + Z.of_nat (framesEntered (outcomeApp o) - framesEntered app))%Z.
Proof.
  induction inputs as [|input rest IH]; intros app firstLoop o H H0.
  - cbn in H. inversion H; subst o. cbn [outcomeApp]. lia.
  - destruct input as [fr|]; cbn [frameLoop] in H.
    + destruct (loopIteration atanDeg sqrt app firstLoop fr) as [[app' fl'|app']|] eqn:E;
        [| |discriminate].
      * pose proof (framesEntered_continue _ _ _ _ _ E) as Hn.
        pose proof (loopIteration_continue _ _ _ _ _ E) as [_ [Hu _]].
        apply currentUser_frames in Hu.
        assert (Hc : (0 <= numberOfFramesWithoutMove (user (camInfo app'))
                      <= numberOfFramesWithoutMove (user (camInfo app)) + 1)%Z).
        { rewrite Hu.
          destruct (negb firstLoop && negb (firstTrackingID fr =? 0)%Z); [|lia].
          destruct (negb (walkSpeed (user (camInfo app)) =? -1)%Z
                    && (walkSpeed (user (camInfo app)) <=? MIN_COMPUTED_WALKSPEED)%Z);
            lia. }
        specialize (IH app' fl' o H ltac:(lia)).
        assert (Hmono : (framesEntered app' <= framesEntered (outcomeApp o))%nat).
        { exact (frameLoop_frames_mono rest app' fl' o H). }
        lia.
      * inversion H; subst o. cbn [outcomeApp].
        apply loopIteration_break in E. destruct E as [_ ->].
        rewrite framesEntered_cleanup. cbn. lia.
    + destruct (requestStop_status app) as [_ [_ [_ [_ [_ [Hcam Hfr]]]]]].
      specialize (IH (requestStop app) firstLoop o H).
      rewrite Hcam, Hfr in IH. apply IH. exact H0.
Qed.

(** What a run of the frame loop keeps of the status. *)
Lemma frameLoop_status_kept inputs : forall app firstLoop o,
  frameLoop atanDeg sqrt app firstLoop inputs = Some o ->
  _frequency (outcomeApp o) = _frequency app
  /\ _init (outcomeApp o) = _init app
  /\ (_started app = true -> _started (outcomeApp o) = true)
  /\ (_stopped app = true -> _stopped (outcomeApp o) = true)
  /\ (_stopRequested app = true -> _stopRequested (outcomeApp o) = true).
Proof.
  induction inputs as [|input rest IH]; intros app firstLoop o H.
  - cbn in H. inversion H; subst o. cbn [outcomeApp]. repeat split; auto.
  - destruct input as [fr|]; cbn [frameLoop] in H.
    + destruct (loopIteration atanDeg sqrt app firstLoop fr) as [[app' fl'|app']|] eqn:E;
        [| |discriminate].
      * apply loopIteration_continue in E.
        destruct E as [Hreq [_ [_ [Hf [Hi [Hst [Hsp [Hrq _]]]]]]]].
        destruct (IH app' fl' o H) as [IHf [IHi [IHst [IHsp IHrq]]]].
        repeat split; try congruence.
        -- intro Hs. apply IHst. rewrite Hst, Hs. apply orb_true_r.
        -- intro Hs. apply IHsp. congruence.
      * inversion H; subst o. cbn [outcomeApp].
        apply loopIteration_break in E. destruct E as [_ ->].
        repeat split; auto.
    + destruct (requestStop_status app) as [Hf [Hi [Hst [Hsp [Hrq _]]]]].
      destruct (IH (requestStop app) firstLoop o H) as [IHf [IHi [IHst [IHsp IHrq]]]].
      repeat split; try congruence.
      * intro Hs. apply IHst. congruence.
      * intro Hs. apply IHsp. auto.
      * intros _. apply IHrq. exact Hrq.
Qed.

(** X18.  The status flags only ever go up: over any run of the frame
    loop an application that is started stays started, one that is
    stopped stays stopped, a stop that is requested stays requested, and
    neither the frequency nor the initialized flag changes. *)
Theorem frameLoop_flags inputs : forall app firstLoop o,
  frameLoop atanDeg sqrt app firstLoop inputs = Some o ->
  _frequency (outcomeApp o) = _frequency app
  /\ _init (outcomeApp o) = _init app
  /\ (_started app = true -> _started (outcomeApp o) = true)
  /\ (_stopped app = true -> _stopped (outcomeApp o) = true)
  /\ (_stopRequested app = true -> _stopRequested (outcomeApp o) = true).
Proof. exact (frameLoop_status_kept inputs). Qed.

(** X19.  A stop request takes effect at the next stop test.  A request
    that is recorded when the loop makes its test lets no frame through:
    the loop is left at once, whatever frames would follow.  On a
    started application a request made during a pass, while the loop
    waits for a frame or works on it, lets that frame through: the
    frames up to and including that one are processed and published as
    without the request, and the loop is left at the next test, with the
    application stopped, without waiting for another frame. *)
Theorem timedLoop_after_stop_request :
  (forall app firstLoop passes,
     _stopRequested app = true ->
     timedLoop atanDeg sqrt app firstLoop passes = Some (Break (cleanup app)))
  /\ (forall before app firstLoop pass rest o,
        _started app = true ->
        _stopRequested app = false ->
        Forall (fun p => stopDuringPass p = false) before ->
        stopDuringPass pass = true ->
        timedLoop atanDeg sqrt app firstLoop (before ++ pass :: rest) = Some o ->
        exists published,
          timedLoop atanDeg sqrt app firstLoop
            (before ++ [mkPass (passFrame pass) false])
          = Some (Continue published false)
          /\ o = Break (cleanup (set_stopRequested published true))
          /\ framesEntered (outcomeApp o)
             = (framesEntered app + length before + 1)%nat
          /\ camInfo (outcomeApp o) = camInfo published
          /\ _stopped (outcomeApp o) = true).
Proof.
  assert (Hset : forall app firstLoop passes,
            _stopRequested app = true ->
            timedLoop atanDeg sqrt app firstLoop passes = Some (Break (cleanup app))).
  { intros app firstLoop passes H. destruct passes; cbn [timedLoop]; rewrite H; reflexivity. }
  split; [exact Hset|].
  induction before as [|p before IH];
    intros app firstLoop pass rest o Hst Hreq Hbefore Hpass H;
    cbn [List.app timedLoop passFrame stopDuringPass] in H |- *;
    rewrite Hreq in H |- *.
  - destruct (loopIteration atanDeg sqrt app firstLoop (passFrame pass))
      as [[app1 fl1|app1]|] eqn:E; [| |discriminate].
    + pose proof (framesEntered_continue _ _ _ _ _ E) as Hn.
      apply loopIteration_continue in E.
      destruct E as [_ [_ [_ [_ [_ [Hs1 [_ [Hr1 Hfl]]]]]]]].
      subst fl1. rewrite Hpass in H.
      assert (Hrs : requestStop app1 = set_stopRequested app1 true).
      { unfold requestStop, isStarted. cbn [set_stopRequested _started].
        rewrite Hs1, Hst, orb_true_r. reflexivity. }
      rewrite Hrs in H. rewrite Hset in H by reflexivity.
      inversion H; subst o. cbn [timedLoop]. rewrite Hr1.
      exists app1. split; [reflexivity|]. split; [reflexivity|].
      cbn [outcomeApp]. rewrite framesEntered_cleanup.
      split; [unfold framesEntered in *; cbn [set_stopRequested events]; cbn [length]; lia|].
      split; reflexivity.
    + apply loopIteration_break in E. destruct E as [E _]. congruence.
  - inversion Hbefore as [|? ? Hp Hrest]; subst.
    destruct (loopIteration atanDeg sqrt app firstLoop (passFrame p))
      as [[app1 fl1|app1]|] eqn:E; [| |discriminate].
    + pose proof (framesEntered_continue _ _ _ _ _ E) as Hn.
      apply loopIteration_continue in E.
      destruct E as [_ [_ [_ [_ [_ [Hs1 [_ [Hr1 Hfl]]]]]]]].
      subst fl1. rewrite Hp in H |- *.
      assert (Hst1 : _started app1 = true).
      { rewrite Hs1, Hst. apply orb_true_r. }
      destruct (IH app1 false pass rest o Hst1 Hr1 Hrest Hpass H)
        as [published [Hpub [Ho [Hfr Hcam]]]].
      exists published. split; [exact Hpub|]. split; [exact Ho|].
      split; [cbn [length]; lia | exact Hcam].
    + apply loopIteration_break in E. destruct E as [E _]. congruence.
Qed.

(** X20.  The application is started once the first iteration is
    complete: after a run that begins, with no stop requested, with a
    frame that the first iteration takes, [isStarted] answers true. *)
Theorem frameLoop_started app fr rest o :
  _stopRequested app = false ->
  frameLoop atanDeg sqrt app true (FrameReady fr :: rest) = Some o ->
  isStarted (outcomeApp o) = true.
Proof.
  intros Hreq H. cbn [frameLoop] in H.
  destruct (loopIteration atanDeg sqrt app true fr) as [[app' fl'|app']|] eqn:E;
    [| |discriminate].
  - apply loopIteration_continue in E.
    destruct E as [_ [_ [_ [_ [_ [Hst _]]]]]].
    destruct (frameLoop_status_kept rest app' fl' o H) as [_ [_ [Hmono _]]].
    apply Hmono. rewrite Hst. reflexivity.
  - apply loopIteration_break in E. destruct E as [E _]. congruence.
Qed.


(** X21.  [start] refuses to run the loop unless the application is
    initialized and the sensor starts generating: whenever a call of
    [start] has waited for a frame, the application was initialized, the
    sensor answered [XN_STATUS_OK] to [StartGeneratingAll], and that is
    the status returned.  On an application that is not initialized the
    status is 5 and no sensor call is made. *)
Theorem start_guards app inputs app' status :
  start atanDeg sqrt sensorAnswer app inputs = Some (app', status) ->
  ((framesEntered app < framesEntered app')%nat ->
   _init app = true
   /\ sensorAnswer StartGeneratingAll = XN_STATUS_OK
   /\ status = XN_STATUS_OK)
  /\ (_init app = false ->
      status = 5%Z /\ events app' = events app ++ [Message NotInitialized]).
Proof.
  unfold start. intro H.
  destruct (_init app); cbn [negb] in H.
  - split; [|discriminate].
    destruct (sensorAnswer StartGeneratingAll =? XN_STATUS_OK)%Z eqn:Eok;
      cbn [negb] in H.
    + apply Z.eqb_eq in Eok.
      destruct (frameLoop _ _ _ _ _) as [o|]; cbn [bind] in H; [|discriminate].
      inversion H; subst. intros _. repeat split; assumption.
    + inversion H; subst. rewrite !framesEntered_emit. cbn. lia.
  - inversion H; subst. split.
    + rewrite framesEntered_emit. cbn. lia.
    + intros _. split; reflexivity.
Qed.

(** X22.  A stop requested before [start] makes [cleanup] run twice: once
    inside [requestStop] and once more when a later [start] reaches the
    first test of the loop, so that the sensor handles are released a
    second time. *)
Theorem start_after_requestStop_cleans_twice app fr rest :
  isStarted app = false ->
  _init app = true ->
  sensorAnswer StartGeneratingAll = XN_STATUS_OK ->
  exists app',
    start atanDeg sqrt sensorAnswer (requestStop app) (FrameReady fr :: rest)
    = Some (app', XN_STATUS_OK)
    /\ cleanups app' = (cleanups app + 2)%nat
    /\ framesEntered app' = framesEntered app.
Proof.
  intros Hst Hinit Hok.
  assert (Happ : requestStop app = cleanup (set_stopRequested app true)).
  { unfold requestStop. unfold isStarted in *. cbn. rewrite Hst. reflexivity. }
  unfold start. rewrite Happ.
  destruct (status_cleanup (set_stopRequested app true)) as [_ [Hi _]].
  rewrite Hi. cbn [set_stopRequested _init]. rewrite Hinit, Hok. cbn [negb Z.eqb].
  cbn [frameLoop]. unfold loopIteration.
  replace (_stopRequested _) with true by reflexivity.
  cbn [bind outcomeApp].
  eexists. split; [reflexivity|].
  rewrite cleanups_cleanup, framesEntered_cleanup.
  rewrite !cleanups_emit, !framesEntered_emit.
  rewrite cleanups_cleanup, framesEntered_cleanup.
  cbn. split; [unfold cleanups|unfold framesEntered]; cbn [events]; lia.
Qed.

End Loop.

(** ** The callbacks *)

Section CallbackProperties.

Variable sensorAnswer : Event -> XnStatus.

(** What [startCalibration] and [startTracking] leave behind. *)
Lemma startCalibration_effect app userID :
  status (fst (startCalibration sensorAnswer app userID)) = status app
  /\ events (fst (startCalibration sensorAnswer app userID))
     = events app
       ++ CallStartCalibration userID
          :: (if _started app then [RequestCalibration userID] else []).
Proof.
  unfold startCalibration, status, emit. cbn [_started].
  destruct (_started app); cbn; rewrite <- ?app_assoc; split; reflexivity.
Qed.

Lemma startTracking_effect app userID :
  status (fst (startTracking sensorAnswer app userID)) = status app
  /\ events (fst (startTracking sensorAnswer app userID))
     = events app
       ++ CallStartTracking userID
          :: (if _started app then [StartTracking userID] else []).
Proof.
  unfold startTracking, status, emit. cbn [_started].
  destruct (_started app); cbn; rewrite <- ?app_assoc; split; reflexivity.
Qed.

(** X23.  The four callbacks that the sensor calls leave the status of
    the application alone: the flags, the frequency and the published
    user are as before, the only events added are requests for
    calibration or tracking and lines of the log, and as long as the
    application is not started no request reaches the sensor. *)
Theorem callbacks_keep_status app userID calibrationStatus :
  callbackEffect app (fst (newUserCallback sensorAnswer (Some app) userID))
  /\ callbackEffect app (fst (lostUserCallback (Some app) userID))
  /\ callbackEffect app (fst (calibrationStartCallback (Some app) userID))
  /\ callbackEffect app
       (calibrationEndCallback sensorAnswer (Some app) userID calibrationStatus).
Proof.
  unfold callbackEffect.
  destruct (startCalibration_effect app userID) as [Hcs Hce].
  destruct (startTracking_effect
              (emit app (Message (CalibrationComplete userID))) userID) as [Hts Hte].
  destruct (startCalibration_effect
              (emit app (Message (CalibrationFailed userID))) userID) as [Hfs Hfe].
  repeat split.
  - cbn [newUserCallback fst]. eexists. eexists.
    split; [reflexivity|]. split; [exact Hcs|]. split; [exact Hce|].
    destruct (_started app); split; try reflexivity; discriminate.
  - cbn [lostUserCallback fst]. exists app, [].
    rewrite app_nil_r. repeat split; reflexivity.
  - cbn [calibrationStartCallback fst]. exists app, [].
    rewrite app_nil_r. repeat split; reflexivity.
  - unfold calibrationEndCallback. cbn [bind].
    destruct (calibrationStatus_eqb calibrationStatus XN_CALIBRATION_STATUS_OK).
    + eexists. eexists. split; [reflexivity|].
      split; [rewrite Hts; reflexivity|].
      split; [rewrite Hte; cbn [emit events _started]; rewrite <- app_assoc; reflexivity|].
      destruct (_started app); split; try reflexivity; discriminate.
    + destruct (calibrationStatus_eqb calibrationStatus XN_CALIBRATION_STATUS_MANUAL_ABORT).
      * eexists. eexists. split; [reflexivity|].
        split; [reflexivity|].
        split; [cbn [emit events]; rewrite <- app_assoc; reflexivity|].
        split; reflexivity.
      * eexists. eexists. split; [reflexivity|].
        split; [rewrite Hfs; reflexivity|].
        split; [rewrite Hfe; cbn [emit events _started]; rewrite <- app_assoc; reflexivity|].
        destruct (_started app); split; try reflexivity; discriminate.
Qed.

(** A new user is sent to calibration, never to tracking: when the
    application is started [newUserCallback] asks the sensor to
    calibrate that user and nobody else; before that it asks for
    nothing; without an application behind the cookie it only logs
    that. *)
Lemma newUserCallback_spec userID :
  newUserCallback sensorAnswer None userID = (None, [CannotGetApplication])
  /\ forall app, exists app',
      newUserCallback sensorAnswer (Some app) userID = (Some app', [NewUser userID])
      /\ filter isSensorRequest (skipn (length (events app)) (events app'))
         = (if isStarted app then [RequestCalibration userID] else [])
      /\ filter isTrackingEvent (skipn (length (events app)) (events app')) = [].
Proof.
  split; [reflexivity|]. intro app.
  eexists. split; [reflexivity|].
  destruct (startCalibration_effect app userID) as [_ He].
  rewrite He, skipn_app, Nat.sub_diag, skipn_all. cbn [skipn List.app].
  unfold isStarted. destruct (_started app); split; reflexivity.
Qed.

End CallbackProperties.

(** ** The rotation of an orientation matrix *)

Import Orientation.

Lemma freduceAngle_fin (q : Q) : freduceAngle (Fin q) = Fin (reduceAngle q).
Proof.
  unfold freduceAngle, reduceAngle. cbn [fleb fltb fsub fadd fopp].
  destruct (Qle_bool 360 q); [reflexivity|].
  destruct (Qlt_bool q 0); reflexivity.
Qed.

Lemma reduceAngle_range (q : Q) :
  - 360 <= q < 720 -> 0 <= reduceAngle q < 360.
Proof.
  intro H. unfold reduceAngle.
  destruct (Qle_bool 360 q) eqn:E1; [|destruct (Qlt_bool q 0) eqn:E2];
    qprop; lra.
Qed.

Lemma fadd_nan_r (a : float) : fadd a NaN = NaN.
Proof. destruct a; reflexivity. Qed.

Lemma rotation_of_nan_z (xRot : float) :
  fdiv (fadd xRot (freduceAngle NaN)) (Fin 2) = NaN.
Proof. change (freduceAngle NaN) with NaN. rewrite fadd_nan_r. reflexivity. Qed.

Section OrientationMatrix.

Variable acosDeg : Q -> float.
Variable asin : Q -> float.
Variable RAD2DEG : Q.

Hypothesis acosDeg_range :
  forall q, acosDeg q = NaN \/ exists r, acosDeg q = Fin r /\ 0 <= r <= 180.
Hypothesis asin_range :
  forall q, asin q = NaN \/ exists r, asin q = Fin r /\ - 2 <= r <= 2.
Hypothesis asin_domain : forall q, 1 < Qabs q -> asin q = NaN.
Hypothesis RAD2DEG_value : 57 < RAD2DEG.

(** X24.  [orientationMatrixToRotation] answers an angle of [0,360) or
    NaN, never an infinity and never an angle outside of the turn, for
    every matrix of finite components. *)
Theorem orientationMatrixToRotation_range (orientation : nat -> Q) :
  orientationMatrixToRotation acosDeg asin RAD2DEG orientation = NaN
  \/ exists r,
       orientationMatrixToRotation acosDeg asin RAD2DEG orientation = Fin r
       /\ 0 <= r < 360.
Proof.
  unfold orientationMatrixToRotation.
  destruct (acosDeg_range (orientation 0%nat)) as [-> | [x [-> Hx]]].
  - left. destruct (Qlt_bool (orientation 6%nat) 0); reflexivity.
  - destruct (asin_range (orientation 8%nat * RAD2DEG)) as [-> | [z [-> Hz]]].
    + left. cbn [fltb fabs]. apply rotation_of_nan_z.
    + right.
      assert (Hxr : exists x', (if Qlt_bool (orientation 6%nat) 0
                                then fsub (Fin 360) (Fin x) else Fin x) = Fin x'
                               /\ 0 <= x' <= 360).
      { destruct (Qlt_bool (orientation 6%nat) 0).
        - eexists. split; [reflexivity|]. lra.
        - eexists. split; [reflexivity|]. lra. }
      destruct Hxr as [x' [-> Hx']].
      assert (Hzr : exists z', (if fltb (Fin 0) (Fin z)
                                then fsub (Fin 360) (Fin z) else fabs (Fin z)) = Fin z'
                               /\ 0 <= z' <= 360).
      { cbn [fltb]. destruct (Qlt_bool 0 z) eqn:E; qprop.
        - eexists. split; [reflexivity|]. lra.
        - eexists. split; [reflexivity|].
          destruct (Qabs_cases z) as [[? ->] | [? ->]]; lra. }
      destruct Hzr as [z' [-> Hz']].
      rewrite !freduceAngle_fin.
      pose proof (reduceAngle_range x' ltac:(lra)) as Rx.
      pose proof (reduceAngle_range z' ltac:(lra)) as Rz.
      cbn [fadd fdiv]. change (Qeq_bool 2 0) with false. cbn iota.
      eexists. split; [reflexivity|].
      set (a := reduceAngle x') in *. set (b := reduceAngle z') in *.
      split.
      * apply Qle_shift_div_l; lra.
      * apply Qlt_shift_div_r; lra.
Qed.

(** X25.  The arc sine is taken of the Zz component multiplied by
    [RAD2DEG], not of the component: as soon as the component is 1/57 or
    more in absolute value the argument is outside of [-1,1] and the
    function answers NaN, whatever the rest of the matrix. *)
Theorem orientationMatrixToRotation_nan (orientation : nat -> Q) :
  1 / 57 <= Qabs (orientation 8%nat) ->
  orientationMatrixToRotation acosDeg asin RAD2DEG orientation = NaN.
Proof.
  intro H8. unfold orientationMatrixToRotation.
  rewrite asin_domain.
  - cbn [fltb fabs]. apply rotation_of_nan_z.
  - rewrite Qabs_Qmult.
    assert (HR : Qabs RAD2DEG == RAD2DEG) by (apply Qabs_pos; lra).
    rewrite HR.
    set (a := Qabs (orientation 8%nat)) in *.
    assert (Ha : 1 <= 57 * a).
    { assert (E : 1 == 57 * (1 / 57)) by reflexivity. lra. }
    nra.
Qed.

End OrientationMatrix.

Lemma sample_acosDeg_range q :
  Sample.acosDeg q = NaN \/ exists r, Sample.acosDeg q = Fin r /\ 0 <= r <= 180.
Proof.
  unfold Sample.acosDeg. destruct (Qle_bool (Qabs q) 1) eqn:E; [|left; reflexivity].
  right. eexists. split; [reflexivity|]. qprop.
  destruct (Qabs_cases q) as [[? Ha] | [? Ha]]; rewrite Ha in E; lra.
Qed.

Lemma sample_asin_range q :
  Sample.asin q = NaN \/ exists r, Sample.asin q = Fin r /\ - 2 <= r <= 2.
Proof.
  unfold Sample.asin. destruct (Qle_bool (Qabs q) 1) eqn:E; [|left; reflexivity].
  right. eexists. split; [reflexivity|]. qprop.
  destruct (Qabs_cases q) as [[? Ha] | [? Ha]]; rewrite Ha in E; lra.
Qed.

Lemma sample_asin_domain q : 1 < Qabs q -> Sample.asin q = NaN.
Proof.
  intro H. unfold Sample.asin.
  destruct (Qle_bool (Qabs q) 1) eqn:E; [|reflexivity]. qprop. lra.
Qed.

(** A sample run of X24: a matrix whose Zz component is 0.01. *)
Lemma orientationMatrixToRotation_range_witness :
  orientationMatrixToRotation Sample.acosDeg Sample.asin Sample.RAD2DEG
    Sample.smallZz = NaN
  \/ exists r,
       orientationMatrixToRotation Sample.acosDeg Sample.asin Sample.RAD2DEG
         Sample.smallZz = Fin r
       /\ 0 <= r < 360.
Proof.
  apply orientationMatrixToRotation_range.
  - exact sample_acosDeg_range.
  - exact sample_asin_range.
Defined.

(** A sample run of X25: the identity matrix. *)
Lemma orientationMatrixToRotation_nan_witness :
  orientationMatrixToRotation Sample.acosDeg Sample.asin Sample.RAD2DEG
    Sample.identityMatrix = NaN.
Proof.
  apply orientationMatrixToRotation_nan.
  - exact sample_asin_domain.
  - reflexivity.
  - cbv. discriminate.
Defined.

(** ** Initialization *)

Import OpenNISetup.

Lemma check_cases {A : Type} a c status (k : Application -> Flow A) :
  (status <> XN_STATUS_OK
   /\ check a c status k = Return (call (call a c) (Log (Failed status))) status)
  \/ (status = XN_STATUS_OK /\ check a c status k = k (call a c)).
Proof.
  unfold check. destruct (status =? XN_STATUS_OK)%Z eqn:E; cbn [negb].
  - right. apply Z.eqb_eq in E. split; [exact E | reflexivity].
  - left. apply Z.eqb_neq in E. split; [exact E | reflexivity].
Qed.

Ltac check_step H :=
  match type of H with
  | check ?a ?c ?s ?k = _ =>
      let E := fresh "E" in
      let Hs := fresh "Hs" in
      destruct (check_cases a c s k) as [[Hs E] | [Hs E]];
      rewrite E in H; clear E; cbv beta in H
  end.

Lemma createDevice_next env a it a' status :
  createDevice env a it = Next a' status ->
  status = XN_STATUS_OK
  /\ app a' = app a
  /\ _useAKinect a' = _useAKinect a
  /\ nodeInfo (_sensor a') = Some it
  /\ calls a' = calls a ++ deviceCalls env a it
  /\ isCapabilitySupported env = true
  /\ needPoseForCalibration env = false.
Proof.
  destruct a as [p u [cp mp fs ni ku] cs].
  unfold createDevice. cbv zeta. intro H.
  do 6 (check_step H; [discriminate|]).
  destruct (isCapabilitySupported env); cbn [negb] in H; [|discriminate].
  destruct (needPoseForCalibration env); [discriminate|].
  inversion H; subst; clear H.
  unfold deviceCalls. cbn [_useAKinect _sensor call set_nodeInfo set_kinectUSB
    motorPath firstSensor cameraPath initialized app nodeInfo calls kinectUSB].
  destruct u; [destruct (usbInit env mp); [destruct fs|]|];
    cbn; rewrite <- ?app_assoc; cbn [List.app]; repeat split; try assumption;
    reflexivity.
Qed.

Lemma createDevice_return env a it a' status :
  createDevice env a it = Return a' status ->
  status <> XN_STATUS_OK
  /\ app a' = app a
  /\ _useAKinect a' = _useAKinect a
  /\ nodeInfo (_sensor a') = Some it
  /\ filter isKinectCall (calls a') = filter isKinectCall (calls a).
Proof.
  destruct a as [p u [cp mp fs ni ku] cs].
  unfold createDevice. cbv zeta. intro H.
  repeat (check_step H;
          [inversion H; subst; clear H; cbn;
           rewrite ?filter_app; cbn; rewrite ?app_nil_r;
           repeat split; try assumption; reflexivity|]).
  destruct (isCapabilitySupported env); cbn [negb] in H.
  - destruct (needPoseForCalibration env); [|discriminate].
    inversion H; subst; clear H. cbn.
    rewrite ?filter_app; cbn; rewrite ?app_nil_r.
    repeat split; try reflexivity. discriminate.
  - inversion H; subst; clear H. cbn.
    rewrite ?filter_app; cbn; rewrite ?app_nil_r.
    repeat split; try reflexivity. discriminate.
Qed.

Lemma searchDevice_find env a status devices :
  searchDevice env a status devices
  = match find (fun it => String.eqb (creationInfo it) (cameraPath (_sensor a)))
                devices with
    | Some it => createDevice env a it
    | None => Next a status
    end.
Proof.
  induction devices as [|it rest IH]; [reflexivity|].
  cbn [searchDevice find].
  destruct (String.eqb (creationInfo it) (cameraPath (_sensor a))); [reflexivity|].
  exact IH.
Qed.

Lemma sensor_call a c : _sensor (call a c) = _sensor a.
Proof. reflexivity. Qed.

(** What [init] does as a whole, in terms of the flow of its body. *)
Lemma init_unfold env a :
  _init (app a) = false ->
  let depthKey :=
    if firstSensor (_sensor a) then SHARED_MEM_DEPTH_1 else SHARED_MEM_DEPTH_2 in
  let infoKey :=
    if firstSensor (_sensor a) then SHARED_MEM_INFO_1 else SHARED_MEM_INFO_2 in
  let a1 := call a (AttachMemory depthKey) in
  let a2 := call a1 (AttachMemory infoKey) in
  let a3 := call (call (call a2 (Log Initializing)) ContextInit)
                 EnumerateProductionTrees in
  init env a
  = if negb (attach env depthKey) then (call a1 (Log DepthMemoryFailed), 10%Z)
    else if negb (attach env infoKey) then (call a2 (Log InfoMemoryFailed), 11%Z)
    else if negb (contextInit env =? XN_STATUS_OK)%Z
    then (call (call (call a2 (Log Initializing)) ContextInit)
               (Log (Failed (contextInit env))), contextInit env)
    else if negb (enumerateProductionTrees env =? XN_STATUS_OK)%Z
    then (call a3 (Log (Failed (enumerateProductionTrees env))),
          enumerateProductionTrees env)
    else
      match searchDevice env a3 (enumerateProductionTrees env) (devicesList env) with
      | Return a' status => (a', status)
      | Next a' status =>
          match nodeInfo (_sensor a') with
          | None => (call a' (Log DeviceMissing), 4%Z)
          | Some _ => (set_init a' true, status)
          end
      end.
Proof.
  intro Hinit. cbv zeta. unfold init, check. rewrite Hinit.
  destruct (negb (attach env _)); [reflexivity|].
  destruct (negb (attach env _)); [reflexivity|].
  destruct (negb (contextInit env =? XN_STATUS_OK)%Z); [reflexivity|].
  destruct (negb (enumerateProductionTrees env =? XN_STATUS_OK)%Z); reflexivity.
Qed.

(** What [init] does to the state that the frame loop reads. *)
Lemma init_effect env a :
  _init (app (fst (init env a)))
  = (_init (app a) || (snd (init env a) =? XN_STATUS_OK)%Z)
  /\ (_init (app a) = true -> snd (init env a) = 1%Z)
  /\ _frequency (app (fst (init env a))) = _frequency (app a)
  /\ _started (app (fst (init env a))) = _started (app a)
  /\ _stopped (app (fst (init env a))) = _stopped (app a)
  /\ _stopRequested (app (fst (init env a))) = _stopRequested (app a)
  /\ camInfo (app (fst (init env a))) = camInfo (app a)
  /\ events (app (fst (init env a))) = events (app a).
Proof.
  destruct (_init (app a)) eqn:Hinit.
  - unfold init. rewrite Hinit. cbn. rewrite Hinit. repeat split; reflexivity.
  - rewrite (init_unfold env a Hinit). cbv zeta.
    destruct (negb (attach env _));
      [cbn; rewrite Hinit; repeat split; (reflexivity || discriminate)|].
    destruct (negb (attach env _));
      [cbn; rewrite Hinit; repeat split; (reflexivity || discriminate)|].
    destruct (negb (contextInit env =? XN_STATUS_OK)%Z) eqn:E1.
    { cbn [fst snd]. apply negb_true_iff in E1. rewrite E1.
      cbn; rewrite Hinit; repeat split; (reflexivity || discriminate). }
    destruct (negb (enumerateProductionTrees env =? XN_STATUS_OK)%Z) eqn:E2.
    { cbn [fst snd]. apply negb_true_iff in E2. rewrite E2.
      cbn; rewrite Hinit; repeat split; (reflexivity || discriminate). }
    apply negb_false_iff, Z.eqb_eq in E2.
    rewrite searchDevice_find.
    match goal with
    | |- context [find ?f ?l] => destruct (find f l) as [it|]
    end.
    + match goal with
      | |- context [createDevice env ?b it] =>
          destruct (createDevice env b it) as [a' s | a' s] eqn:Ec
      end.
      * apply createDevice_return in Ec.
        destruct Ec as [Hs [Happ _]]. cbn [fst snd].
        apply Z.eqb_neq in Hs. rewrite Hs, Happ. cbn. rewrite Hinit.
        repeat split; (reflexivity || discriminate).
      * apply createDevice_next in Ec.
        destruct Ec as [Hs [Happ [_ [Hn _]]]]. rewrite Hn. cbn [fst snd].
        subst s. cbn. rewrite Happ. cbn.
        repeat split; (reflexivity || discriminate).
    + rewrite !sensor_call.
      destruct (nodeInfo (_sensor a)); cbn [fst snd].
      * rewrite E2. cbn. repeat split; (reflexivity || discriminate).
      * cbn. rewrite Hinit. repeat split; (reflexivity || discriminate).
Qed.

(** X26.  [init] reports success exactly when it marks the application
    as initialized: afterwards the application is initialized if it was
    before or if the status returned is [XN_STATUS_OK], and not
    otherwise; a second [init] of an initialized application returns 1.
    Nothing else of the state that the frame loop reads is changed. *)
Theorem init_status env a :
  _init (app (fst (init env a)))
  = (_init (app a) || (snd (init env a) =? XN_STATUS_OK)%Z)
  /\ (_init (app a) = true -> snd (init env a) = 1%Z)
  /\ _frequency (app (fst (init env a))) = _frequency (app a)
  /\ _started (app (fst (init env a))) = _started (app a)
  /\ _stopped (app (fst (init env a))) = _stopped (app a)
  /\ _stopRequested (app (fst (init env a))) = _stopRequested (app a)
  /\ camInfo (app (fst (init env a))) = camInfo (app a)
  /\ events (app (fst (init env a))) = events (app a).
Proof. exact (init_effect env a). Qed.

Section InitThenStart.

Variable atanDeg : Q -> Q.
Variable sqrt : Q -> Q.
Variable sensorAnswer : Event -> XnStatus.

(** X27.  [start] after an [init] that failed is refused: on an
    application that was not initialized, when [init] returns anything
    but [XN_STATUS_OK], [start] returns 5 without a call to the sensor
    and without waiting for a frame, whatever the frames at hand. *)
Theorem start_after_failed_init env a inputs :
  _init (app a) = false ->
  snd (init env a) <> XN_STATUS_OK ->
  start atanDeg sqrt sensorAnswer (app (fst (init env a))) inputs
  = Some (emit (app (fst (init env a))) (Message NotInitialized), 5%Z)
  /\ events (emit (app (fst (init env a))) (Message NotInitialized))
     = events (app a) ++ [Message NotInitialized].
Proof.
  intros Hinit Hs.
  destruct (init_effect env a) as [Hi [_ [_ [_ [_ [_ [_ He]]]]]]].
  apply Z.eqb_neq in Hs. rewrite Hinit, Hs in Hi. cbn in Hi.
  unfold start. rewrite Hi. cbn [negb].
  split; [reflexivity|]. cbn [emit events]. rewrite He. reflexivity.
Qed.

End InitThenStart.

(** X28.  A successful [init] of an application whose node was never set
    has done all of this, in this order and nothing else: attached both
    memories, initialized the context, listed the devices, and for the
    first device of the list that has the camera path created the
    device and the two generators, registered the three callbacks,
    checked the skeleton capability and set the skeleton profile; with
    Kinect support it then created the USB controller and, if that one
    is initialized, moved the motor to 0 and set the light. *)
Theorem init_success env a :
  _init (app a) = false ->
  nodeInfo (_sensor a) = None ->
  snd (init env a) = XN_STATUS_OK ->
  exists it,
    find (fun it => String.eqb (creationInfo it) (cameraPath (_sensor a)))
         (devicesList env) = Some it
    /\ nodeInfo (_sensor (fst (init env a))) = Some it
    /\ calls (fst (init env a))
       = calls a
         ++ [AttachMemory (if firstSensor (_sensor a)
                           then SHARED_MEM_DEPTH_1 else SHARED_MEM_DEPTH_2);
             AttachMemory (if firstSensor (_sensor a)
                           then SHARED_MEM_INFO_1 else SHARED_MEM_INFO_2);
             Log Initializing; ContextInit; EnumerateProductionTrees]
         ++ deviceCalls env a it
    /\ isCapabilitySupported env = true
    /\ needPoseForCalibration env = false.
Proof.
  intros Hinit Hnode. rewrite (init_unfold env a Hinit). cbv zeta.
  destruct (negb (attach env _)); [discriminate|].
  destruct (negb (attach env _)); [discriminate|].
  destruct (negb (contextInit env =? XN_STATUS_OK)%Z) eqn:E1.
  { cbn [snd]. intro H. rewrite H in E1. discriminate. }
  destruct (negb (enumerateProductionTrees env =? XN_STATUS_OK)%Z) eqn:E2.
  { cbn [snd]. intro H. rewrite H in E2. discriminate. }
  rewrite searchDevice_find. cbn [_sensor call].
  destruct (find _ (devicesList env)) as [it|].
  - match goal with
    | |- context [createDevice env ?b it] =>
        destruct (createDevice env b it) as [a' s | a' s] eqn:Ec
    end.
    + apply createDevice_return in Ec. destruct Ec as [Hs _].
      cbn [snd]. intro H. contradiction.
    + apply createDevice_next in Ec.
      destruct Ec as [Hs [Happ [Hu [Hn [Hc [Hcap Hpose]]]]]].
      rewrite Hn. cbn [fst snd]. intros _.
      exists it. split; [reflexivity|].
      split; [exact Hn|].
      split; [|split; assumption].
      cbn [set_init calls]. rewrite Hc. cbn [call calls].
      rewrite <- !app_assoc. reflexivity.
  - rewrite !sensor_call, Hnode. discriminate.
Qed.

(** X29.  The test for a missing device reads a member that an earlier
    call may have set: once the node is set, an [init] that finds no
    device with the camera path, while the memories attach and the
    context lists the devices, returns [XN_STATUS_OK] and marks the
    application as initialized although it created no device and no
    generator and registered no callback. *)
Theorem init_stale_node env a :
  _init (app a) = false ->
  nodeInfo (_sensor a) <> None ->
  (forall key, attach env key = true) ->
  contextInit env = XN_STATUS_OK ->
  enumerateProductionTrees env = XN_STATUS_OK ->
  find (fun it => String.eqb (creationInfo it) (cameraPath (_sensor a)))
       (devicesList env) = None ->
  snd (init env a) = XN_STATUS_OK
  /\ _init (app (fst (init env a))) = true
  /\ calls (fst (init env a))
     = calls a
       ++ [AttachMemory (if firstSensor (_sensor a)
                         then SHARED_MEM_DEPTH_1 else SHARED_MEM_DEPTH_2);
           AttachMemory (if firstSensor (_sensor a)
                         then SHARED_MEM_INFO_1 else SHARED_MEM_INFO_2);
           Log Initializing; ContextInit; EnumerateProductionTrees].
Proof.
  intros Hinit Hnode Hattach Hctx Henum Hfind.
  rewrite (init_unfold env a Hinit). cbv zeta.
  rewrite !Hattach, Hctx, Henum. cbn [negb Z.eqb XN_STATUS_OK].
  change (XN_STATUS_OK =? XN_STATUS_OK)%Z with true. cbn [negb].
  rewrite searchDevice_find. cbn [_sensor call]. rewrite Hfind.
  rewrite !sensor_call. destruct (nodeInfo (_sensor a)); [|contradiction].
  cbn [fst snd set_init app _init calls call].
  rewrite <- ?app_assoc. repeat split; reflexivity.
Qed.

(** *** The Kinect motor *)

Lemma init_kinect env a :
  _useAKinect a = false ->
  _useAKinect (fst (init env a)) = false
  /\ filter isKinectCall (calls (fst (init env a))) = filter isKinectCall (calls a).
Proof.
  intro Hu.
  destruct (_init (app a)) eqn:Hinit.
  - unfold init. rewrite Hinit. cbn. rewrite filter_app. cbn.
    rewrite app_nil_r. split; [exact Hu | reflexivity].
  - rewrite (init_unfold env a Hinit). cbv zeta.
    destruct (negb (attach env _));
      [cbn; rewrite ?filter_app; cbn; rewrite ?app_nil_r;
       split; [exact Hu | reflexivity]|].
    destruct (negb (attach env _));
      [cbn; rewrite ?filter_app; cbn; rewrite ?app_nil_r;
       split; [exact Hu | reflexivity]|].
    destruct (negb (contextInit env =? XN_STATUS_OK)%Z);
      [cbn; rewrite ?filter_app; cbn; rewrite ?app_nil_r;
       split; [exact Hu | reflexivity]|].
    destruct (negb (enumerateProductionTrees env =? XN_STATUS_OK)%Z);
      [cbn; rewrite ?filter_app; cbn; rewrite ?app_nil_r;
       split; [exact Hu | reflexivity]|].
    rewrite searchDevice_find.
    match goal with
    | |- context [find ?f ?l] => destruct (find f l) as [it|]
    end.
    + match goal with
      | |- context [createDevice env ?b it] =>
          destruct (createDevice env b it) as [a' s | a' s] eqn:Ec
      end.
      * apply createDevice_return in Ec.
        destruct Ec as [_ [_ [Hu' [_ Hk]]]]. cbn [fst].
        rewrite Hu', Hk. cbn. rewrite ?filter_app; cbn; rewrite ?app_nil_r.
        split; [exact Hu | reflexivity].
      * apply createDevice_next in Ec.
        destruct Ec as [_ [_ [Hu' [Hn [Hc _]]]]]. rewrite Hn. cbn [fst].
        cbn [set_init _useAKinect calls]. rewrite Hu', Hc.
        unfold deviceCalls. cbn [_useAKinect call]. rewrite Hu.
        cbn. rewrite ?filter_app; cbn; rewrite ?app_nil_r.
        split; reflexivity.
    + rewrite !sensor_call.
      destruct (nodeInfo (_sensor a)); cbn;
        rewrite ?filter_app; cbn; rewrite ?app_nil_r;
        split; (exact Hu || reflexivity).
Qed.

(** X30.  Without the Kinect support nothing is ever sent to the motor
    or to the light of the Kinect: whatever the calls of [init],
    [moveToAngle] and [setLight] made on an application built with
    [useAKinect] false, and whatever the sensor answers, the calls to
    the Kinect are those made before. *)
Theorem kinect_untouched_without_support ops : forall a,
  _useAKinect a = false ->
  filter isKinectCall (calls (operations a ops)) = filter isKinectCall (calls a).
Proof.
  unfold operations.
  induction ops as [|op rest IH]; intros a Hu; [reflexivity|].
  cbn [fold_left].
  assert (Hstep : _useAKinect (operate a op) = false
                  /\ filter isKinectCall (calls (operate a op))
                     = filter isKinectCall (calls a)).
  { destruct op as [env | angle | type]; cbn [operate].
    - apply init_kinect. exact Hu.
    - unfold moveToAngle, kinectReady. rewrite Hu. cbn.
      rewrite filter_app. cbn. rewrite app_nil_r. split; [exact Hu | reflexivity].
    - unfold setLight, kinectReady. rewrite Hu. cbn.
      rewrite filter_app. cbn. rewrite app_nil_r. split; [exact Hu | reflexivity]. }
  destruct Hstep as [Hu' Hk]. rewrite (IH _ Hu'). exact Hk.
Qed.

(** ** Sample runs *)

(** A sample run of X17. *)
Lemma frameLoop_counter_witness :
  exists o,
    frameLoop Sample.atanDeg Sample.sqrt
      (Sample.appWith false (Sample.previousUser 30 3)) true Sample.shortRun = Some o
    /\ (0 <= numberOfFramesWithoutMove (user (camInfo (outcomeApp o)))
        <= numberOfFramesWithoutMove
             (user (camInfo (Sample.appWith false (Sample.previousUser 30 3))))
           + Z.of_nat (framesEntered (outcomeApp o)
                       - framesEntered (Sample.appWith false (Sample.previousUser 30 3))))%Z.
Proof.
  eexists. split; [vm_compute; reflexivity|].
  apply (frameLoop_counter Sample.atanDeg Sample.sqrt Sample.shortRun
           (Sample.appWith false (Sample.previousUser 30 3)) true).
  - vm_compute. reflexivity.
  - vm_compute. discriminate.
Defined.

(** A sample run of X18. *)
Lemma frameLoop_flags_witness :
  exists o,
    frameLoop Sample.atanDeg Sample.sqrt
      (Sample.appWith false (Sample.previousUser 30 3)) true Sample.shortRun = Some o
    /\ _frequency (outcomeApp o) = 10%Z
    /\ _init (outcomeApp o) = true.
Proof.
  eexists. split; [vm_compute; reflexivity|].
  match goal with
  | |- _frequency (outcomeApp ?o) = _ /\ _ =>
      pose proof (frameLoop_flags Sample.atanDeg Sample.sqrt Sample.shortRun
                    (Sample.appWith false (Sample.previousUser 30 3)) true o) as H
  end.
  destruct H as [H1 [H2 _]]; [vm_compute; reflexivity|].
  split; [exact H1 | exact H2].
Defined.

(** A sample run of X19: on a started application [requestStop] is
    called during the second of three passes; the third frame is never
    waited for. *)
Lemma timedLoop_after_stop_request_witness :
  exists o published,
    timedLoop Sample.atanDeg Sample.sqrt
      (Sample.appWith true (Sample.previousUser 30 3)) false Sample.passes = Some o
    /\ timedLoop Sample.atanDeg Sample.sqrt
         (Sample.appWith true (Sample.previousUser 30 3)) false
         ([mkPass Sample.frame false]
          ++ [mkPass (passFrame (mkPass Sample.laterFrame true)) false])
       = Some (Continue published false)
    /\ o = Break (cleanup (set_stopRequested published true))
    /\ framesEntered (outcomeApp o)
       = (framesEntered (Sample.appWith true (Sample.previousUser 30 3))
          + length [mkPass Sample.frame false] + 1)%nat
    /\ camInfo (outcomeApp o) = camInfo published
    /\ _stopped (outcomeApp o) = true.
Proof.
  eexists.
  assert (Hrun : timedLoop Sample.atanDeg Sample.sqrt
                   (Sample.appWith true (Sample.previousUser 30 3)) false Sample.passes
                 = Some ?[o]) by (vm_compute; reflexivity).
  destruct (proj2 (timedLoop_after_stop_request Sample.atanDeg Sample.sqrt)
              [mkPass Sample.frame false]
              (Sample.appWith true (Sample.previousUser 30 3)) false
              (mkPass Sample.laterFrame true) [mkPass Sample.laterFrame false]
              _ eq_refl eq_refl
              (Forall_cons (mkPass Sample.frame false) eq_refl (Forall_nil _)) eq_refl Hrun)
    as [published H].
  exists published. split; [exact Hrun | exact H].
Defined.

(** A sample run of X20. *)
Lemma frameLoop_started_witness :
  exists o,
    frameLoop Sample.atanDeg Sample.sqrt
      (Sample.appWith false (Sample.previousUser 30 3)) true Sample.shortRun = Some o
    /\ isStarted (outcomeApp o) = true.
Proof.
  eexists. split; [vm_compute; reflexivity|].
  apply (frameLoop_started Sample.atanDeg Sample.sqrt
           (Sample.appWith false (Sample.previousUser 30 3))
           Sample.frame (tl Sample.shortRun)).
  - reflexivity.
  - vm_compute. reflexivity.
Defined.

(** A sample run of X21: [start] on the short run. *)
Lemma start_guards_witness :
  exists app' status,
    start Sample.atanDeg Sample.sqrt Sample.sensorAnswer
      (Sample.appWith false (Sample.previousUser 30 3)) Sample.shortRun
    = Some (app', status)
    /\ ((framesEntered (Sample.appWith false (Sample.previousUser 30 3))
         < framesEntered app')%nat ->
        _init (Sample.appWith false (Sample.previousUser 30 3)) = true
        /\ Sample.sensorAnswer StartGeneratingAll = XN_STATUS_OK
        /\ status = XN_STATUS_OK)
    /\ (_init (Sample.appWith false (Sample.previousUser 30 3)) = false ->
        status = 5%Z
        /\ events app'
           = events (Sample.appWith false (Sample.previousUser 30 3))
             ++ [Message NotInitialized]).
Proof.
  eexists. eexists. split; [vm_compute; reflexivity|].
  apply (start_guards Sample.atanDeg Sample.sqrt Sample.sensorAnswer
           (Sample.appWith false (Sample.previousUser 30 3)) Sample.shortRun).
  vm_compute. reflexivity.
Defined.

(** A sample run of X22. *)
Lemma start_after_requestStop_cleans_twice_witness :
  exists app',
    start Sample.atanDeg Sample.sqrt Sample.sensorAnswer
      (requestStop (Sample.appWith false (Sample.previousUser 30 3)))
      (FrameReady Sample.frame :: tl Sample.shortRun)
    = Some (app', XN_STATUS_OK)
    /\ cleanups app'
       = (cleanups (Sample.appWith false (Sample.previousUser 30 3)) + 2)%nat
    /\ framesEntered app'
       = framesEntered (Sample.appWith false (Sample.previousUser 30 3)).
Proof.
  apply (start_after_requestStop_cleans_twice Sample.atanDeg Sample.sqrt
           Sample.sensorAnswer (Sample.appWith false (Sample.previousUser 30 3))
           Sample.frame (tl Sample.shortRun)); reflexivity.
Defined.

(** A sample run of X27: the user generator cannot be created. *)
Lemma start_after_failed_init_witness :
  start Sample.atanDeg Sample.sqrt Sample.sensorAnswer
    (app (fst (init SampleSetup.noUserGeneratorEnv (SampleSetup.fresh true))))
    Sample.shortRun
  = Some (emit (app (fst (init SampleSetup.noUserGeneratorEnv (SampleSetup.fresh true))))
               (Message NotInitialized), 5%Z)
  /\ events (emit (app (fst (init SampleSetup.noUserGeneratorEnv
                               (SampleSetup.fresh true))))
                  (Message NotInitialized))
     = events (app (SampleSetup.fresh true)) ++ [Message NotInitialized].
Proof.
  apply (start_after_failed_init Sample.atanDeg Sample.sqrt Sample.sensorAnswer
           SampleSetup.noUserGeneratorEnv (SampleSetup.fresh true) Sample.shortRun).
  - reflexivity.
  - vm_compute. discriminate.
Defined.

(** A sample run of X28: the Kinect is the second device of the list. *)
Lemma init_success_witness :
  exists it,
    find (fun it => String.eqb (creationInfo it)
                      (cameraPath (_sensor (SampleSetup.fresh true))))
         (devicesList SampleSetup.goodEnv) = Some it
    /\ nodeInfo (_sensor (fst (init SampleSetup.goodEnv (SampleSetup.fresh true))))
       = Some it
    /\ calls (fst (init SampleSetup.goodEnv (SampleSetup.fresh true)))
       = calls (SampleSetup.fresh true)
         ++ [AttachMemory (if firstSensor (_sensor (SampleSetup.fresh true))
                           then SHARED_MEM_DEPTH_1 else SHARED_MEM_DEPTH_2);
             AttachMemory (if firstSensor (_sensor (SampleSetup.fresh true))
                           then SHARED_MEM_INFO_1 else SHARED_MEM_INFO_2);
             Log Initializing; ContextInit; EnumerateProductionTrees]
         ++ deviceCalls SampleSetup.goodEnv (SampleSetup.fresh true) it
    /\ isCapabilitySupported SampleSetup.goodEnv = true
    /\ needPoseForCalibration SampleSetup.goodEnv = false.
Proof.
  apply (init_success SampleSetup.goodEnv (SampleSetup.fresh true)); reflexivity.
Defined.

(** A sample run of X29: a first [init] finds the Kinect and fails to
    create the user generator; the Kinect is unplugged; a second [init]
    succeeds. *)
Lemma init_stale_node_witness :
  snd (init SampleSetup.noUserGeneratorEnv (SampleSetup.fresh true)) = 65565%Z
  /\ snd (init SampleSetup.unpluggedEnv
            (fst (init SampleSetup.noUserGeneratorEnv (SampleSetup.fresh true))))
     = XN_STATUS_OK
  /\ _init (app (fst (init SampleSetup.unpluggedEnv
                        (fst (init SampleSetup.noUserGeneratorEnv
                                (SampleSetup.fresh true))))))
     = true
  /\ filter isRegistration
       (calls (fst (init SampleSetup.unpluggedEnv
                      (fst (init SampleSetup.noUserGeneratorEnv
                              (SampleSetup.fresh true))))))
     = [].
Proof.
  split; [reflexivity|].
  destruct (init_stale_node SampleSetup.unpluggedEnv
              (fst (init SampleSetup.noUserGeneratorEnv (SampleSetup.fresh true))))
    as [H1 [H2 H3]]; try reflexivity.
  - vm_compute. discriminate.
  - split; [exact H1|]. split; [exact H2|]. rewrite H3. reflexivity.
Defined.

(** A sample run of X30. *)
Lemma kinect_untouched_without_support_witness :
  filter isKinectCall
    (calls (operations (SampleSetup.fresh false)
              [Init SampleSetup.goodEnv; MoveToAngle 10; SetLight LED_OFF]))
  = filter isKinectCall (calls (SampleSetup.fresh false)).
Proof.
  apply (kinect_untouched_without_support
           [Init SampleSetup.goodEnv; MoveToAngle 10; SetLight LED_OFF]
           (SampleSetup.fresh false)).
  reflexivity.
Defined.

(** * Binary32 rounding *)

Import Float32.

Lemma pow2_pos (k : Z) : 0 < 2 ^ k.
Proof. apply Qpower_0_lt. reflexivity. Qed.

Lemma pow2_add (a b : Z) : 2 ^ (a + b) == 2 ^ a * 2 ^ b.
Proof. apply Qpower_plus. discriminate. Qed.

Lemma pow2_le (a b : Z) : (a <= b)%Z -> 2 ^ a <= 2 ^ b.
Proof. intro H. apply Qpower_le_compat_l; [exact H | discriminate]. Qed.

Lemma pow2_lt (a b : Z) : (a < b)%Z -> 2 ^ a < 2 ^ b.
Proof. intro H. apply Qpower_lt_compat_l; [exact H | reflexivity]. Qed.

Lemma pow2_succ (a : Z) : 2 ^ (a + 1) == 2 * 2 ^ a.
Proof. rewrite pow2_add. change (2 ^ 1) with 2. ring. Qed.

Lemma pow2_Z (n : Z) : (0 <= n)%Z -> 2 ^ n == inject_Z (2 ^ n).
Proof. intro H. rewrite Zpower_Qpower by exact H. reflexivity. Qed.

Lemma inject_Z_sub (a b : Z) : inject_Z (a - b) = inject_Z a - inject_Z b.
Proof. unfold Z.sub, Qminus. rewrite inject_Z_plus, inject_Z_opp. reflexivity. Qed.

(** ** The nearest integer *)

Ltac qcompare :=
  repeat match goal with
  | H : Qcompare _ _ = Eq |- _ => apply (proj2 (Qeq_alt _ _)) in H
  | H : Qcompare _ _ = Lt |- _ => apply (proj2 (Qlt_alt _ _)) in H
  | H : Qcompare _ _ = Gt |- _ => apply (proj2 (Qgt_alt _ _)) in H
  end.

Lemma rne_cases (q : Q) :
  (rne q = Qfloor q /\ q - inject_Z (Qfloor q) <= 1 # 2)
  \/ (rne q = (Qfloor q + 1)%Z /\ 1 # 2 <= q - inject_Z (Qfloor q)).
Proof.
  unfold rne.
  destruct (Qcompare (q - inject_Z (Qfloor q)) (1 # 2)) eqn:E.
  - apply Qeq_alt in E.
    destruct (Z.even (Qfloor q)); [left | right]; split; try reflexivity; lra.
  - apply Qlt_alt in E. left. split; [reflexivity | lra].
  - apply Qgt_alt in E. right. split; [reflexivity | lra].
Qed.

Lemma floor_bounds (q : Q) : inject_Z (Qfloor q) <= q < inject_Z (Qfloor q) + 1.
Proof.
  split; [apply Qfloor_le|].
  pose proof (Qlt_floor q) as H. rewrite inject_Z_plus in H. exact H.
Qed.

Lemma rne_error (q : Q) : Qabs (inject_Z (rne q) - q) <= 1 # 2.
Proof.
  pose proof (floor_bounds q) as Hf.
  apply Qabs_Qle_condition.
  destruct (rne_cases q) as [[-> H] | [-> H]]; rewrite ?inject_Z_plus;
    change (inject_Z 1) with 1; split; lra.
Qed.

Lemma rne_comp (p q : Q) : p == q -> rne p = rne q.
Proof.
  intro H. unfold rne. rewrite (Qfloor_comp p q H).
  assert (E : p - inject_Z (Qfloor q) == q - inject_Z (Qfloor q)) by (rewrite H; reflexivity).
  rewrite (Qcompare_comp _ _ E _ _ (Qeq_refl (1 # 2))). reflexivity.
Qed.

Lemma rne_Z (n : Z) : rne (inject_Z n) = n.
Proof.
  unfold rne. rewrite Qfloor_Z.
  assert (E : Qcompare (inject_Z n - inject_Z n) (1 # 2) = Lt).
  { apply (proj1 (Qlt_alt _ _)). lra. }
  rewrite E. reflexivity.
Qed.

Lemma rne_mono (p q : Q) : p <= q -> (rne p <= rne q)%Z.
Proof.
  intro H.
  pose proof (Qfloor_resp_le p q H) as Hf.
  pose proof (floor_bounds p) as Hp. pose proof (floor_bounds q) as Hq.
  destruct (Z.eq_dec (Qfloor p) (Qfloor q)) as [E | E].
  - unfold rne. rewrite E in *.
    destruct (Qcompare (p - inject_Z (Qfloor q)) (1 # 2)) eqn:Ep;
    destruct (Qcompare (q - inject_Z (Qfloor q)) (1 # 2)) eqn:Eq;
      qcompare; try (exfalso; lra);
      destruct (Z.even (Qfloor q)); lia.
  - assert (Hlt : (Qfloor p + 1 <= Qfloor q)%Z) by lia.
    destruct (rne_cases p) as [[-> _] | [-> _]];
    destruct (rne_cases q) as [[-> _] | [-> _]]; lia.
Qed.

Lemma rne_opp (q : Q) : rne (- q) = (- rne q)%Z.
Proof.
  pose proof (floor_bounds q) as Hq. pose proof (floor_bounds (- q)) as Hn.
  destruct (Qeq_dec q (inject_Z (Qfloor q))) as [E | E].
  - rewrite (rne_comp q _ E).
    assert (E' : - q == inject_Z (- Qfloor q)) by (rewrite inject_Z_opp; rewrite <- E; reflexivity).
    rewrite (rne_comp _ _ E'). rewrite !rne_Z. reflexivity.
  - assert (Hfl : Qfloor (- q) = (- Qfloor q - 1)%Z).
    { assert (H1 : (Qfloor (- q) < - Qfloor q)%Z).
      { apply Z.nle_gt. intro Hc. rewrite Zle_Qle in Hc. rewrite inject_Z_opp in Hc.
        apply E. lra. }
      assert (H2 : (- Qfloor q - 1 <= Qfloor (- q))%Z).
      { apply Z.nlt_ge. intro Hc.
        assert (Hc' : (Qfloor (- q) + 1 <= - Qfloor q - 1)%Z) by lia.
        rewrite Zle_Qle in Hc'. rewrite inject_Z_plus, inject_Z_sub, inject_Z_opp in Hc'.
        change (inject_Z 1) with 1 in Hc'. lra. }
      lia. }
    unfold rne. rewrite Hfl.
    assert (Ef : - q - inject_Z (- Qfloor q - 1) == 1 - (q - inject_Z (Qfloor q))).
    { rewrite inject_Z_sub, inject_Z_opp. change (inject_Z 1) with 1. ring. }
    destruct (Qcompare (q - inject_Z (Qfloor q)) (1 # 2)) eqn:Ep.
    + apply Qeq_alt in Ep.
      assert (Ec : Qcompare (- q - inject_Z (- Qfloor q - 1)) (1 # 2) = Eq).
      { apply (proj1 (Qeq_alt _ _)). rewrite Ef, Ep. reflexivity. }
      rewrite Ec.
      replace (- Qfloor q - 1)%Z with (- (Qfloor q + 1))%Z by lia.
      rewrite Z.even_opp, Z.even_add. change (Z.even 1) with false.
      destruct (Z.even (Qfloor q)); cbn; lia.
    + apply Qlt_alt in Ep.
      assert (Ec : Qcompare (- q - inject_Z (- Qfloor q - 1)) (1 # 2) = Gt).
      { apply (proj1 (Qgt_alt _ _)). rewrite Ef. lra. }
      rewrite Ec. lia.
    + apply Qgt_alt in Ep.
      assert (Ec : Qcompare (- q - inject_Z (- Qfloor q - 1)) (1 # 2) = Lt).
      { apply (proj1 (Qlt_alt _ _)). rewrite Ef. lra. }
      rewrite Ec. lia.
Qed.

(** ** The last place *)

Lemma binade_range a : forall fuel start,
  (start <= binade a start fuel <= start + Z.of_nat fuel)%Z.
Proof.
  induction fuel as [|fuel IH]; intro start; cbn [binade]; [lia|].
  destruct (Qlt_bool a (2 ^ (start + 24))); [lia|].
  specialize (IH (start + 1)%Z). lia.
Qed.

Lemma binade_upper a : forall fuel start,
  (binade a start fuel < start + Z.of_nat fuel)%Z ->
  a < 2 ^ (binade a start fuel + 24).
Proof.
  induction fuel as [|fuel IH]; intros start H; cbn [binade] in *; [lia|].
  destruct (Qlt_bool a (2 ^ (start + 24))) eqn:E.
  - qprop. exact E.
  - apply IH. lia.
Qed.

Lemma binade_lower a : forall fuel start,
  (start < binade a start fuel)%Z ->
  2 ^ (binade a start fuel + 23) <= a.
Proof.
  induction fuel as [|fuel IH]; intros start H; cbn [binade] in *; [lia|].
  destruct (Qlt_bool a (2 ^ (start + 24))) eqn:E; [lia|].
  qprop.
  destruct (Z.eq_dec (binade a (start + 1) fuel) (start + 1)) as [Ek | Ek].
  - rewrite Ek. replace (start + 1 + 23)%Z with (start + 24)%Z by lia. exact E.
  - apply IH. pose proof (binade_range a fuel (start + 1)). lia.
Qed.

Lemma binade_mono a b : a <= b -> forall fuel start,
  (binade a start fuel <= binade b start fuel)%Z.
Proof.
  intro Hab. induction fuel as [|fuel IH]; intro start; cbn [binade]; [lia|].
  destruct (Qlt_bool a (2 ^ (start + 24))) eqn:Ea;
  destruct (Qlt_bool b (2 ^ (start + 24))) eqn:Eb; qprop.
  - lia.
  - pose proof (binade_range b fuel (start + 1)). lia.
  - exfalso. lra.
  - apply IH.
Qed.

Lemma binade_comp a b : a == b -> forall fuel start,
  binade a start fuel = binade b start fuel.
Proof.
  intro Hab. intros fuel start. apply Z.le_antisymm; apply binade_mono; lra.
Qed.

Lemma lastPlace_range a : (- 149 <= lastPlace a <= 105)%Z.
Proof. unfold lastPlace. pose proof (binade_range a 254 (- 149)). lia. Qed.

Lemma lastPlace_upper a : (lastPlace a < 105)%Z -> a < 2 ^ (lastPlace a + 24).
Proof. unfold lastPlace. intro H. apply binade_upper. lia. Qed.

Lemma lastPlace_lower a : (- 149 < lastPlace a)%Z -> 2 ^ (lastPlace a + 23) <= a.
Proof. unfold lastPlace. intro H. apply binade_lower. exact H. Qed.

Lemma lastPlace_mono a b : a <= b -> (lastPlace a <= lastPlace b)%Z.
Proof. intro H. apply binade_mono. exact H. Qed.

Lemma lastPlace_comp a b : a == b -> lastPlace a = lastPlace b.
Proof. intro H. apply binade_comp. exact H. Qed.

(** A value below [2^(k+24)] has its last place at [k] or below. *)
Lemma lastPlace_below a k :
  (- 149 <= k)%Z -> a < 2 ^ (k + 24) -> (lastPlace a <= k)%Z.
Proof.
  intros Hk Ha.
  destruct (Z_le_gt_dec (lastPlace a) k) as [H | H]; [exact H|].
  exfalso.
  assert (Hl : 2 ^ (lastPlace a + 23) <= a) by (apply lastPlace_lower; lia).
  assert (Hp : 2 ^ (k + 24) <= 2 ^ (lastPlace a + 23)) by (apply pow2_le; lia).
  lra.
Qed.

(** ** Rounding of a non-negative value *)

Lemma scaled (a : Q) (k : Z) : a / 2 ^ k * 2 ^ k == a.
Proof. field. pose proof (pow2_pos k). lra. Qed.

Lemma roundAbs_comp a b : a == b -> roundAbs a == roundAbs b.
Proof.
  intro H. unfold roundAbs. rewrite (lastPlace_comp a b H).
  assert (E : a / 2 ^ lastPlace b == b / 2 ^ lastPlace b) by (rewrite H; reflexivity).
  rewrite (rne_comp _ _ E). reflexivity.
Qed.

Lemma roundAbs_error a : Qabs (roundAbs a - a) <= 2 ^ (lastPlace a - 1).
Proof.
  unfold roundAbs. set (k := lastPlace a).
  pose proof (rne_error (a / 2 ^ k)) as He.
  pose proof (pow2_pos k) as Hk.
  assert (Ek : 2 ^ (k - 1) == (1 # 2) * 2 ^ k).
  { replace (k - 1)%Z with (k + - 1)%Z by lia. rewrite pow2_add.
    change (2 ^ (- 1)) with (1 # 2). ring. }
  rewrite Ek.
  assert (Ed : inject_Z (rne (a / 2 ^ k)) * 2 ^ k - a
               == (inject_Z (rne (a / 2 ^ k)) - a / 2 ^ k) * 2 ^ k).
  { field. lra. }
  rewrite Ed, Qabs_Qmult, (Qabs_pos (2 ^ k)) by lra.
  apply Qmult_le_compat_r; [exact He | lra].
Qed.

Lemma roundAbs_nonneg a : 0 <= a -> 0 <= roundAbs a.
Proof.
  intro Ha. unfold roundAbs. set (k := lastPlace a).
  pose proof (pow2_pos k) as Hk.
  assert (H0 : (0 <= rne (a / 2 ^ k))%Z).
  { rewrite <- (rne_Z 0). apply rne_mono.
    change (inject_Z 0) with 0. apply Qle_shift_div_l; lra. }
  rewrite Zle_Qle in H0. change (inject_Z 0) with 0 in H0.
  apply Qmult_le_0_compat; lra.
Qed.

(** The rounded value stays in the binade of the value. *)
Lemma roundAbs_upper a :
  0 <= a -> (lastPlace a < 105)%Z -> roundAbs a <= 2 ^ (lastPlace a + 24).
Proof.
  intros Ha Hk. pose proof (lastPlace_upper a Hk) as Hu.
  unfold roundAbs. set (k := lastPlace a) in *.
  pose proof (pow2_pos k) as Hp.
  assert (H : (rne (a / 2 ^ k) <= 2 ^ 24)%Z).
  { rewrite <- (rne_Z (2 ^ 24)). apply rne_mono.
    apply Qle_shift_div_r; [lra|].
    rewrite pow2_add in Hu. change (inject_Z (2 ^ 24)) with (2 ^ 24). lra. }
  rewrite Zle_Qle in H. change (inject_Z (2 ^ 24)) with (2 ^ 24) in H.
  rewrite pow2_add.
  setoid_replace (2 ^ k * 2 ^ 24) with (2 ^ 24 * 2 ^ k) by ring.
  apply Qmult_le_compat_r; lra.
Qed.

Lemma roundAbs_lower a :
  (- 149 < lastPlace a)%Z -> 2 ^ (lastPlace a + 23) <= roundAbs a.
Proof.
  intro Hk. pose proof (lastPlace_lower a Hk) as Hl.
  unfold roundAbs. set (k := lastPlace a) in *.
  pose proof (pow2_pos k) as Hp.
  assert (H : (2 ^ 23 <= rne (a / 2 ^ k))%Z).
  { rewrite <- (rne_Z (2 ^ 23)). apply rne_mono.
    apply Qle_shift_div_l; [lra|].
    rewrite pow2_add in Hl. change (inject_Z (2 ^ 23)) with (2 ^ 23). lra. }
  rewrite Zle_Qle in H. change (inject_Z (2 ^ 23)) with (2 ^ 23) in H.
  rewrite pow2_add.
  setoid_replace (2 ^ k * 2 ^ 23) with (2 ^ 23 * 2 ^ k) by ring.
  apply Qmult_le_compat_r; lra.
Qed.

Lemma roundAbs_mono a b : 0 <= a -> a <= b -> roundAbs a <= roundAbs b.
Proof.
  intros Ha Hab.
  pose proof (lastPlace_mono a b Hab) as Hk.
  destruct (Z.eq_dec (lastPlace a) (lastPlace b)) as [E | E].
  - unfold roundAbs. rewrite E. set (k := lastPlace b).
    pose proof (pow2_pos k) as Hp.
    assert (H : (rne (a / 2 ^ k) <= rne (b / 2 ^ k))%Z).
    { apply rne_mono. apply Qmult_le_compat_r; [exact Hab|].
      apply Qlt_le_weak, Qinv_lt_0_compat. exact Hp. }
    rewrite Zle_Qle in H. apply Qmult_le_compat_r; lra.
  - pose proof (lastPlace_range a). pose proof (lastPlace_range b).
    assert (H1 : roundAbs a <= 2 ^ (lastPlace a + 24)) by (apply roundAbs_upper; [exact Ha | lia]).
    assert (H2 : 2 ^ (lastPlace b + 23) <= roundAbs b) by (apply roundAbs_lower; lia).
    assert (H3 : 2 ^ (lastPlace a + 24) <= 2 ^ (lastPlace b + 23)) by (apply pow2_le; lia).
    lra.
Qed.

(** A multiple of [2^k] of at most 24 bits is a binary32 value. *)
Lemma roundAbs_exact (N k : Z) :
  (0 <= N <= 2 ^ 24)%Z -> (- 149 <= k)%Z ->
  roundAbs (inject_Z N * 2 ^ k) == inject_Z N * 2 ^ k.
Proof.
  intros HN Hk. set (a := inject_Z N * 2 ^ k).
  pose proof (pow2_pos k) as Hp.
  assert (Ha : 0 <= a).
  { unfold a. apply Qmult_le_0_compat; [|lra].
    change 0 with (inject_Z 0). rewrite <- Zle_Qle. lia. }
  assert (Hau : a <= 2 ^ (k + 24)).
  { unfold a. rewrite pow2_add.
    setoid_replace (2 ^ k * 2 ^ 24) with (2 ^ 24 * 2 ^ k) by ring.
    apply Qmult_le_compat_r; [|lra].
    change (2 ^ 24) with (inject_Z (2 ^ 24)). rewrite <- Zle_Qle. lia. }
  pose proof (lastPlace_range a) as Hr.
  assert (Hcase : (lastPlace a <= k)%Z \/ (lastPlace a = k + 1 /\ a == 2 ^ (k + 24))%Z).
  { destruct (Z_le_gt_dec (lastPlace a) k) as [H | H]; [left; exact H | right].
    assert (Hl : 2 ^ (lastPlace a + 23) <= a) by (apply lastPlace_lower; lia).
    assert (Hle : (lastPlace a + 23 <= k + 24)%Z).
    { apply (Qpower_le_compat_l_inv 2); [lra | reflexivity]. }
    assert (Ek : lastPlace a = (k + 1)%Z) by lia.
    split; [exact Ek|].
    rewrite Ek in Hl. replace (k + 1 + 23)%Z with (k + 24)%Z in Hl by lia. lra. }
  unfold roundAbs. fold a.
  destruct Hcase as [Hle | [Ek Ea]].
  - set (k' := lastPlace a) in *.
    assert (Ediv : a / 2 ^ k' == inject_Z (N * 2 ^ (k - k'))).
    { unfold a. rewrite inject_Z_mult.
      rewrite <- pow2_Z by lia.
      replace k with (k - k' + k')%Z at 1 by lia. rewrite pow2_add.
      field. pose proof (pow2_pos k'). lra. }
    rewrite (rne_comp _ _ Ediv), rne_Z, <- Ediv. apply scaled.
  - rewrite Ek.
    assert (Ediv : a / 2 ^ (k + 1) == inject_Z (2 ^ 23)).
    { rewrite Ea. replace (k + 24)%Z with (23 + (k + 1))%Z by lia.
      rewrite pow2_add. change (inject_Z (2 ^ 23)) with (2 ^ 23).
      field. pose proof (pow2_pos (k + 1)). lra. }
    rewrite (rne_comp _ _ Ediv), rne_Z, <- Ediv. apply scaled.
Qed.

Lemma roundAbs_idem a : 0 <= a -> roundAbs (roundAbs a) == roundAbs a.
Proof.
  intro Ha.
  pose proof (lastPlace_range a) as Hr.
  assert (H0 : (0 <= rne (a / 2 ^ lastPlace a))%Z).
  { rewrite <- (rne_Z 0). apply rne_mono.
    change (inject_Z 0) with 0. apply Qle_shift_div_l; [apply pow2_pos | lra]. }
  destruct (Z_lt_ge_dec (lastPlace a) 105) as [Hk | Hk].
  - unfold roundAbs at 2 3. apply roundAbs_exact; [|lia].
    split; [exact H0|].
    pose proof (lastPlace_upper a Hk) as Hu.
    rewrite <- (rne_Z (2 ^ 24)). apply rne_mono.
    apply Qle_shift_div_r; [apply pow2_pos|].
    rewrite pow2_add in Hu. change (inject_Z (2 ^ 24)) with (2 ^ 24). lra.
  - assert (Ek : lastPlace a = 105%Z) by lia.
    assert (Hl : 2 ^ (lastPlace a + 23) <= roundAbs a) by (apply roundAbs_lower; lia).
    assert (Ek' : lastPlace (roundAbs a) = 105%Z).
    { pose proof (lastPlace_range (roundAbs a)).
      destruct (Z_lt_ge_dec (lastPlace (roundAbs a)) 105) as [Hc | Hc]; [|lia].
      exfalso. pose proof (lastPlace_upper _ Hc) as Hu.
      assert (2 ^ (lastPlace (roundAbs a) + 24) <= 2 ^ (lastPlace a + 23))
        by (apply pow2_le; lia).
      lra. }
    unfold roundAbs at 1. rewrite Ek'. unfold roundAbs. rewrite Ek.
    set (N := rne (a / 2 ^ 105)).
    assert (Ediv : inject_Z N * 2 ^ 105 / 2 ^ 105 == inject_Z N).
    { field. }
    rewrite (rne_comp _ _ Ediv), rne_Z. reflexivity.
Qed.

(** ** Rounding *)

Lemma round_neg x : x < 0 -> round x = - roundAbs (- x).
Proof.
  intro H. unfold round.
  destruct (Qlt_bool x 0) eqn:E; [reflexivity|]. qprop. exfalso. lra.
Qed.

Lemma round_pos x : 0 <= x -> round x = roundAbs x.
Proof.
  intro H. unfold round.
  destruct (Qlt_bool x 0) eqn:E; [|reflexivity]. qprop. exfalso. lra.
Qed.

Lemma roundAbs_0 : roundAbs 0 == 0.
Proof. vm_compute. reflexivity. Qed.

Lemma round_comp x y : x == y -> round x == round y.
Proof.
  intro H. destruct (Qlt_le_dec x 0) as [Hx | Hx].
  - rewrite (round_neg x Hx), (round_neg y) by lra.
    apply Qopp_comp, roundAbs_comp. rewrite H. reflexivity.
  - rewrite (round_pos x Hx), (round_pos y) by lra.
    apply roundAbs_comp. exact H.
Qed.

#[global] Instance round_Proper : Proper (Qeq ==> Qeq) round.
Proof. intros x y H. apply round_comp. exact H. Qed.

Lemma round_opp x : round (- x) == - round x.
Proof.
  destruct (Qlt_le_dec x 0) as [Hx | Hx].
  - rewrite (round_neg x Hx), (round_pos (- x)) by lra. ring.
  - destruct (Qlt_le_dec 0 x) as [Hp | Hz].
    + rewrite (round_pos x Hx), (round_neg (- x)) by lra.
      apply Qopp_comp, roundAbs_comp. ring.
    + assert (E : x == 0) by lra.
      rewrite (round_pos x Hx), (round_pos (- x)) by lra.
      rewrite (roundAbs_comp x 0 E), (roundAbs_comp (- x) 0) by lra.
      rewrite roundAbs_0. reflexivity.
Qed.

Lemma round_mono x y : x <= y -> round x <= round y.
Proof.
  intro H.
  destruct (Qlt_le_dec x 0) as [Hx | Hx]; destruct (Qlt_le_dec y 0) as [Hy | Hy].
  - rewrite (round_neg x Hx), (round_neg y Hy).
    apply Qopp_le_compat. apply roundAbs_mono; lra.
  - rewrite (round_neg x Hx), (round_pos y Hy).
    pose proof (roundAbs_nonneg (- x)). pose proof (roundAbs_nonneg y). lra.
  - exfalso. lra.
  - rewrite (round_pos x Hx), (round_pos y Hy). apply roundAbs_mono; assumption.
Qed.

Lemma round_error x : Qabs (round x - x) <= 2 ^ (lastPlace (Qabs x) - 1).
Proof.
  destruct (Qlt_le_dec x 0) as [Hx | Hx].
  - rewrite (round_neg x Hx).
    assert (Ea : Qabs x == - x) by (apply Qabs_neg; lra).
    rewrite (lastPlace_comp _ _ Ea).
    pose proof (roundAbs_error (- x)) as He.
    assert (E : - roundAbs (- x) - x == - (roundAbs (- x) - - x)) by ring.
    rewrite E, Qabs_opp. exact He.
  - rewrite (round_pos x Hx).
    assert (Ea : Qabs x == x) by (apply Qabs_pos; lra).
    rewrite (lastPlace_comp _ _ Ea). apply roundAbs_error.
Qed.

(** Below 1024 the error of a rounding is at most [2^-15]. *)
Lemma round_error_abs x : Qabs x < 1024 -> Qabs (round x - x) <= 1 # 32768.
Proof.
  intro H. pose proof (round_error x) as He.
  assert (Hk : (lastPlace (Qabs x) <= - 14)%Z).
  { apply lastPlace_below; [lia|]. exact H. }
  assert (Hp : 2 ^ (lastPlace (Qabs x) - 1) <= 2 ^ (- 15)) by (apply pow2_le; lia).
  change (2 ^ (- 15)) with (1 # 32768) in Hp. lra.
Qed.

(** From the least normal value on, the error is relative. *)
Lemma round_error_rel x :
  2 ^ (- 126) <= Qabs x -> Qabs (round x - x) <= Qabs x * 2 ^ (- 24).
Proof.
  intro H. pose proof (round_error x) as He.
  set (k := lastPlace (Qabs x)) in *.
  assert (Hl : 2 ^ (k + 23) <= Qabs x).
  { destruct (Z.eq_dec k (- 149)) as [E | E].
    - rewrite E. exact H.
    - apply lastPlace_lower. pose proof (lastPlace_range (Qabs x)). fold k in H0. lia. }
  assert (Ek : 2 ^ (k - 1) == 2 ^ (k + 23) * 2 ^ (- 24)).
  { rewrite <- pow2_add. replace (k + 23 + - 24)%Z with (k - 1)%Z by lia. reflexivity. }
  rewrite Ek in He.
  assert (Hm : 2 ^ (k + 23) * 2 ^ (- 24) <= Qabs x * 2 ^ (- 24)).
  { apply Qmult_le_compat_r; [exact Hl|]. apply Qlt_le_weak, pow2_pos. }
  lra.
Qed.

Lemma round_idem x : round (round x) == round x.
Proof.
  destruct (Qlt_le_dec x 0) as [Hx | Hx].
  - rewrite (round_neg x Hx). rewrite round_opp.
    apply Qopp_comp.
    pose proof (roundAbs_nonneg (- x)).
    rewrite (round_pos (roundAbs (- x))) by lra.
    apply roundAbs_idem. lra.
  - rewrite (round_pos x Hx).
    rewrite (round_pos (roundAbs x)) by (apply roundAbs_nonneg; exact Hx).
    apply roundAbs_idem. exact Hx.
Qed.

Lemma round_nonneg x : 0 <= x -> 0 <= round x.
Proof. intro H. rewrite (round_pos x H). apply roundAbs_nonneg. exact H. Qed.

(** The integers of at most 24 bits are binary32 values. *)
Lemma round_Z (n : Z) : (Z.abs n <= 2 ^ 24)%Z -> round (inject_Z n) == inject_Z n.
Proof.
  intro H.
  assert (Hpos : forall m, (0 <= m <= 2 ^ 24)%Z -> roundAbs (inject_Z m) == inject_Z m).
  { intros m Hm. pose proof (roundAbs_exact m 0 Hm ltac:(lia)) as E.
    change (2 ^ 0) with 1 in E.
    rewrite (roundAbs_comp (inject_Z m) (inject_Z m * 1)) by ring.
    rewrite E. ring. }
  destruct (Z_lt_ge_dec n 0) as [Hn | Hn].
  - assert (Hq : inject_Z n < 0).
    { change 0 with (inject_Z 0). rewrite <- Zlt_Qlt. exact Hn. }
    rewrite (round_neg _ Hq). rewrite <- inject_Z_opp.
    rewrite Hpos by lia. rewrite inject_Z_opp. ring.
  - assert (Hq : 0 <= inject_Z n).
    { change 0 with (inject_Z 0). rewrite <- Zle_Qle. lia. }
    rewrite (round_pos _ Hq). apply Hpos. lia.
Qed.

(** A binary32 value is a multiple of the least subnormal value. *)
Lemma representable_grid x :
  representable x -> exists n : Z, x == inject_Z n * 2 ^ (- 149).
Proof.
  unfold representable. intro H.
  assert (Habs : forall a, exists n : Z, roundAbs a == inject_Z n * 2 ^ (- 149)).
  { intro a. unfold roundAbs. set (k := lastPlace a).
    pose proof (lastPlace_range a) as Hr. fold k in Hr.
    exists (rne (a / 2 ^ k) * 2 ^ (k + 149))%Z.
    rewrite inject_Z_mult, <- pow2_Z by lia.
    replace k with (k + 149 + - 149)%Z at 2 by lia.
    rewrite pow2_add. ring. }
  destruct (Qlt_le_dec x 0) as [Hx | Hx].
  - rewrite (round_neg x Hx) in H.
    destruct (Habs (- x)) as [n Hn]. exists (- n)%Z.
    rewrite <- H, Hn, inject_Z_opp. ring.
  - rewrite (round_pos x Hx) in H.
    destruct (Habs x) as [n Hn]. exists n. rewrite <- H. exact Hn.
Qed.

Lemma roundAbs_least : roundAbs (2 ^ (- 149)) == 2 ^ (- 149).
Proof. vm_compute. reflexivity. Qed.

(** The difference of two binary32 values that differ does not round to
    zero. *)
Lemma round_sub_nonzero x y :
  representable x -> representable y -> ~ x == y -> ~ round (x - y) == 0.
Proof.
  intros Hx Hy Hne.
  destruct (representable_grid x Hx) as [n Hn].
  destruct (representable_grid y Hy) as [m Hm].
  pose proof (pow2_pos (- 149)) as Hp.
  assert (Hnm : n <> m).
  { intro E. apply Hne. rewrite Hn, Hm, E. reflexivity. }
  assert (Hd : x - y == inject_Z (n - m) * 2 ^ (- 149)).
  { rewrite Hn, Hm, inject_Z_sub. ring. }
  assert (Hstep : forall k : Z, (1 <= k)%Z -> 2 ^ (- 149) <= inject_Z k * 2 ^ (- 149)).
  { intros k Hk. rewrite Zle_Qle in Hk. change (inject_Z 1) with 1 in Hk.
    setoid_replace (2 ^ (- 149)) with (1 * 2 ^ (- 149)) at 1 by ring.
    apply Qmult_le_compat_r; lra. }
  destruct (Z_lt_ge_dec n m) as [Hlt | Hge].
  - assert (Hneg : x - y < 0).
    { rewrite Hd.
      assert (Hk := Hstep (m - n)%Z ltac:(lia)).
      rewrite inject_Z_sub in Hk |- *. lra. }
    rewrite (round_neg _ Hneg).
    assert (Hl : roundAbs (2 ^ (- 149)) <= roundAbs (- (x - y))).
    { apply roundAbs_mono; [lra|]. rewrite Hd.
      assert (Hk := Hstep (m - n)%Z ltac:(lia)).
      rewrite inject_Z_sub in Hk |- *. lra. }
    rewrite roundAbs_least in Hl. intro E. lra.
  - assert (Hk := Hstep (n - m)%Z ltac:(lia)).
    assert (Hpos : 0 <= x - y) by (rewrite Hd; lra).
    rewrite (round_pos _ Hpos).
    assert (Hl : roundAbs (2 ^ (- 149)) <= roundAbs (x - y)).
    { apply roundAbs_mono; [lra|]. rewrite Hd. exact Hk. }
    rewrite roundAbs_least in Hl. intro E. lra.
Qed.

(** ** The operations *)

Lemma round_360 : round 360 == 360.
Proof. vm_compute. reflexivity. Qed.

Lemma round_180 : round 180 == 180.
Proof. vm_compute. reflexivity. Qed.

Lemma round_90 : round 90 == 90.
Proof. vm_compute. reflexivity. Qed.

Lemma round_55 : round 55 == 55.
Proof. vm_compute. reflexivity. Qed.

Lemma round_1 : round 1 == 1.
Proof. vm_compute. reflexivity. Qed.

Lemma round_0 : round 0 == 0.
Proof. vm_compute. reflexivity. Qed.

Lemma round_INT_MAX : round (inject_Z INT_MAX) == 2147483648.
Proof. vm_compute. reflexivity. Qed.

(** A rounding below 1024 does not overflow. *)
Lemma fround_fin q : Qabs q < 1024 -> fround q = Fin (round q).
Proof.
  intro H. unfold fround.
  pose proof (round_error_abs q H) as He.
  assert (Hr : Qabs (round q) < 2 ^ 128).
  { assert (Ht : Qabs (round q) <= Qabs (round q - q) + Qabs q).
    { setoid_replace (round q) with ((round q - q) + q) at 1 by ring.
      apply Qabs_triangle. }
    assert (1025 < 2 ^ 128) by reflexivity. lra. }
  destruct (Qle_bool (2 ^ 128) (Qabs (round q))) eqn:E; [|reflexivity].
  qprop. exfalso. lra.
Qed.

(** The margin [55.0f / (float)frequency]. *)
Lemma margin_fin frequency :
  (0 < frequency <= INT_MAX)%Z ->
  exists m,
    div (Fin 55) (ofInt frequency) = Fin m
    /\ 0 <= m <= 55
    /\ round m == m
    /\ m <= 55 / inject_Z frequency + (1 # 131072).
Proof.
  intro Hf. assert (Himax : INT_MAX = 2147483647%Z) by reflexivity.
  set (f := inject_Z frequency).
  assert (Hf1 : 1 <= f).
  { unfold f. change 1 with (inject_Z 1). rewrite <- Zle_Qle. lia. }
  assert (Hfmax : f <= inject_Z INT_MAX).
  { unfold f. rewrite <- Zle_Qle. lia. }
  set (F := round f).
  assert (HF1 : 1 <= F).
  { unfold F. rewrite <- round_1. apply round_mono. exact Hf1. }
  assert (HFmax : F <= 2147483648).
  { unfold F. rewrite <- round_INT_MAX. apply round_mono. exact Hfmax. }
  assert (Hof : ofInt frequency = Fin F).
  { unfold ofInt, fround. fold f. fold F.
    destruct (Qle_bool (2 ^ 128) (Qabs F)) eqn:E; [|reflexivity].
    qprop. exfalso. rewrite Qabs_pos in E by lra.
    assert (2147483648 < 2 ^ 128) by reflexivity. lra. }
  assert (Hrel : Qabs (F - f) <= Qabs f * 2 ^ (- 24)).
  { apply round_error_rel. rewrite Qabs_pos by lra.
    assert (2 ^ (- 126) <= 1) by (vm_compute; discriminate). lra. }
  rewrite (Qabs_pos f) in Hrel by lra.
  set (q := 55 / F).
  assert (Hq : 0 < q <= 55).
  { unfold q. split.
    - apply Qlt_shift_div_l; lra.
    - apply Qle_shift_div_r; lra. }
  assert (Hqlow : 2 ^ (- 126) <= q).
  { unfold q. apply Qle_shift_div_l; [lra|].
    assert (2 ^ (- 126) * 2147483648 <= 55) by (vm_compute; discriminate).
    assert (0 < 2 ^ (- 126)) by apply pow2_pos. nra. }
  set (m := round q).
  assert (Hm0 : 0 <= m) by (apply round_nonneg; lra).
  assert (Hm55 : m <= 55).
  { unfold m. rewrite <- round_55. apply round_mono. lra. }
  assert (Hqrel : Qabs (m - q) <= Qabs q * 2 ^ (- 24)) by (apply round_error_rel; rewrite Qabs_pos; lra).
  rewrite (Qabs_pos q) in Hqrel by lra.
  exists m. split; [|split; [lra|split; [apply round_idem|]]].
  - unfold div. rewrite Hof. cbn [fdiv].
    destruct (Qeq_bool F 0) eqn:E; [qprop; exfalso; lra|].
    cbn [narrow]. fold q. unfold m. apply fround_fin.
    rewrite Qabs_pos; lra.
  - (* the two relative errors *)
    set (eps := 2 ^ (- 24)) in *.
    assert (Heps : eps == 1 # 16777216) by reflexivity.
    assert (HFf : f * (1 - eps) <= F).
    { apply Qabs_Qle_condition in Hrel. lra. }
    assert (Hmq : m <= q * (1 + eps)).
    { apply Qabs_Qle_condition in Hqrel. lra. }
    set (u := 55 / f).
    assert (Hu : 0 < u <= 55).
    { unfold u. split.
      - apply Qlt_shift_div_l; lra.
      - apply Qle_shift_div_r; lra. }
    assert (Huf : u * f == 55) by (unfold u; field; lra).
    assert (HqF : q * F == 55) by (unfold q; field; lra).
    (* q * (1 - eps) <= u *)
    assert (Hqu : q * (1 - eps) <= u).
    { assert (H1 : q * (f * (1 - eps)) <= q * F).
      { apply Qmult_le_l; lra. }
      assert (H2 : (q * (1 - eps)) * f <= u * f) by lra.
      apply Qmult_le_r in H2; lra. }
    nra.
Qed.

Lemma sub_fin a b : Qabs (a - b) < 1024 -> sub (Fin a) (Fin b) = Fin (round (a - b)).
Proof. intro H. unfold sub. cbn [fsub fadd fopp narrow]. apply fround_fin. exact H. Qed.

Lemma add_fin a b : Qabs (a + b) < 1024 -> add (Fin a) (Fin b) = Fin (round (a + b)).
Proof. intro H. unfold add. cbn [fadd narrow]. apply fround_fin. exact H. Qed.

Lemma round_ge c t : round c == c -> c <= t -> c <= round t.
Proof. intros Hc H. rewrite <- Hc. apply round_mono. exact H. Qed.

Lemma round_le c t : round c == c -> t <= c -> round t <= c.
Proof. intros Hc H. rewrite <- Hc. apply round_mono. exact H. Qed.

Lemma round_lt_inv c t : round c == c -> round t < c -> t < c.
Proof.
  intros Hc H. apply Qnot_le_lt. intro Hle.
  pose proof (round_ge c t Hc Hle). lra.
Qed.

Lemma round_gt_inv c t : round c == c -> c < round t -> c < t.
Proof.
  intros Hc H. apply Qnot_le_lt. intro Hle.
  pose proof (round_le c t Hc Hle). lra.
Qed.

Lemma round_opp_fixed m : round m == m -> round (- m) == - m.
Proof. intro H. rewrite round_opp, H. reflexivity. Qed.

(** The error of a rounding below 1024, as two inequalities. *)
Lemma round_near t :
  - 1024 < t < 1024 -> - (1 # 32768) <= round t - t <= 1 # 32768.
Proof.
  intro H. apply Qabs_Qle_condition. apply round_error_abs.
  apply Qabs_Qlt_condition. exact H.
Qed.

Ltac near t :=
  let H := fresh "Hb" in
  let He := fresh "He" in
  assert (H : - 1024 < t < 1024) by (split; lra);
  pose proof (round_near t H) as He.

(** ** The smoothing step in binary32 *)

Lemma smoothRotation_rounded frequency (r p : Q) :
  (0 < frequency <= INT_MAX)%Z ->
  0 <= r <= 360 ->
  0 <= p < 360 ->
  exists r',
    smoothRotation frequency (Fin r) (Fin p) = Fin r'
    /\ 0 <= r' < 360
    /\ angularDistance r' p <= 55 / inject_Z frequency + (1 # 8192).
Proof.
  intros Hf Hr Hp.
  destruct (margin_fin frequency Hf) as [m [Hm [Hmr [Hmi Hmb]]]].
  pose proof (round_opp_fixed m Hmi) as Hmi'.
  pose proof round_0 as R0. pose proof round_360 as R360.
  unfold smoothRotation. rewrite Hm.
  near (r - p).
  rewrite (sub_fin r p) by (apply Qabs_Qlt_condition; exact Hb).
  cbn [fabs fltb].
  set (d0 := round (r - p)) in *.
  destruct (Qlt_bool 180 (Qabs d0)) eqn:Ewrap.
  - (* across the boundary *)
    qprop.
    destruct (Qlt_bool r p) eqn:Elow; qprop.
    + (* the rotation is the lower value *)
      near (r + 360).
      rewrite (add_fin r 360) by (apply Qabs_Qlt_condition; exact Hb0).
      set (r1 := round (r + 360)) in *.
      assert (Hr1 : 360 <= r1) by (apply round_ge; [exact R360 | lra]).
      near (r1 - p).
      rewrite (sub_fin r1 p) by (apply Qabs_Qlt_condition; exact Hb1).
      cbn [fabs fltb].
      set (d := round (r1 - p)) in *.
      assert (Hd0 : 0 <= d) by (apply round_ge; [exact R0 | lra]).
      assert (Hwrap : 180 < p - r).
      { destruct (Qabs_cases d0) as [[? Ea] | [? Ea]]; rewrite Ea in Ewrap.
        - exfalso. assert (d0 <= 0) by (apply round_le; [exact R0 | lra]). lra.
        - assert (Hlt : round (r - p) < - (180)) by (fold d0; lra).
          apply round_lt_inv in Hlt; [lra|].
          rewrite round_opp, round_180. reflexivity. }
      destruct (Qlt_bool m (Qabs d)) eqn:Eclamp; qprop.
      * rewrite (Qabs_pos d) in Eclamp by lra.
        assert (E0 : Qlt_bool 0 d = true) by (apply Qlt_bool_true; lra).
        rewrite E0.
        near (p + m).
        rewrite (add_fin p m) by (apply Qabs_Qlt_condition; exact Hb2).
        set (r2 := round (p + m)) in *.
        assert (Hr2 : 0 <= r2) by (apply round_ge; [exact R0 | lra]).
        cbn [fleb].
        destruct (Qle_bool 360 r2) eqn:Eturn; qprop.
        -- near (r2 - 360).
           rewrite (sub_fin r2 360) by (apply Qabs_Qlt_condition; exact Hb3).
           set (res := round (r2 - 360)) in *.
           assert (Hres : 0 <= res) by (apply round_ge; [exact R0 | lra]).
           eexists. split; [reflexivity|]. split; [lra|].
           unfold angularDistance. apply Q.min_le_iff.
           destruct (Qabs_cases (res - p)) as [[? Ea] | [? Ea]]; rewrite Ea;
             try (left; lra); try (right; lra).
        -- eexists. split; [reflexivity|]. split; [lra|].
           unfold angularDistance. apply Q.min_le_iff.
           destruct (Qabs_cases (r2 - p)) as [[? Ea] | [? Ea]]; rewrite Ea;
             try (left; lra); try (right; lra).
      * rewrite (Qabs_pos d) in Eclamp by lra.
        cbn [fleb].
        assert (Eturn : Qle_bool 360 r1 = true) by (apply Qle_bool_iff; exact Hr1).
        rewrite Eturn.
        near (r1 - 360).
        rewrite (sub_fin r1 360) by (apply Qabs_Qlt_condition; exact Hb2).
        set (res := round (r1 - 360)) in *.
        assert (Hres : 0 <= res) by (apply round_ge; [exact R0 | lra]).
        eexists. split; [reflexivity|]. split; [lra|].
        unfold angularDistance. apply Q.min_le_iff.
        destruct (Qabs_cases (res - p)) as [[? Ea] | [? Ea]]; rewrite Ea;
          try (left; lra); try (right; lra).
    + (* the previous rotation is the lower value *)
      near (p + 360).
      rewrite (add_fin p 360) by (apply Qabs_Qlt_condition; exact Hb0).
      set (p1 := round (p + 360)) in *.
      assert (Hp1 : 360 <= p1) by (apply round_ge; [exact R360 | lra]).
      near (r - p1).
      rewrite (sub_fin r p1) by (apply Qabs_Qlt_condition; exact Hb1).
      cbn [fabs fltb].
      set (d := round (r - p1)) in *.
      assert (Hd0 : d <= 0) by (apply round_le; [exact R0 | lra]).
      assert (Hwrap : 180 < r - p).
      { destruct (Qabs_cases d0) as [[? Ea] | [? Ea]]; rewrite Ea in Ewrap.
        - assert (Hgt : 180 < round (r - p)) by (fold d0; lra).
          apply round_gt_inv in Hgt; [lra | exact round_180].
        - exfalso. assert (0 <= d0) by (apply round_ge; [exact R0 | lra]). lra. }
      destruct (Qlt_bool m (Qabs d)) eqn:Eclamp; qprop.
      * rewrite (Qabs_neg d) in Eclamp by lra.
        assert (E0 : Qlt_bool 0 d = false).
        { destruct (Qlt_bool 0 d) eqn:E; [qprop; exfalso; lra | reflexivity]. }
        rewrite E0.
        near (p1 - m).
        rewrite (sub_fin p1 m) by (apply Qabs_Qlt_condition; exact Hb2).
        set (r2 := round (p1 - m)) in *.
        assert (Hr2 : 0 <= r2) by (apply round_ge; [exact R0 | lra]).
        cbn [fleb].
        destruct (Qle_bool 360 r2) eqn:Eturn; qprop.
        -- near (r2 - 360).
           rewrite (sub_fin r2 360) by (apply Qabs_Qlt_condition; exact Hb3).
           set (res := round (r2 - 360)) in *.
           assert (Hres : 0 <= res) by (apply round_ge; [exact R0 | lra]).
           eexists. split; [reflexivity|]. split; [lra|].
           unfold angularDistance. apply Q.min_le_iff.
           destruct (Qabs_cases (res - p)) as [[? Ea] | [? Ea]]; rewrite Ea;
             try (left; lra); try (right; lra).
        -- eexists. split; [reflexivity|]. split; [lra|].
           unfold angularDistance. apply Q.min_le_iff.
           destruct (Qabs_cases (r2 - p)) as [[? Ea] | [? Ea]]; rewrite Ea;
             try (left; lra); try (right; lra).
      * rewrite (Qabs_neg d) in Eclamp by lra.
        cbn [fleb].
        destruct (Qle_bool 360 r) eqn:Eturn; qprop.
        -- near (r - 360).
           rewrite (sub_fin r 360) by (apply Qabs_Qlt_condition; exact Hb2).
           set (res := round (r - 360)) in *.
           assert (Hres : 0 <= res) by (apply round_ge; [exact R0 | lra]).
           eexists. split; [reflexivity|]. split; [lra|].
           unfold angularDistance. apply Q.min_le_iff.
           destruct (Qabs_cases (res - p)) as [[? Ea] | [? Ea]]; rewrite Ea;
             try (left; lra); try (right; lra).
        -- eexists. split; [reflexivity|]. split; [lra|].
           unfold angularDistance. apply Q.min_le_iff.
           destruct (Qabs_cases (r - p)) as [[? Ea] | [? Ea]]; rewrite Ea;
             try (left; lra); try (right; lra).
  - (* on one side of the boundary *)
    qprop.
    near (r - p).
    rewrite (sub_fin r p) by (apply Qabs_Qlt_condition; exact Hb0).
    fold d0. cbn [fabs fltb].
    destruct (Qlt_bool m (Qabs d0)) eqn:Eclamp; qprop.
    + destruct (Qlt_bool 0 d0) eqn:Eup; qprop.
      * near (p + m).
        rewrite (add_fin p m) by (apply Qabs_Qlt_condition; exact Hb1).
        set (r2 := round (p + m)) in *.
        assert (Hr2 : 0 <= r2) by (apply round_ge; [exact R0 | lra]).
        cbn [fleb].
        destruct (Qle_bool 360 r2) eqn:Eturn; qprop.
        -- near (r2 - 360).
           rewrite (sub_fin r2 360) by (apply Qabs_Qlt_condition; exact Hb2).
           set (res := round (r2 - 360)) in *.
           assert (Hres : 0 <= res) by (apply round_ge; [exact R0 | lra]).
           eexists. split; [reflexivity|]. split; [lra|].
           unfold angularDistance. apply Q.min_le_iff.
           destruct (Qabs_cases (res - p)) as [[? Ea] | [? Ea]]; rewrite Ea;
             try (left; lra); try (right; lra).
        -- eexists. split; [reflexivity|]. split; [lra|].
           unfold angularDistance. apply Q.min_le_iff.
           destruct (Qabs_cases (r2 - p)) as [[? Ea] | [? Ea]]; rewrite Ea;
             try (left; lra); try (right; lra).
      * rewrite (Qabs_neg d0) in Eclamp by lra.
        assert (Hlt : round (r - p) < - m) by (fold d0; lra).
        apply round_lt_inv in Hlt; [|exact Hmi'].
        near (p - m).
        rewrite (sub_fin p m) by (apply Qabs_Qlt_condition; exact Hb1).
        set (r2 := round (p - m)) in *.
        assert (Hr2 : 0 <= r2) by (apply round_ge; [exact R0 | lra]).
        cbn [fleb].
        destruct (Qle_bool 360 r2) eqn:Eturn; qprop.
        -- near (r2 - 360).
           rewrite (sub_fin r2 360) by (apply Qabs_Qlt_condition; exact Hb2).
           set (res := round (r2 - 360)) in *.
           assert (Hres : 0 <= res) by (apply round_ge; [exact R0 | lra]).
           eexists. split; [reflexivity|]. split; [lra|].
           unfold angularDistance. apply Q.min_le_iff.
           destruct (Qabs_cases (res - p)) as [[? Ea] | [? Ea]]; rewrite Ea;
             try (left; lra); try (right; lra).
        -- eexists. split; [reflexivity|]. split; [lra|].
           unfold angularDistance. apply Q.min_le_iff.
           destruct (Qabs_cases (r2 - p)) as [[? Ea] | [? Ea]]; rewrite Ea;
             try (left; lra); try (right; lra).
    + cbn [fleb].
      assert (Hd : - m <= d0 <= m).
      { destruct (Qabs_cases d0) as [[? Ea] | [? Ea]]; rewrite Ea in Eclamp; lra. }
      destruct (Qle_bool 360 r) eqn:Eturn; qprop.
      * near (r - 360).
        rewrite (sub_fin r 360) by (apply Qabs_Qlt_condition; exact Hb1).
        set (res := round (r - 360)) in *.
        assert (Hres : 0 <= res) by (apply round_ge; [exact R0 | lra]).
        eexists. split; [reflexivity|]. split; [lra|].
        unfold angularDistance. apply Q.min_le_iff.
        destruct (Qabs_cases (res - p)) as [[? Ea] | [? Ea]]; rewrite Ea;
          try (left; lra); try (right; lra).
      * eexists. split; [reflexivity|]. split; [lra|].
        unfold angularDistance. apply Q.min_le_iff.
        destruct (Qabs_cases (r - p)) as [[? Ea] | [? Ea]]; rewrite Ea;
          try (left; lra); try (right; lra).
Qed.

(** ** The estimate of a pair in binary32 *)

Lemma round_2_127 : round (2 ^ 127) == 2 ^ 127.
Proof. vm_compute. reflexivity. Qed.

(** A rounding of at most [2^127] in absolute value does not overflow. *)
Lemma fround_fin_wide q : Qabs q <= 2 ^ 127 -> fround q = Fin (round q).
Proof.
  intro H. unfold fround.
  apply Qabs_Qle_condition in H.
  assert (Hu : round q <= 2 ^ 127) by (apply round_le; [exact round_2_127 | lra]).
  assert (Hl : - 2 ^ 127 <= round q).
  { apply round_ge; [|lra]. rewrite round_opp, round_2_127. reflexivity. }
  assert (Hp : 2 ^ 127 < 2 ^ 128) by (apply pow2_lt; lia).
  destruct (Qle_bool (2 ^ 128) (Qabs (round q))) eqn:E; [|reflexivity].
  qprop. exfalso.
  destruct (Qabs_cases (round q)) as [[? Ea] | [? Ea]]; rewrite Ea in E; lra.
Qed.

Lemma coordinate_sub a b :
  coordinate a -> coordinate b -> sub (Fin a) (Fin b) = Fin (round (a - b)).
Proof.
  intros [_ Ha] [_ Hb]. unfold sub. cbn [fsub fadd fopp narrow].
  apply fround_fin_wide.
  apply Qabs_Qle_condition in Ha. apply Qabs_Qle_condition in Hb.
  assert (E : 2 ^ 127 == 2 * 2 ^ 126) by reflexivity.
  apply Qabs_Qle_condition. lra.
Qed.

Lemma fround_nonneg q :
  0 <= q -> fround q = PInf \/ exists r, fround q = Fin r /\ 0 <= r.
Proof.
  intro H. unfold fround.
  destruct (Qle_bool (2 ^ 128) (Qabs (round q))).
  - left. destruct (Qlt_bool q 0) eqn:E; [qprop; exfalso; lra | reflexivity].
  - right. eexists. split; [reflexivity|]. apply round_nonneg. exact H.
Qed.

Section RoundedEstimate.

Variable atanDeg : Q -> Q.
Hypothesis atanDeg_range : forall q, 0 <= q -> 0 <= atanDeg q <= 90.

Lemma jointsAngle_rounded rightJoint leftJoint :
  positioned rightJoint -> positioned leftJoint ->
  ~ jX rightJoint == jX leftJoint ->
  exists a, jointsAngle atanDeg rightJoint leftJoint = Fin a /\ 0 <= a <= 90.
Proof.
  intros [Hrx Hrz] [Hlx Hlz] Hx. unfold jointsAngle.
  rewrite (coordinate_sub _ _ Hrz Hlz), (coordinate_sub _ _ Hrx Hlx).
  cbn [fabs].
  assert (Hd : ~ round (jX rightJoint - jX leftJoint) == 0).
  { apply round_sub_nonzero; [apply Hrx | apply Hlx | exact Hx]. }
  set (dx := round (jX rightJoint - jX leftJoint)) in *.
  set (dz := round (jZ rightJoint - jZ leftJoint)).
  assert (Hdx : 0 < Qabs dx).
  { destruct (Qabs_cases dx) as [[? Ea] | [? Ea]]; rewrite Ea;
      apply Qnot_le_lt; intro; apply Hd; lra. }
  pose proof (Qabs_nonneg dz) as Hdz.
  unfold div. cbn [fdiv].
  destruct (Qeq_bool (Qabs dx) 0) eqn:E; [qprop; exfalso; lra|].
  cbn [narrow].
  assert (Hq : 0 <= Qabs dz / Qabs dx) by (apply Qle_shift_div_l; lra).
  destruct (fround_nonneg _ Hq) as [-> | [q [-> Hq0]]]; cbn [fatanDeg].
  - eexists. split; [reflexivity | lra].
  - eexists. split; [reflexivity|]. apply atanDeg_range. exact Hq0.
Qed.

(** The case analysis assigns a value of [0,360] to every pair of joints
    that differ in X or in Z. *)
Lemma quadrantRotation_rounded rightJoint leftJoint :
  positioned rightJoint -> positioned leftJoint ->
  ~ (jX rightJoint == jX leftJoint /\ jZ rightJoint == jZ leftJoint) ->
  exists r,
    Float32.quadrantRotation atanDeg rightJoint leftJoint = Fin r /\ 0 <= r <= 360.
Proof.
  intros Hpr Hpl Hne. unfold Float32.quadrantRotation.
  pose proof round_0 as R0. pose proof round_90 as R90.
  pose proof round_180 as R180. pose proof round_360 as R360.
  destruct (Qeq_bool (jZ rightJoint) (jZ leftJoint)) eqn:Ez;
  destruct (Qeq_bool (jX rightJoint) (jX leftJoint)) eqn:Ex;
  destruct (Qlt_bool (jX leftJoint) (jX rightJoint)) eqn:Exgt;
  destruct (Qlt_bool (jX rightJoint) (jX leftJoint)) eqn:Exlt;
  destruct (Qlt_bool (jZ leftJoint) (jZ rightJoint)) eqn:Ezgt;
  destruct (Qlt_bool (jZ rightJoint) (jZ leftJoint)) eqn:Ezlt;
  cbn [andb];
  try (eexists; split; [reflexivity | lra]);
  qprop; try (exfalso; lra); try (exfalso; apply Hne; split; lra);
  destruct (jointsAngle_rounded rightJoint leftJoint Hpr Hpl Ex) as [a [Ha Hr]];
  rewrite Ha;
  try (eexists; split; [reflexivity | lra]).
  all: try (rewrite (sub_fin 180 a) by (apply Qabs_Qlt_condition; split; lra));
       try (rewrite (sub_fin 360 a) by (apply Qabs_Qlt_condition; split; lra));
       try (rewrite (add_fin 180 a) by (apply Qabs_Qlt_condition; split; lra)).
  all: eexists; (split; [reflexivity|]); split;
       first [ apply round_ge; [exact R0 | lra]
             | apply round_le; [exact R360 | lra] ].
Qed.

(** C1, as amended.  For every frequency f of (0, INT_MAX], every pair
    of acceptable joints whose X and Z are binary32 values of at most
    2^126 in absolute value and that differ in X or in Z, and every
    previous rotation of [0,360), the rotation that [rotationFrom2Joints]
    returns, with every operation rounded to binary32 as the program
    runs it, is a finite value of [0,360) whose wrap-aware difference
    from the previous rotation is at most 55/f + 2^-13 degrees. *)
Theorem rotationFrom2Joints_smoothed frequency rightJoint leftJoint (previousRotation : Q) :
  (0 < frequency <= INT_MAX)%Z ->
  isJointAcceptable rightJoint = true ->
  isJointAcceptable leftJoint = true ->
  positioned rightJoint ->
  positioned leftJoint ->
  ~ (jX rightJoint == jX leftJoint /\ jZ rightJoint == jZ leftJoint) ->
  0 <= previousRotation < 360 ->
  exists rotation,
    fst (Float32.rotationFrom2Joints atanDeg frequency rightJoint leftJoint
           (Fin previousRotation)) = Fin rotation
    /\ 0 <= rotation < 360
    /\ angularDistance rotation previousRotation
       <= 55 / inject_Z frequency + (1 # 8192).
Proof.
  intros Hf Hr Hl Hpr Hpl Hne Hp.
  unfold Float32.rotationFrom2Joints. rewrite Hr, Hl. cbn [andb fst].
  assert (E : feqb (Fin previousRotation) (Fin (- 1)) = false).
  { cbn [feqb]. apply Qeq_bool_false. lra. }
  rewrite E. cbn [negb].
  destruct (quadrantRotation_rounded rightJoint leftJoint Hpr Hpl Hne) as [r [Hq Hrange]].
  rewrite Hq. apply smoothRotation_rounded; assumption.
Qed.

End RoundedEstimate.

Lemma coordinate_sample (z : Z) : (Z.abs z <= 2 ^ 24)%Z -> coordinate (inject_Z z).
Proof.
  intro H. split.
  - apply round_Z. exact H.
  - assert (Hz : Qabs (inject_Z z) <= inject_Z (2 ^ 24)).
    { apply Qabs_Qle_condition. rewrite <- inject_Z_opp, <- !Zle_Qle. lia. }
    assert (inject_Z (2 ^ 24) <= 2 ^ 126) by (vm_compute; discriminate).
    lra.
Qed.

(** A sample run of the amended C1: 30 frames per second, the right joint
    at (1,1), the left joint at the origin, previous rotation 350. *)
Lemma rotationFrom2Joints_smoothed_witness :
  exists rotation,
    fst (Float32.rotationFrom2Joints Sample.atanDeg 30
           (Sample.jointAt XN_SKEL_RIGHT_HIP 1 1 1)
           (Sample.jointAt XN_SKEL_LEFT_HIP 0 0 1) (Fin 350)) = Fin rotation
    /\ 0 <= rotation < 360
    /\ angularDistance rotation 350 <= 55 / inject_Z 30 + (1 # 8192).
Proof.
  apply (rotationFrom2Joints_smoothed Sample.atanDeg sample_atanDeg_range).
  - split; [lia | vm_compute; discriminate].
  - reflexivity.
  - reflexivity.
  - split; apply (coordinate_sample 1); vm_compute; discriminate.
  - split; apply (coordinate_sample 0); vm_compute; discriminate.
  - intros [H _]. vm_compute in H. discriminate.
  - lra.
Defined.

(** The rounded operations are those of binary32: on the sample runs the
    smoothing step agrees bit for bit with the one computed with the
    binary32 operations of the Standard Library. *)
Lemma binary_smoothing :
  forallb
    (fun frequency =>
       forallb
         (fun '(r, p) =>
            match Float32.smoothRotation frequency (Fin (Binary.value r))
                    (Fin (Binary.value p)),
                  Binary.smoothRotation frequency r p with
            | Fin q, S754_finite s m e => Qeq_bool q (Binary.value (S754_finite s m e))
            | Fin q, S754_zero _ => Qeq_bool q 0
            | _, _ => false
            end)
         (list_prod
            (map (fun n => SFdiv 24 128 (Binary.b32 n) (Binary.b32 10))
                 [0; 1; 5; 18; 900; 1799; 1800; 1801; 2700; 3150; 3500; 3595; 3599]%Z)
            (map (fun n => SFdiv 24 128 (Binary.b32 n) (Binary.b32 10))
                 [0; 1; 5; 18; 900; 1799; 1800; 1801; 2700; 3150; 3500; 3595; 3599]%Z)))
    [0; 1; 7; 30; 60; 1000; 123456789]%Z
  = true
  /\ Float32.smoothRotation 30 (Fin 315) (Fin 350) = Fin (11408725 # 32768)
  /\ Binary.smoothRotation 30 (Binary.b32 315) (Binary.b32 350)
     = S754_finite false 11408725 (-15).
Proof. vm_compute. repeat split. Qed.

(** The sum, the difference and the quotient of sample values, among
    them subnormal values and values near the largest one, agree with the
    binary32 operations of the Standard Library, and so does the
    conversion of an integer. *)
Lemma binary_operations :
  let tiny n e := SFdiv 24 128 (Binary.b32 n) (Binary.b32 (2 ^ e)) in
  let samples :=
    [Binary.b32 0; Binary.b32 1; Binary.b32 360; Binary.b32 55; Binary.b32 30;
     Binary.b32 16777217; Binary.b32 (-7); Binary.b32 3;
     tiny 1%Z 126%Z; tiny 3%Z 127%Z; tiny 5%Z 120%Z; tiny 1%Z 100%Z;
     SFdiv 24 128 (tiny 1%Z 126%Z) (Binary.b32 8388608);
     SFdiv 24 128 (tiny 3%Z 126%Z) (Binary.b32 8388608);
     SFdiv 24 128 (tiny 1%Z 126%Z) (Binary.b32 3);
     SFdiv 24 128 (tiny (-1)%Z 126%Z) (Binary.b32 7);
     SFdiv 24 128 (Binary.b32 1) (Binary.b32 10);
     Binary.b32 (2 ^ 127); Binary.b32 (2 ^ 100 * 3)] in
  let agree (r : float) (x : spec_float) :=
    match r, x with
    | Fin q, S754_finite _ _ _ => Qeq_bool q (Binary.value x)
    | Fin q, S754_zero _ => Qeq_bool q 0
    | PInf, S754_infinity false => true
    | NInf, S754_infinity true => true
    | NaN, S754_nan => true
    | _, _ => false
    end in
  forallb
    (fun '(a, b) =>
       agree (add (Fin (Binary.value a)) (Fin (Binary.value b))) (SFadd 24 128 a b)
       && agree (sub (Fin (Binary.value a)) (Fin (Binary.value b))) (SFsub 24 128 a b)
       && agree (div (Fin (Binary.value a)) (Fin (Binary.value b))) (SFdiv 24 128 a b))
    (list_prod samples samples)
  = true
  /\ forallb (fun z => agree (ofInt z) (Binary.b32 z))
       [0; 1; 360; 16777217; 16777219; 33554435; -16777217; 2147483647;
        123456789123456789; 2 ^ 128 - 2 ^ 103; 2 ^ 128 - 2 ^ 103 - 1; 2 ^ 130;
        - 2 ^ 128]%Z
     = true.
Proof. vm_compute. split; reflexivity. Qed.

(** ** [reduceAngle] in binary32 *)

(** X1.  [reduceAngle] makes one turn at most, and its result can be 360
    itself.  An angle of [-360,720) is brought into [0,360], to within
    a rounding of the angle, of the angle less 360 or of the angle plus
    360; an angle of [0,360) is returned as it is; the small negative
    angle -2^-17 gives 360, because [360.0f + angle] rounds to 360; an
    angle of 720 or more is still at 360 or more afterwards. *)
Theorem reduceAngle_one_turn (angle : Q) :
  (- 360 <= angle < 720 ->
   exists r,
     Float32.reduceAngle (Fin angle) = Fin r
     /\ 0 <= r <= 360
     /\ (r = angle
         \/ Qabs (r - (angle - 360)) <= 1 # 32768
         \/ Qabs (r - (angle + 360)) <= 1 # 32768))
  /\ (0 <= angle < 360 -> Float32.reduceAngle (Fin angle) = Fin angle)
  /\ (exists r, Float32.reduceAngle (Fin (- (1 # 131072))) = Fin r /\ r == 360)
  /\ (720 <= angle -> fleb (Fin 360) (Float32.reduceAngle (Fin angle)) = true).
Proof.
  pose proof round_0 as R0. pose proof round_360 as R360.
  split; [|split; [|split]].
  - intro H. unfold Float32.reduceAngle. cbn [fleb fltb].
    destruct (Qle_bool 360 angle) eqn:E1; [|destruct (Qlt_bool angle 0) eqn:E2]; qprop.
    + near (angle - 360).
      rewrite (sub_fin angle 360) by (apply Qabs_Qlt_condition; exact Hb).
      eexists. split; [reflexivity|]. split.
      * split; [apply round_ge | apply round_le]; assumption || lra.
      * right. left. apply Qabs_Qle_condition. lra.
    + near (360 + angle).
      rewrite (add_fin 360 angle) by (apply Qabs_Qlt_condition; exact Hb).
      eexists. split; [reflexivity|]. split.
      * split; [apply round_ge | apply round_le]; assumption || lra.
      * right. right. apply Qabs_Qle_condition. lra.
    + eexists. split; [reflexivity|]. split; [lra|]. left. reflexivity.
  - intro H. unfold Float32.reduceAngle. cbn [fleb fltb].
    destruct (Qle_bool 360 angle) eqn:E1; [qprop; exfalso; lra|].
    destruct (Qlt_bool angle 0) eqn:E2; [qprop; exfalso; lra|]. reflexivity.
  - eexists. split; [vm_compute; reflexivity | reflexivity].
  - intro H. unfold Float32.reduceAngle. cbn [fleb].
    assert (E1 : Qle_bool 360 angle = true) by (apply Qle_bool_iff; lra).
    rewrite E1. unfold sub. cbn [fsub fadd fopp narrow]. unfold fround.
    match goal with
    | |- context [round ?t] =>
        assert (Hr : 360 <= round t) by (apply round_ge; [exact R360 | lra]);
        assert (Ht : 0 <= t) by lra
    end.
    match goal with
    | |- context [Qle_bool (2 ^ 128) ?x] => destruct (Qle_bool (2 ^ 128) x)
    end.
    + match goal with
      | |- context [Qlt_bool ?t 0] => destruct (Qlt_bool t 0) eqn:E
      end; [qprop; exfalso; lra | reflexivity].
    + cbn [fleb]. apply Qle_bool_iff. exact Hr.
Qed.

(** ** What the smoothing leaves alone, in binary32 *)



(** X5.  A frequency of 0 switches the clamping off: the margin 55/0 is
    infinite.  For a raw and a previous rotation of [0,360) the result
    is the raw rotation itself, unless the raw rotation is the lower
    value across the 0/360 boundary: then 360 is added and subtracted in
    binary32 and the result is the raw rotation to within 2^-14. *)
Theorem smoothRotation_frequency_zero (r p : Q) :
  0 <= r < 360 ->
  0 <= p < 360 ->
  exists r',
    Float32.smoothRotation 0 (Fin r) (Fin p) = Fin r'
    /\ (p - r <= 180 -> r' = r)
    /\ Qabs (r' - r) <= 1 # 16384.
Proof.
  intros Hr Hp.
  pose proof round_0 as R0. pose proof round_360 as R360. pose proof round_180 as R180.
  assert (R180' : round (- (180)) == - (180)) by (rewrite round_opp, round_180; reflexivity).
  assert (Hm : div (Fin 55) (ofInt 0) = PInf) by (vm_compute; reflexivity).
  assert (Hzero : Qabs (r - r) <= 1 # 16384).
  { setoid_replace (r - r) with 0 by ring. cbn. lra. }
  unfold Float32.smoothRotation.
  near (r - p).
  rewrite (sub_fin r p) by (apply Qabs_Qlt_condition; exact Hb).
  cbn [fabs fltb].
  set (d0 := round (r - p)) in *.
  assert (Eturn : (if Qle_bool 360 r then sub (Fin r) (Fin 360) else Fin r) = Fin r).
  { destruct (Qle_bool 360 r) eqn:E; [qprop; exfalso; lra | reflexivity]. }
  destruct (Qlt_bool 180 (Qabs d0)) eqn:Ewrap; qprop.
  - destruct (Qlt_bool r p) eqn:Elow; qprop.
    + assert (Hwrap : 180 < p - r).
      { destruct (Qabs_cases d0) as [[? Ea] | [? Ea]]; rewrite Ea in Ewrap.
        - exfalso. assert (d0 <= 0) by (apply round_le; [exact R0 | lra]). lra.
        - assert (Hlt : round (r - p) < - (180)) by (fold d0; lra).
          apply round_lt_inv in Hlt; [lra | exact R180']. }
      near (r + 360).
      rewrite (add_fin r 360) by (apply Qabs_Qlt_condition; exact Hb0).
      set (r1 := round (r + 360)) in *.
      assert (Hr1 : 360 <= r1) by (apply round_ge; [exact R360 | lra]).
      rewrite Hm.
      near (r1 - p).
      rewrite (sub_fin r1 p) by (apply Qabs_Qlt_condition; exact Hb1).
      cbn [fabs fltb fleb].
      assert (Et : Qle_bool 360 r1 = true) by (apply Qle_bool_iff; exact Hr1).
      rewrite Et.
      near (r1 - 360).
      rewrite (sub_fin r1 360) by (apply Qabs_Qlt_condition; exact Hb2).
      eexists. split; [reflexivity|]. split.
      * intro Hc. exfalso. lra.
      * apply Qabs_Qle_condition. lra.
    + near (p + 360).
      rewrite (add_fin p 360) by (apply Qabs_Qlt_condition; exact Hb0).
      rewrite Hm.
      set (p1 := round (p + 360)) in *.
      near (r - p1).
      rewrite (sub_fin r p1) by (apply Qabs_Qlt_condition; exact Hb1).
      cbn [fabs fltb fleb]. rewrite Eturn.
      eexists. split; [reflexivity|]. split; [reflexivity | exact Hzero].
  - rewrite Hm.
    near (r - p).
    rewrite (sub_fin r p) by (apply Qabs_Qlt_condition; exact Hb0).
    cbn [fabs fltb fleb]. rewrite Eturn.
    eexists. split; [reflexivity|]. split; [reflexivity | exact Hzero].
Qed.

(** A sample run of X5: raw rotation 1/10 after 359.5, across the
    boundary. *)
Lemma smoothRotation_frequency_zero_witness :
  exists r',
    Float32.smoothRotation 0 (Fin (1 # 10)) (Fin (719 # 2)) = Fin r'
    /\ ((719 # 2) - (1 # 10) <= 180 -> r' = 1 # 10)
    /\ Qabs (r' - (1 # 10)) <= 1 # 16384.
Proof.
  apply (smoothRotation_frequency_zero (1 # 10) (719 # 2)); lra.
Defined.
